(** * React Router Navigator: the route parser of [src/extension.ts]

    A shallow embedding of the route parser (lines 150-449 of
    [src/extension.ts]) and of the commands around it (lines 23-142 and
    466-553), the properties of the parser's specification, and further
    properties of the code.

    - A JavaScript string is a list of UTF-16 code units, each an [N].
    - Offsets into the text are [Z], as the source uses [-1] for
      "not found" and subtracts offsets.
    - Every [while] loop of the source is a [Fixpoint] on an iteration
      budget.  The outer [option] of a looping function belongs to the
      model: [None] says that the budget ran out (or that a node reference
      dangles), never something JavaScript does.  A JavaScript [null] is the
      inner [option].  The totality theorems show the outer [None] never
      occurs.
    - [traverse], the one function of the parser that calls itself, is
      modelled twice.  [traverse] and [parseRoutesFile] are the run of an
      engine with room for every nested call.  [traverse_stack] and
      [parseRoutesFile_stack] count the nested calls against the room of
      the call stack; their inner [None] is the [RangeError] the engine
      raises when the room is used up. *)

From Stdlib Require Import Sorting.Sorted.
From stdpp Require Import base numbers option list strings.

Open Scope Z_scope.

(** ** Text and characters *)

Definition text_of (s : string) : list N :=
  Ascii.N_of_ascii <$> String.list_ascii_of_string s.

Definition LPAREN : N := 40.
Definition RPAREN : N := 41.
Definition DQUOTE : N := 34.
Definition SQUOTE : N := 39.
Definition BACKSLASH : N := 92.
Definition COMMA : N := 44.
Definition LBRACKET : N := 91.
Definition DOT : N := 46.
Definition SLASH : N := 47.
Definition NEWLINE : N := 10.

(** [text.length] *)
Definition len (text : list N) : Z := Z.of_nat (length text).

(** [text[i]]; [None] is JavaScript's [undefined]. *)
Definition char_at (text : list N) (i : Z) : option N :=
  if i <? 0 then None else text !! Z.to_nat i.

(** [text[i] === c] *)
Definition is_char (text : list N) (i : Z) (c : N) : bool :=
  match char_at text i with
  | Some x => (x =? c)%N
  | None => false
  end.

(** The string a value becomes when appended to a string: a character is
    itself, [undefined] is the nine letters of its name. *)
Definition js_string_of (o : option N) : list N :=
  match o with
  | Some c => [c]
  | None => text_of "undefined"
  end.

(** The class [\s] of an ECMAScript regular expression. *)
Definition is_space (c : N) : bool :=
  ((9 <=? c) && (c <=? 13) || (c =? 32) || (c =? 160) || (c =? 5760)
   || (8192 <=? c) && (c <=? 8202) || (c =? 8232) || (c =? 8233)
   || (c =? 8239) || (c =? 8287) || (c =? 12288) || (c =? 65279))%N.

(** The class [\w]. *)
Definition is_word (c : N) : bool :=
  ((48 <=? c) && (c <=? 57) || (65 <=? c) && (c <=? 90) || (c =? 95)
   || (97 <=? c) && (c <=? 122))%N.

(** [/\s/.test(text[i])]: the argument is first turned into a string, and
    no letter of "undefined" is white space. *)
Definition test_space (o : option N) : bool :=
  match o with
  | Some c => is_space c
  | None => false
  end.

(** [/[\s,]/.test(text[i])] *)
Definition test_separator (o : option N) : bool :=
  match o with
  | Some c => is_space c || (c =? COMMA)%N
  | None => false
  end.

(** [text.substring(a, b)]: both ends are clamped to the text and swapped
    when out of order. *)
Definition substring (text : list N) (a b : Z) : list N :=
  let a' := Z.min (Z.max a 0) (len text) in
  let b' := Z.min (Z.max b 0) (len text) in
  let lo := Z.min a' b' in
  let hi := Z.max a' b' in
  take (Z.to_nat (hi - lo)) (drop (Z.to_nat lo) text).

(** The iteration budget of a loop that starts at offset [i] and moves
    right until the end of the text: one more than the characters left. *)
Definition budget (text : list N) (i : Z) : nat :=
  S (Z.to_nat (len text - i)).

(** ** Lexing primitives *)

(** *** [extractStringArg] (lines 173-206) *)

(** [while (i < text.length && /[\s,]/.test(text[i])) i++] *)
Fixpoint skip_separators (fuel : nat) (text : list N) (i : Z) : option Z :=
  match fuel with
  | O => None
  | S fuel' =>
      if (i <? len text) && test_separator (char_at text i)
      then skip_separators fuel' text (i + 1)
      else Some i
  end.

(** The loop that reads the characters between the quotes; it returns the
    final [i] and [value]. *)
Fixpoint read_quoted (fuel : nat) (text : list N) (quote : N) (i : Z)
    (value : list N) : option (Z * list N) :=
  match fuel with
  | O => None
  | S fuel' =>
      if (i <? len text) && negb (is_char text i quote) then
        if is_char text i BACKSLASH && (i + 1 <? len text)
        then read_quoted fuel' text quote (i + 2)
               (value ++ js_string_of (char_at text (i + 1)))
        else read_quoted fuel' text quote (i + 1)
               (value ++ js_string_of (char_at text i))
      else Some (i, value)
  end.

(** The result is [Some None] for the source's [null], and
    [Some (Some (value, endIndex))] otherwise. *)
Definition extractStringArg (text : list N) (startFrom : Z)
    : option (option (list N * Z)) :=
  i ← skip_separators (budget text startFrom) text startFrom;
  if len text <=? i then Some None
  else
    match char_at text i with
    | Some quote =>
        if negb (quote =? DQUOTE)%N && negb (quote =? SQUOTE)%N then Some None
        else
          '(i', value) ← read_quoted (budget text (i + 1)) text quote (i + 1) [];
          if len text <=? i' then Some None
          else Some (Some (value, i' + 1))
    | None => Some None
    end.

(** *** [findMatchingParen] (lines 209-233) *)

(** The inner loop, which skips the content of a string:
    [while (i < text.length && text[i] !== quote) { if (text[i] === '\\') i++; i++ }] *)
Fixpoint skip_quoted (fuel : nat) (text : list N) (quote : N) (i : Z)
    : option Z :=
  match fuel with
  | O => None
  | S fuel' =>
      if (i <? len text) && negb (is_char text i quote) then
        let i1 := if is_char text i BACKSLASH then i + 1 else i in
        skip_quoted fuel' text quote (i1 + 1)
      else Some i
  end.

(** The outer loop; it returns the final [depth] and [i]. *)
Fixpoint paren_loop (fuel : nat) (text : list N) (depth i : Z)
    : option (Z * Z) :=
  match fuel with
  | O => None
  | S fuel' =>
      if (i <? len text) && (0 <? depth) then
        if is_char text i LPAREN then paren_loop fuel' text (depth + 1) (i + 1)
        else if is_char text i RPAREN then
          paren_loop fuel' text (depth - 1) (i + 1)
        else if is_char text i DQUOTE || is_char text i SQUOTE then
          let quote := if is_char text i DQUOTE then DQUOTE else SQUOTE in
          i' ← skip_quoted (budget text (i + 1)) text quote (i + 1);
          paren_loop fuel' text depth (i' + 1)
        else paren_loop fuel' text depth (i + 1)
      else Some (depth, i)
  end.

(** The source returns the offset of the closing parenthesis, or [-1]. *)
Definition findMatchingParen (text : list N) (openIndex : Z) : option Z :=
  '(depth, i) ← paren_loop (budget text (openIndex + 1)) text 1 (openIndex + 1);
  Some (if depth =? 0 then i - 1 else -1).

(** *** [findChildrenArray] (lines 236-258) *)

Fixpoint children_loop (fuel : nat) (text : list N) (closeParenIndex i : Z)
    (foundComma : bool) : option (option Z) :=
  match fuel with
  | O => None
  | S fuel' =>
      if i <? closeParenIndex then
        if is_char text i COMMA then
          children_loop fuel' text closeParenIndex (i + 1) true
        else if is_char text i LBRACKET && foundComma then Some (Some i)
        else if negb (test_space (char_at text i))
                && negb (is_char text i COMMA) then
          if bool_decide (substring text i (i + 3) = [DOT; DOT; DOT])
          then children_loop fuel' text closeParenIndex (i + 3) foundComma
          else children_loop fuel' text closeParenIndex (i + 1) foundComma
        else children_loop fuel' text closeParenIndex (i + 1) foundComma
      else Some None
  end.

Definition findChildrenArray (text : list N) (afterFileArg closeParenIndex : Z)
    : option (option Z) :=
  children_loop (S (Z.to_nat (closeParenIndex - afterFileArg))) text
    closeParenIndex afterFileArg false.

(** ** Token scanner *)

Inductive RouteType := Route | Index | Layout | Prefix.

(** The string a [type] is in the source; [traverse] takes its length. *)
Definition type_name (t : RouteType) : list N :=
  match t with
  | Route => text_of "route"
  | Index => text_of "index"
  | Layout => text_of "layout"
  | Prefix => text_of "prefix"
  end.

(** [interface RouteToken] (lines 151-158) *)
Record RouteToken := {
  type : RouteType;
  path : list N;
  startIndex : Z;
  endIndex : Z;
  hasChildren : bool;
  childrenStartIndex : option Z
}.

(** *** The regular expressions [/\bNAME\s*\(/g]

    The engine is a builtin; this is its behaviour on these four
    patterns. *)

Definition is_word_at (text : list N) (i : Z) : bool :=
  match char_at text i with
  | Some c => is_word c
  | None => false
  end.

(** [\b] holds at offset [s] when exactly one of [text[s-1]], [text[s]] is a
    word character. *)
Definition word_boundary (text : list N) (s : Z) : bool :=
  xorb (is_word_at text (s - 1)) (is_word_at text s).

Fixpoint literal_at (text : list N) (name : list N) (s : Z) : bool :=
  match name with
  | [] => true
  | c :: name' => is_char text s c && literal_at text name' (s + 1)
  end.

(** [\s*] is greedy; what follows it is [\(], which is no white space, so
    the longest run is the only one that can match. *)
Fixpoint skip_spaces (n : nat) (text : list N) (i : Z) : Z :=
  match n with
  | O => i
  | S n' => if test_space (char_at text i) then skip_spaces n' text (i + 1) else i
  end.

(** A match of [/\bNAME\s*\(/] that starts at offset [s]: the offset just
    after it. *)
Definition match_at (text : list N) (name : list N) (s : Z) : option Z :=
  if word_boundary text s && literal_at text name s then
    let p := skip_spaces (Z.to_nat (len text - (s + len name))) text (s + len name) in
    if is_char text p LPAREN then Some (p + 1) else None
  else None.

Fixpoint search (n : nat) (text : list N) (name : list N) (s : Z)
    : option (Z * Z) :=
  match n with
  | O => None
  | S n' =>
      match match_at text name s with
      | Some e => Some (s, e)
      | None => search n' text name (s + 1)
      end
  end.

(** [regex.exec(text)] of a global regular expression whose [lastIndex] is
    [lastIndex]: the [index] of the match, or [None] for [null], and the new
    [lastIndex] (the end of the match, or 0 after a failure). *)
Definition exec (text : list N) (name : list N) (lastIndex : Z)
    : option Z * Z :=
  if len text <? lastIndex then (None, 0)
  else
    match search (S (Z.to_nat (len text - lastIndex))) text name lastIndex with
    | Some (s, e) => (Some s, e)
    | None => (None, 0)
    end.

Fixpoint index_from (n : nat) (text : list N) (c : N) (i : Z) : Z :=
  match n with
  | O => -1
  | S n' => if is_char text i c then i else index_from n' text c (i + 1)
  end.

(** [text.indexOf(c, from)] *)
Definition indexOf (text : list N) (c : N) (from : Z) : Z :=
  let k := Z.min (Z.max from 0) (len text) in
  index_from (Z.to_nat (len text - k)) text c k.

(** *** [parseRouteTokens] (lines 261-340) *)

Record Pattern := {
  regex : list N;
  ptype : RouteType;
  hasPath : bool
}.

Definition patterns : list Pattern :=
  [ {| regex := text_of "route"; ptype := Route; hasPath := true |};
    {| regex := text_of "index"; ptype := Index; hasPath := false |};
    {| regex := text_of "layout"; ptype := Layout; hasPath := false |};
    {| regex := text_of "prefix"; ptype := Prefix; hasPath := true |} ].

(** The body of the [while] loop for the match at [startIndex]: [Some None]
    is a [continue], [Some (Some token)] the token pushed. *)
Definition scan_match (text : list N) (pat : Pattern) (startIndex : Z)
    : option (option RouteToken) :=
  let openParenIndex := indexOf text LPAREN startIndex in
  closeParenIndex ← findMatchingParen text openParenIndex;
  if closeParenIndex =? -1 then Some None
  else
    pathArg ← (if hasPath pat then extractStringArg text (openParenIndex + 1)
               else Some (Some ([], openParenIndex + 1)));
    match pathArg with
    | None => Some None
    | Some (path, afterPathIndex) =>
        afterFileIndex ←
          match ptype pat with
          | Route | Layout | Index =>
              fileArg ← extractStringArg text afterPathIndex;
              Some (match fileArg with
                    | Some (_, endIndex) => endIndex
                    | None => afterPathIndex
                    end)
          | Prefix => Some afterPathIndex
          end;
        childrenStart ←
          match ptype pat with
          | Prefix => findChildrenArray text afterPathIndex closeParenIndex
          | Route | Layout => findChildrenArray text afterFileIndex closeParenIndex
          | Index => Some None
          end;
        Some (Some {| type := ptype pat;
                      path := path;
                      startIndex := startIndex;
                      endIndex := closeParenIndex;
                      hasChildren := bool_decide (is_Some childrenStart);
                      childrenStartIndex := childrenStart |})
    end.

(** [while ((match = regex.exec(text)) !== null) { ... }]: the loop threads
    the [lastIndex] of the regular expression and returns it with the
    tokens. *)
Fixpoint scan_loop (fuel : nat) (text : list N) (pat : Pattern)
    (lastIndex : Z) (tokens : list RouteToken)
    : option (list RouteToken * Z) :=
  match fuel with
  | O => None
  | S fuel' =>
      match exec text (regex pat) lastIndex with
      | (None, lastIndex') => Some (tokens, lastIndex')
      | (Some startIndex, lastIndex') =>
          tok ← scan_match text pat startIndex;
          scan_loop fuel' text pat lastIndex'
            (match tok with
             | Some t => tokens ++ [t]
             | None => tokens
             end)
      end
  end.

(** [for (const { regex, type, hasPath } of patterns)]: every regular
    expression is a fresh object, whose [lastIndex] is 0. *)
Fixpoint scan_patterns (pats : list Pattern) (text : list N)
    (tokens : list RouteToken) : option (list RouteToken) :=
  match pats with
  | [] => Some tokens
  | pat :: pats' =>
      '(tokens', _) ← scan_loop (budget text 0) text pat 0 tokens;
      scan_patterns pats' text tokens'
  end.

(** [tokens.sort((a, b) => a.startIndex - b.startIndex)]: the sort of an
    array is stable. *)
Fixpoint insert_token (t : RouteToken) (l : list RouteToken)
    : list RouteToken :=
  match l with
  | [] => [t]
  | x :: l' =>
      if 0 <? startIndex t - startIndex x then x :: insert_token t l'
      else t :: x :: l'
  end.

Definition sort_tokens (l : list RouteToken) : list RouteToken :=
  foldr insert_token [] l.

Definition parseRouteTokens (text : list N) : option (list RouteToken) :=
  tokens ← scan_patterns patterns text [];
  Some (sort_tokens tokens).

(** ** Lines and columns (lines 161-170) *)

Definition getLineFromIndex (text : list N) (index : Z) : Z :=
  Z.of_nat (length (filter (λ c, c = NEWLINE) (substring text 0 index))).

Fixpoint last_index_below (n : nat) (text : list N) (c : N) : Z :=
  match n with
  | O => -1
  | S n' =>
      if is_char text (Z.of_nat n') c then Z.of_nat n'
      else last_index_below n' text c
  end.

(** [text.lastIndexOf(c, from)] *)
Definition lastIndexOf (text : list N) (c : N) (from : Z) : Z :=
  let start := Z.min (Z.max from 0) (len text - 1) in
  last_index_below (Z.to_nat (start + 1)) text c.

Definition getColumnFromIndex (text : list N) (index : Z) : Z :=
  let lastNewline := lastIndexOf text NEWLINE (index - 1) in
  index - lastNewline - 1.

(** ** Tree builder (lines 349-403) *)

(** A node refers to its children and to its parent by their position in
    [nodes]; the list of all nodes is the store the loops update. *)
Record TreeNode := {
  token : RouteToken;
  children : list nat;
  parent : option nat
}.

(** The test both inner loops make: [potentialParent] has a children array
    that starts before [node], and ends no earlier than [node]. *)
Definition encloses (potentialParent node : RouteToken) : bool :=
  hasChildren potentialParent &&
  match childrenStartIndex potentialParent with
  | Some c =>
      (c <? startIndex node) && (endIndex node <=? endIndex potentialParent)
  | None => false
  end.

(** [for (let k = j + 1; k < i; k++)]: the result is [isClosestParent]. *)
Fixpoint closest_loop (count : nat) (nodes : list TreeNode) (node : TreeNode)
    (k : nat) : option bool :=
  match count with
  | O => Some true
  | S count' =>
      middle ← nodes !! k;
      if encloses (token middle) (token node) then Some false
      else closest_loop count' nodes node (S k)
  end.

(** [for (let j = i - 1; j >= 0; j--)], with [n = j + 1]: the result is the
    parent found, if any. *)
Fixpoint parent_loop (n : nat) (nodes : list TreeNode) (i : nat)
    (node : TreeNode) : option (option nat) :=
  match n with
  | O => Some None
  | S j =>
      potentialParent ← nodes !! j;
      if encloses (token potentialParent) (token node) then
        isClosestParent ← closest_loop (i - S j) nodes node (S j);
        if isClosestParent : bool then Some (Some j)
        else parent_loop j nodes i node
      else parent_loop j nodes i node
  end.

Definition push_child (potentialParent : TreeNode) (i : nat) : TreeNode :=
  {| token := token potentialParent;
     children := children potentialParent ++ [i];
     parent := parent potentialParent |}.

Definition set_parent (node : TreeNode) (j : nat) : TreeNode :=
  {| token := token node; children := children node; parent := Some j |}.

(** [for (let i = 0; i < nodes.length; i++)] *)
Fixpoint build_loop (count : nat) (i : nat) (nodes : list TreeNode)
    (roots : list nat) : option (list nat * list TreeNode) :=
  match count with
  | O => Some (roots, nodes)
  | S count' =>
      node ← nodes !! i;
      found ← parent_loop i nodes i node;
      match found with
      | Some j =>
          potentialParent ← nodes !! j;
          let nodes1 := <[j := push_child potentialParent i]> nodes in
          node1 ← nodes1 !! i;
          build_loop count' (S i) (<[i := set_parent node1 j]> nodes1) roots
      | None => build_loop count' (S i) nodes (roots ++ [i])
      end
  end.

Definition buildTree (tokens : list RouteToken)
    : option (list nat * list TreeNode) :=
  build_loop (length tokens) 0
    ((λ token, {| token := token; children := []; parent := None |}) <$> tokens)
    [].

(** ** Path resolver (lines 406-419) *)

Definition is_layout (t : RouteType) : bool :=
  match t with
  | Layout => true
  | _ => false
  end.

Definition is_prefix (t : RouteType) : bool :=
  match t with
  | Prefix => true
  | _ => false
  end.

(** A string is truthy when it is not empty. *)
Definition truthy (s : list N) : bool :=
  match s with
  | [] => false
  | _ => true
  end.

(** [while (current) { ...; current = current.parent }] *)
Fixpoint path_loop (fuel : nat) (nodes : list TreeNode) (current : option nat)
    (pathParts : list (list N)) : option (list (list N)) :=
  match fuel with
  | O => None
  | S fuel' =>
      match current with
      | None => Some pathParts
      | Some c =>
          cur ← nodes !! c;
          path_loop fuel' nodes (parent cur)
            (if negb (is_layout (type (token cur))) && truthy (path (token cur))
             then path (token cur) :: pathParts
             else pathParts)
      end
  end.

(** [parts.join('/')] *)
Fixpoint join (parts : list (list N)) : list N :=
  match parts with
  | [] => []
  | [p] => p
  | p :: parts' => p ++ SLASH :: join parts'
  end.

(** [s.replace(/\/+/g, '/')]: a slash that another slash follows is
    dropped. *)
Fixpoint collapse_slashes (s : list N) : list N :=
  match s with
  | [] => []
  | c :: s' =>
      match s' with
      | c' :: _ =>
          if (c =? SLASH)%N && (c' =? SLASH)%N then collapse_slashes s'
          else c :: collapse_slashes s'
      | [] => [c]
      end
  end.

(** [s.replace(/^\/+/, '')] *)
Fixpoint strip_leading_slashes (s : list N) : list N :=
  match s with
  | [] => []
  | c :: s' => if (c =? SLASH)%N then strip_leading_slashes s' else s
  end.

Definition calculateFullPath (nodes : list TreeNode) (node : nat)
    : option (list N) :=
  pathParts ← path_loop (S (length nodes)) nodes (Some node) [];
  let combined := collapse_slashes (join pathParts) in
  Some (SLASH :: strip_leading_slashes combined).

(** ** Route projection (lines 422-449) *)

(** [interface RouteInfo] (lines 14-20).  Its [type] and [path] are [r_type]
    and [r_path] here, as a [RouteToken] has fields of these names; [range]
    is the four arguments of [new vscode.Range]. *)
Record RouteInfo := {
  r_type : RouteType;
  r_path : list N;
  fullPath : list N;
  line : Z;
  range : Z * Z * Z * Z
}.

Fixpoint traverse (fuel : nat) (text : list N) (nodes : list TreeNode)
    (node : nat) (routes : list RouteInfo) : option (list RouteInfo) :=
  match fuel with
  | O => None
  | S fuel' =>
      n ← nodes !! node;
      full ← calculateFullPath nodes node;
      let fullPath := if truthy full then full else [SLASH] in
      let line := getLineFromIndex text (startIndex (token n)) in
      let col := getColumnFromIndex text (startIndex (token n)) in
      let routes1 :=
        if negb (is_prefix (type (token n))) then
          routes ++ [ {| r_type := type (token n);
                         r_path := path (token n);
                         fullPath := fullPath;
                         line := line;
                         range := (line, col, line,
                                   col + len (type_name (type (token n)))) |} ]
        else routes in
      (fix each (cs : list nat) (routes : list RouteInfo) :=
         match cs with
         | [] => Some routes
         | child :: cs' =>
             routes' ← traverse fuel' text nodes child routes;
             each cs' routes'
         end) (children n) routes1
  end.

Fixpoint traverse_roots (text : list N) (nodes : list TreeNode)
    (roots : list nat) (routes : list RouteInfo) : option (list RouteInfo) :=
  match roots with
  | [] => Some routes
  | root :: roots' =>
      routes' ← traverse (S (length nodes)) text nodes root routes;
      traverse_roots text nodes roots' routes'
  end.

(** The text of the document stands for the document. *)
Definition parseRoutesFile (text : list N) : option (list RouteInfo) :=
  tokens ← parseRouteTokens text;
  '(roots, nodes) ← buildTree tokens;
  traverse_roots text nodes roots [].

(** ** The call stack (lines 422-446)

    [traverse] calls itself for every child, so the calls nest as deep as
    the tree; the other functions of the parser are loops.  An engine raises
    a [RangeError] when its call stack is full.  [stack] is the number of
    nested calls of [traverse] the engine has room for; the result is
    [Some None] when a call finds no room, which is the [RangeError] that
    leaves [parseRoutesFile], as nothing catches it. *)

Fixpoint traverse_stack (stack : nat) (text : list N) (nodes : list TreeNode)
    (node : nat) (routes : list RouteInfo)
    : option (option (list RouteInfo)) :=
  match stack with
  | O => Some None
  | S stack' =>
      n ← nodes !! node;
      full ← calculateFullPath nodes node;
      let fullPath := if truthy full then full else [SLASH] in
      let line := getLineFromIndex text (startIndex (token n)) in
      let col := getColumnFromIndex text (startIndex (token n)) in
      let routes1 :=
        if negb (is_prefix (type (token n))) then
          routes ++ [ {| r_type := type (token n);
                         r_path := path (token n);
                         fullPath := fullPath;
                         line := line;
                         range := (line, col, line,
                                   col + len (type_name (type (token n)))) |} ]
        else routes in
      (fix each (cs : list nat) (routes : list RouteInfo) :=
         match cs with
         | [] => Some (Some routes)
         | child :: cs' =>
             result ← traverse_stack stack' text nodes child routes;
             match result with
             | Some routes' => each cs' routes'
             | None => Some None
             end
         end) (children n) routes1
  end.

Fixpoint traverse_roots_stack (stack : nat) (text : list N)
    (nodes : list TreeNode) (roots : list nat) (routes : list RouteInfo)
    : option (option (list RouteInfo)) :=
  match roots with
  | [] => Some (Some routes)
  | root :: roots' =>
      result ← traverse_stack stack text nodes root routes;
      match result with
      | Some routes' => traverse_roots_stack stack text nodes roots' routes'
      | None => Some None
      end
  end.

Definition parseRoutesFile_stack (stack : nat) (text : list N)
    : option (option (list RouteInfo)) :=
  tokens ← parseRouteTokens text;
  '(roots, nodes) ← buildTree tokens;
  traverse_roots_stack stack text nodes roots [].

(** * The editor commands of [src/extension.ts]

    The functions around the parser call the editor and the file system.
    What these provide is a parameter of the model: a [Host] holds the
    functions of [path], [fs] and [vscode.workspace] the source calls, a
    [TextDocument] what the source reads from a document, and a
    cancellation token is the sequence of values its reads return. *)

(** ** Settings (lines 5-32) *)

(** [interface ExtensionConfig]; [maxSearchResults] holds whole numbers. *)
Record ExtensionConfig := {
  fileExtensions : list (list N);
  excludeFolders : list (list N);
  triggerFilePatterns : list (list N);
  maxSearchResults : Z;
  enableCodeLens : bool
}.

(** The section [reactRouterNavigator] of the settings: a key that is not
    set is [None]. *)
Record Settings := {
  set_fileExtensions : option (list (list N));
  set_excludeFolders : option (list (list N));
  set_triggerFilePatterns : option (list (list N));
  set_maxSearchResults : option Z;
  set_enableCodeLens : option bool
}.

(** [config.get(key, defaultValue)] for every key. *)
Definition getConfig (settings : Settings) : ExtensionConfig :=
  {| fileExtensions :=
       default [text_of ".tsx"; text_of ".ts"; text_of ".jsx"; text_of ".js"]
         (set_fileExtensions settings);
     excludeFolders :=
       default [text_of "node_modules"; text_of "dist"; text_of "build";
                text_of ".git"; text_of ".react-router"]
         (set_excludeFolders settings);
     triggerFilePatterns :=
       default [text_of "routes"] (set_triggerFilePatterns settings);
     maxSearchResults := default 3 (set_maxSearchResults settings);
     enableCodeLens := default true (set_enableCodeLens settings) |}.

(** ** The host *)

Record Host (Uri : Type) := {
  (** [path.dirname] and [path.join] *)
  dirname : list N -> list N;
  path_join : list N -> list N -> list N;
  (** [require('fs').existsSync] *)
  existsSync : list N -> bool;
  (** [vscode.workspace.workspaceFolders?.[0]?.uri.fsPath] *)
  workspaceFolder : option (list N);
  (** [vscode.workspace.findFiles(new vscode.RelativePattern(base, pattern),
      exclude, maxResults)] *)
  findFiles : list N -> list N -> list N -> Z -> list Uri;
  (** [String.prototype.toLowerCase] *)
  toLowerCase : list N -> list N
}.

Arguments dirname {Uri}.
Arguments path_join {Uri}.
Arguments existsSync {Uri}.
Arguments workspaceFolder {Uri}.
Arguments findFiles {Uri}.
Arguments toLowerCase {Uri}.

(** A [vscode.Range] is its four numbers, a [vscode.Position] its two. *)
Definition Range : Type := Z * Z * Z * Z.
Definition Position : Type := Z * Z.

Record TextDocument (Uri : Type) := {
  uri_of : Uri;
  (** [document.uri.fsPath] and [document.fileName] *)
  fsPath : list N;
  fileName : list N;
  (** [document.getText()] and [document.getText(range)] *)
  getText : list N;
  getTextIn : Range -> list N;
  (** [document.getWordRangeAtPosition(position, regex)], with the regular
      expression of line 133: a quote, characters that are no quotes, and
      the same quote again *)
  getWordRangeAtPosition : Position -> option Range
}.

Arguments uri_of {Uri}.
Arguments fsPath {Uri}.
Arguments fileName {Uri}.
Arguments getText {Uri}.
Arguments getTextIn {Uri}.
Arguments getWordRangeAtPosition {Uri}.

(** ** [findProjectRoot] (lines 35-68) *)

Definition projectMarkers : list (list N) :=
  [text_of "package.json"; text_of "tsconfig.json"; text_of ".git"].

(** [for (const marker of projectMarkers)]: whether one of them exists in
    [currentDir], which is when the loop returns [currentDir]. *)
Definition has_marker {Uri} (host : Host Uri) (currentDir : list N) : bool :=
  existsb (fun marker => existsSync host (path_join host currentDir marker))
    projectMarkers.

(** [while (currentDir !== path.dirname(currentDir))] *)
Fixpoint root_loop {Uri} (fuel : nat) (host : Host Uri)
    (filePath workspaceRoot currentDir : list N) : option (list N) :=
  match fuel with
  | O => None
  | S fuel' =>
      if bool_decide (currentDir <> dirname host currentDir) then
        if len currentDir <? len workspaceRoot then
          Some (dirname host filePath)
        else if has_marker host currentDir then Some currentDir
        else root_loop fuel' host filePath workspaceRoot
               (dirname host currentDir)
      else Some (dirname host filePath)
  end.

(** The budget: a path has fewer directories above it than characters,
    but for the one step that ends in the directory that is its own
    parent. *)
Definition findProjectRoot {Uri} (host : Host Uri) (filePath : list N)
    : option (list N) :=
  let currentDir := dirname host filePath in
  let workspaceRoot :=
    match workspaceFolder host with
    | Some root => if truthy root then root else currentDir
    | None => currentDir
    end in
  root_loop (S (S (S (length currentDir)))) host filePath workspaceRoot
    currentDir.

(** ** Patterns and paths (lines 71-85) *)

(** [parts.join(sep)] *)
Fixpoint join_by (sep : N) (parts : list (list N)) : list N :=
  match parts with
  | [] => []
  | [p] => p
  | p :: parts' => p ++ sep :: join_by sep parts'
  end.

Definition buildExcludePattern (folders : list (list N)) : list N :=
  text_of "**/{" ++ join_by COMMA folders ++ text_of "}/**".

(** [s.includes(part)] and [s.endsWith(ext)] *)
Definition includes (s part : list N) : bool :=
  existsb (fun i => bool_decide (take (length part) (drop i s) = part))
    (seq 0 (S (length s))).

Definition endsWith (s ext : list N) : bool :=
  bool_decide (drop (length s - length ext) s = ext).

Definition isTriggerFile {Uri} (host : Host Uri) (fileName : list N)
    (patterns : list (list N)) : bool :=
  let lowerFileName := toLowerCase host fileName in
  existsb (fun pattern => includes lowerFileName (toLowerCase host pattern))
    patterns.

Definition looksLikePath (rawPath : list N) (extensions : list (list N))
    : bool :=
  existsb (fun ext => endsWith rawPath ext) extensions.

(** ** [searchFiles] (lines 88-125)

    [token k] is what the read number [k] of [token.isCancellationRequested]
    returns. *)

(** [for (const ext of config.fileExtensions)]; [reads] counts the reads of
    the token so far. *)
Fixpoint extension_loop {Uri} (host : Host Uri) (token : nat -> bool)
    (reads : nat) (projectRoot searchPattern excludePattern : list N)
    (maxResults : Z) (exts : list (list N)) (files : list Uri) : list Uri :=
  match exts with
  | [] => files
  | ext :: exts' =>
      if token reads then []
      else
        let filesWithExt :=
          findFiles host projectRoot (text_of "**/" ++ searchPattern ++ ext)
            excludePattern (maxResults / 2) in
        extension_loop host token (S reads) projectRoot searchPattern
          excludePattern maxResults exts' (files ++ filesWithExt)
  end.

Definition searchFiles {Uri} (host : Host Uri) (searchPattern : list N)
    (documentFsPath : list N) (config : ExtensionConfig) (token : nat -> bool)
    : option (list Uri) :=
  let excludePattern := buildExcludePattern (excludeFolders config) in
  projectRoot ← findProjectRoot host documentFsPath;
  let files :=
    findFiles host projectRoot (text_of "**/" ++ searchPattern) excludePattern
      (maxSearchResults config) in
  if token 0%nat then Some []
  else if (length files =? 0)%nat
          && negb (existsb (fun ext => endsWith searchPattern ext)
                     (fileExtensions config))
  then Some (extension_loop host token 1 projectRoot searchPattern
               excludePattern (maxSearchResults config)
               (fileExtensions config) files)
  else Some files.

(** ** [extractPathAtPosition] (lines 128-142) *)

(** [text.replace] of line 139, which removes every single and every
    double quote. *)
Definition remove_quotes (text : list N) : list N :=
  filter (fun c => c <> SQUOTE /\ c <> DQUOTE) text.

Definition extractPathAtPosition {Uri} (document : TextDocument Uri)
    (position : Position) : option (Range * list N) :=
  match getWordRangeAtPosition document position with
  | None => None
  | Some range =>
      let text := getTextIn document range in
      Some (range, remove_quotes text)
  end.

(** ** The definition provider (lines 507-553) *)

Record LocationLink (Uri : Type) := {
  originSelectionRange : Range;
  targetUri : Uri;
  targetRange : Range;
  targetSelectionRange : Range
}.

Arguments originSelectionRange {Uri}.
Arguments targetUri {Uri}.
Arguments targetRange {Uri}.
Arguments targetSelectionRange {Uri}.

(** [rawPath.replace(/^[\.\/]+/, '')] *)
Fixpoint strip_dots_slashes (rawPath : list N) : list N :=
  match rawPath with
  | [] => []
  | c :: rest =>
      if (c =? DOT)%N || (c =? SLASH)%N then strip_dots_slashes rest
      else rawPath
  end.

(** The body of the [try]; the host's functions are taken not to raise.
    The first read of the token is the provider's, the later ones are those
    of [searchFiles]. *)
Definition provideDefinition {Uri} (host : Host Uri) (settings : Settings)
    (document : TextDocument Uri) (position : Position) (token : nat -> bool)
    : option (option (list (LocationLink Uri))) :=
  let config := getConfig settings in
  match extractPathAtPosition document position with
  | None => Some None
  | Some (range, rawPath) =>
      let isTrigger :=
        isTriggerFile host (fileName document) (triggerFilePatterns config) in
      if negb (looksLikePath rawPath (fileExtensions config)) then Some None
      else if token 0%nat then Some None
      else
        let searchPattern := strip_dots_slashes rawPath in
        if negb (truthy searchPattern) || (len searchPattern <? 2)
        then Some None
        else
          files ← searchFiles host searchPattern (fsPath document) config
                    (fun k => token (S k));
          if (length files =? 0)%nat then Some None
          else
            Some (Some ((fun file =>
                           {| originSelectionRange := range;
                              targetUri := file;
                              targetRange := (0, 0, 0, 0);
                              targetSelectionRange := (0, 0, 0, 0) |})
                          <$> files))
  end.

(** ** The CodeLens provider (lines 466-497) *)

Record CodeLens := {
  lens_range : Range;
  title : list N;
  command : list N;
  tooltip : list N
}.

Definition provideCodeLenses {Uri} (host : Host Uri) (settings : Settings)
    (document : TextDocument Uri) : option (option (list CodeLens)) :=
  let config := getConfig settings in
  if negb (enableCodeLens config) then Some None
  else
    let fileName := toLowerCase host (fileName document) in
    if negb (endsWith fileName (text_of "routes.ts"))
       && negb (endsWith fileName (text_of "routes.tsx"))
       && negb (endsWith fileName (text_of "routes.js"))
       && negb (endsWith fileName (text_of "routes.jsx"))
    then Some None
    else
      routes ← parseRoutesFile (getText document);
      Some (Some ((fun route =>
                     {| lens_range := range route;
                        title := fullPath route;
                        command := [];
                        tooltip := text_of "Full URL path: " ++ fullPath route |})
                    <$> (routes : list RouteInfo))).

(** * Definitions of the specification

    What the specification says in its own words, to compare with the
    code above. *)

(** The rest of the text from offset [i] on, and the characters in
    [[a, b)]. *)
Definition suffix (text : list N) (i : Z) : list N := drop (Z.to_nat i) text.

Definition chars_between (text : list N) (a b : Z) : list N :=
  take (Z.to_nat (b - a)) (suffix text a).

(** ** Matching a parenthesis (specification 4.1)

    One pass over the characters that follow the opening parenthesis, in
    one of three modes.  [depth] counts the parentheses opened after the
    first and not yet closed; the result is the offset of the parenthesis
    that closes the first, or [-1] when the text ends before. *)

Inductive ScanMode :=
| InCode
| InString (quote : N)
| AfterBackslash (quote : N).

Fixpoint matching_paren (mode : ScanMode) (depth : nat) (rest : list N)
    (pos : Z) : Z :=
  match rest with
  | [] => -1
  | c :: rest' =>
      match mode with
      | InCode =>
          if (c =? LPAREN)%N then matching_paren InCode (S depth) rest' (pos + 1)
          else if (c =? RPAREN)%N then
            match depth with
            | O => pos
            | S depth' => matching_paren InCode depth' rest' (pos + 1)
            end
          else if (c =? DQUOTE)%N || (c =? SQUOTE)%N then
            matching_paren (InString c) depth rest' (pos + 1)
          else matching_paren InCode depth rest' (pos + 1)
      | InString quote =>
          if (c =? quote)%N then matching_paren InCode depth rest' (pos + 1)
          else if (c =? BACKSLASH)%N then
            matching_paren (AfterBackslash quote) depth rest' (pos + 1)
          else matching_paren (InString quote) depth rest' (pos + 1)
      | AfterBackslash quote =>
          matching_paren (InString quote) depth rest' (pos + 1)
      end
  end.

(** ** The children array (specification 4.3)

    The first [[] of the range that a comma of the range precedes. *)

Fixpoint first_array (chars : list N) (pos : Z) (seenComma : bool)
    : option Z :=
  match chars with
  | [] => None
  | c :: chars' =>
      if (c =? COMMA)%N then first_array chars' (pos + 1) true
      else if (c =? LBRACKET)%N && seenComma then Some pos
      else first_array chars' (pos + 1) seenComma
  end.

(** Offset [r] lies in the call a spread marker applies to: the marker is
    the three dots at [d], and the call is the one whose parenthesis is the
    first after them. *)
Definition in_spread_target (text : list N) (d r : Z) : Prop :=
  substring text d (d + 3) = [DOT; DOT; DOT]
  /\ exists close,
       findMatchingParen text (indexOf text LPAREN (d + 3)) = Some close
       /\ d + 3 <= r < close.

(** ** Occurrences (specification 4.4) *)

(** The offsets from [from] on at which the pattern matches, in order. *)
Definition matches_from (text name : list N) (from : Z) : list Z :=
  filter (fun s => is_Some (match_at text name s))
    (seqZ from (len text - from)).

(** The first character of a construct's name occurs nowhere else in the
    name, and is neither white space nor a parenthesis: two matches of one
    pattern cannot overlap. *)
Definition head_distinct (name : list N) : bool :=
  match name with
  | [] => false
  | c :: rest =>
      forallb (fun x => negb (x =? c)%N) rest && negb (is_space c)
      && negb (c =? LPAREN)%N
  end.

(** The token of the occurrence at [s], when [scan_match] keeps it. *)
Definition kept (text : list N) (pat : Pattern) (s : Z) : option RouteToken :=
  match scan_match text pat s with
  | Some (Some t) => Some t
  | _ => None
  end.

Definition tokens_of_pattern (text : list N) (pat : Pattern)
    : list RouteToken :=
  omap (kept text pat) (matches_from text (regex pat) 0).

(** The string argument sought from offset [p] opens with a quote that the
    text never closes: the second [return null] of [extractStringArg]. *)
Definition unterminated_at (text : list N) (p : Z) : Prop :=
  exists q quote i' value,
    skip_separators (budget text p) text p = Some q
    /\ char_at text q = Some quote /\ (quote = DQUOTE \/ quote = SQUOTE)
    /\ read_quoted (budget text (q + 1)) text quote (q + 1) [] = Some (i', value)
    /\ len text <= i'.

(** ** Parents (specification 4.5) *)

(** [p] has a children array, [t] starts after the start of that array and
    ends no later than [p]: the comparison the code makes. *)
Definition contains_span (p t : RouteToken) : Prop :=
  hasChildren p = true /\
  exists c, childrenStartIndex p = Some c /\ c < startIndex t
            /\ endIndex t <= endIndex p.

(** The same with the span of [t] strictly inside, at both ends. *)
Definition strictly_contains_span (p t : RouteToken) : Prop :=
  hasChildren p = true /\
  exists c, childrenStartIndex p = Some c /\ c < startIndex t
            /\ endIndex t < endIndex p.

(** [p] is the parent of token [i]: the nearest token before [i] that
    contains it, or none when no token before [i] does. *)
Definition nearest_parent (inside : RouteToken -> RouteToken -> Prop)
    (tokens : list RouteToken) (i : nat) (p : option nat) : Prop :=
  match p with
  | Some j =>
      (j < i)%nat
      /\ (exists tj ti, tokens !! j = Some tj /\ tokens !! i = Some ti
                        /\ inside tj ti)
      /\ forall k tk ti, (j < k < i)%nat -> tokens !! k = Some tk ->
           tokens !! i = Some ti -> ~ inside tk ti
  | None =>
      forall j tj ti, (j < i)%nat -> tokens !! j = Some tj ->
        tokens !! i = Some ti -> ~ inside tj ti
  end.

(** The state of [buildTree] when the tokens before [i] have been placed. *)
Record tree_inv (tokens : list RouteToken) (i : nat) (nodes : list TreeNode)
    (roots : list nat) : Prop := {
  inv_tokens : token <$> nodes = tokens;
  inv_parent : forall k n, nodes !! k = Some n -> (k < i)%nat ->
    nearest_parent contains_span tokens k (parent n);
  inv_fresh : forall k n, nodes !! k = Some n -> (i <= k)%nat ->
    parent n = None /\ children n = [];
  inv_children : forall k n c, nodes !! k = Some n -> c ∈ children n ->
    (k < c < i)%nat /\ exists nc, nodes !! c = Some nc /\ parent nc = Some k;
  inv_roots : forall r, r ∈ roots <->
    (r < i)%nat /\ exists n, nodes !! r = Some n /\ parent n = None
}.

(** ** Full paths (specification 4.6) *)

(** The nodes from the root down to node [i], [i] included. *)
Inductive root_path (nodes : list TreeNode) : nat -> list TreeNode -> Prop :=
| root_path_root i n :
    nodes !! i = Some n -> parent n = None -> root_path nodes i [n]
| root_path_step i n j chain :
    nodes !! i = Some n -> parent n = Some j -> root_path nodes j chain ->
    root_path nodes i (chain ++ [n]).

#[global] Instance RouteType_eq_dec : EqDecision RouteType.
Proof. solve_decision. Defined.

(** The declared segment of every node of the chain that is no layout. *)
Definition declared_segments (chain : list TreeNode) : list (list N) :=
  (fun n => path (token n))
    <$> filter (fun n => type (token n) <> Layout) chain.

(** Those of them that are not empty. *)
Definition nonempty_segments (chain : list TreeNode) : list (list N) :=
  filter (fun s => s <> []) (declared_segments chain).

(** Join with [/], collapse repeated slashes, strip the leading ones, put
    one in front. *)
Definition resolve (parts : list (list N)) : list N :=
  SLASH :: strip_leading_slashes (collapse_slashes (join parts)).

(** Two slashes in a row somewhere in [s]. *)
Fixpoint double_slash (s : list N) : bool :=
  match s with
  | [] => false
  | c :: s' =>
      match s' with
      | [] => false
      | c' :: _ => (c =? SLASH)%N && (c' =? SLASH)%N || double_slash s'
      end
  end.

(** ** Route records (specification 4.7) *)

(** The record [traverse] pushes for node [n] whose full path is [full]. *)
Definition record_of (text : list N) (n : TreeNode) (full : list N)
    : RouteInfo :=
  let line := getLineFromIndex text (startIndex (token n)) in
  let col := getColumnFromIndex text (startIndex (token n)) in
  {| r_type := type (token n);
     r_path := path (token n);
     fullPath := if truthy full then full else [SLASH];
     line := line;
     range := (line, col, line, col + len (type_name (type (token n)))) |}.

(** [r] is the record of a node that is no prefix. *)
Definition emitted (text : list N) (nodes : list TreeNode) (r : RouteInfo)
    : Prop :=
  exists i n full,
    nodes !! i = Some n /\ type (token n) <> Prefix
    /\ calculateFullPath nodes i = Some full /\ r = record_of text n full.

(** ** Nested prefixes

    The text [prefix('a',[] written [n] times, closed by as many [])]. *)
Definition opener : list N := text_of "prefix('a',[".
Definition closer : list N := text_of "])".

Definition nested_prefixes (n : nat) : list N :=
  mjoin (replicate n opener) ++ mjoin (replicate n closer).

(** The token of the prefix number [k], counted from 0, of
    [nested_prefixes n]. *)
Definition nested_token (n k : nat) : RouteToken :=
  {| type := Prefix;
     path := text_of "a";
     startIndex := 12 * Z.of_nat k;
     endIndex := 14 * Z.of_nat n - 2 * Z.of_nat k - 1;
     hasChildren := true;
     childrenStartIndex := Some (12 * Z.of_nat k + 11) |}.

(** The pattern of [patterns] for [prefix]. *)
Definition prefix_pattern : Pattern :=
  {| regex := text_of "prefix"; ptype := Prefix; hasPath := true |}.

(** * Definitions of the further properties *)

(** ** Links of the tree *)

(** Children and parents name each other, and children and roots are
    listed in the order of the tokens. *)
Record links_inv (nodes : list TreeNode) (roots : list nat) : Prop := {
  inv_listed : forall c nc k, nodes !! c = Some nc -> parent nc = Some k ->
    exists n, nodes !! k = Some n /\ c ∈ children n;
  inv_ordered : forall k n, nodes !! k = Some n ->
    StronglySorted lt (children n);
  inv_roots_ordered : StronglySorted lt roots
}.

(** Node [a] is node [i] or one of its ancestors. *)
Inductive ancestor (nodes : list TreeNode) (a : nat) : nat -> Prop :=
| ancestor_self n : nodes !! a = Some n -> ancestor nodes a a
| ancestor_up i n j :
    nodes !! i = Some n -> parent n = Some j -> ancestor nodes a j ->
    ancestor nodes a i.

(** The record of node [i], when it has one. *)
Definition record_at (text : list N) (nodes : list TreeNode) (i : nat)
    : option RouteInfo :=
  n ← nodes !! i;
  full ← calculateFullPath nodes i;
  if is_prefix (type (token n)) then None else Some (record_of text n full).

(** ** Escaped strings *)

(** A string literal's way of writing [value] between two [quote]s: a
    backslash goes before every [quote] and every backslash. *)
Definition escape (quote : N) (value : list N) : list N :=
  c ← value;
  if (c =? quote)%N || (c =? BACKSLASH)%N then [BACKSLASH; c] else [c].

(** ** Directories above a file *)

(** The directory [k] levels above the directory of [filePath]. *)
Definition directory_above {Uri} (host : Host Uri) (filePath : list N)
    (k : nat) : list N :=
  Nat.iter (S k) (dirname host) filePath.

(** The turns of the loop of [findProjectRoot] that are left at directory
    [d], at most. *)
Definition turns {Uri} (host : Host Uri) (d : list N) : nat :=
  if decide (dirname host d = d) then 0%nat
  else if decide (dirname host (dirname host d) = dirname host d) then 1%nat
  else S (S (length d)).

(** ** An example host

    A workspace [/w] with one project, [/w/app], that holds the file
    [routes/home.tsx]. *)

(** The part of a path before its last slash. *)
Fixpoint before_last_slash (d : list N) : option (list N) :=
  match d with
  | [] => None
  | c :: d' =>
      match before_last_slash d' with
      | Some r => Some (c :: r)
      | None => if (c =? SLASH)%N then Some [] else None
      end
  end.

Definition example_dirname (d : list N) : list N :=
  match before_last_slash d with
  | Some [] => [SLASH]
  | Some r => r
  | None => [DOT]
  end.

Definition example_lower (s : list N) : list N :=
  (fun c => if (65 <=? c)%N && (c <=? 90)%N then (c + 32)%N else c) <$> s.

Definition example_host : Host (list N) :=
  {| dirname := example_dirname;
     path_join := fun d name => d ++ SLASH :: name;
     existsSync := fun p => bool_decide (p = text_of "/w/app/package.json");
     workspaceFolder := Some (text_of "/w");
     findFiles := fun base pattern exclude maxResults =>
       take (Z.to_nat maxResults)
         (if bool_decide (base = text_of "/w/app"
                          /\ pattern = text_of "**/routes/home.tsx")
          then [text_of "/w/app/routes/home.tsx"] else []);
     toLowerCase := example_lower |}.

(** The document [/w/app/Routes.ts]; the cursor is in its only string. *)
Definition example_document : TextDocument (list N) :=
  {| uri_of := text_of "/w/app/Routes.ts";
     fsPath := text_of "/w/app/Routes.ts";
     fileName := text_of "/w/app/Routes.ts";
     getText := text_of "export default [ index('./routes/home.tsx') ]";
     getTextIn := fun _ => text_of "'./routes/home.tsx'";
     getWordRangeAtPosition := fun _ => Some (0, 23, 0, 42) |}.

Definition no_settings : Settings :=
  {| set_fileExtensions := None;
     set_excludeFolders := None;
     set_triggerFilePatterns := None;
     set_maxSearchResults := None;
     set_enableCodeLens := None |}.

(** ** An example route file *)

(** A route file of two lines. *)
Definition two_line_routes : list N :=
  text_of "[" ++ NEWLINE :: text_of "  index('./i.tsx') ]".

(** ** Strings that are not closed *)

(** No [quote] closes the string whose characters after the opening quote
    are [body]: a backslash takes the character after it along, and the
    characters end before a [quote] stands on its own. *)
Fixpoint unclosed (quote : N) (body : list N) : bool :=
  match body with
  | [] => true
  | c :: body' =>
      if (c =? quote)%N then false
      else if (c =? BACKSLASH)%N then
        match body' with
        | [] => true
        | _ :: body'' => unclosed quote body''
        end
      else unclosed quote body'
  end.

(** * Properties *)

(** Reduces a bind of the model's [option] once its argument is known. *)
Ltac step_bind := cbn [mbind option_bind].

(** Runs the model on a closed input and puts the value in the goal. *)
Ltac evaluate t :=
  let r := fresh "result" in
  let H := fresh "Hrun" in
  destruct t as [r|] eqn:H; vm_compute in H;
  [injection H as <-|discriminate H].

(** ** Offsets and characters *)

Lemma char_at_Some text i c :
  char_at text i = Some c -> 0 <= i < len text.
Proof.
  unfold char_at, len. destruct (Z.ltb_spec i 0) as [Hneg|Hpos]; [done|].
  intros H%lookup_lt_Some. lia.
Qed.

Lemma char_at_lt text i :
  0 <= i < len text -> exists c, char_at text i = Some c.
Proof.
  unfold char_at, len. intros [H0 H1].
  destruct (Z.ltb_spec i 0) as [Hneg|Hpos]; [lia|].
  destruct (lookup_lt_is_Some_2 text (Z.to_nat i)) as [c Hc]; [lia|eauto].
Qed.

Lemma char_at_ge text i : len text <= i -> char_at text i = None.
Proof.
  unfold char_at, len. intros H.
  destruct (Z.ltb_spec i 0) as [Hneg|Hpos]; [done|].
  apply lookup_ge_None. lia.
Qed.

Lemma is_char_true text i c :
  is_char text i c = true <-> char_at text i = Some c.
Proof.
  unfold is_char. destruct (char_at text i) as [x|]; [|done].
  rewrite N.eqb_eq. split; congruence.
Qed.

Lemma is_char_false text i c x :
  char_at text i = Some x -> is_char text i c = (x =? c)%N.
Proof. unfold is_char. by intros ->. Qed.

Lemma suffix_cons text i c :
  char_at text i = Some c -> suffix text i = c :: suffix text (i + 1).
Proof.
  intros H. pose proof (char_at_Some _ _ _ H) as Hi.
  unfold char_at in H. destruct (Z.ltb_spec i 0) as [Hneg|Hpos]; [lia|].
  unfold suffix. replace (Z.to_nat (i + 1)) with (S (Z.to_nat i)) by lia.
  by apply drop_S.
Qed.

Lemma suffix_nil text i : len text <= i -> suffix text i = [].
Proof. unfold suffix, len. intros H. apply drop_ge. lia. Qed.

(** ** The parenthesis matcher refines the specification *)

(** The inner loop stops at the closing quote, where the specification
    goes back to [InCode], or runs to the end of the text, where the
    specification gives [-1]. *)
Lemma skip_quoted_spec text q fuel : forall i,
  0 <= i -> (Z.to_nat (len text - i) < fuel)%nat ->
  exists i', skip_quoted fuel text q i = Some i' /\ i <= i' /\
    ((i' < len text /\ is_char text i' q = true /\
      forall d, matching_paren (InString q) d (suffix text i) i
                = matching_paren InCode d (suffix text (i' + 1)) (i' + 1))
     \/ (len text <= i' /\
         forall d, matching_paren (InString q) d (suffix text i) i = -1)).
Proof.
  induction fuel as [|fuel IH]; intros i Hi Hfuel; [lia|].
  cbn [skip_quoted]. destruct (Z.ltb_spec i (len text)) as [Hlt|Hge]; cbn [andb].
  - destruct (char_at_lt text i) as [c Hc]; [lia|].
    rewrite !(is_char_false _ _ _ _ Hc), (suffix_cons _ _ _ Hc).
    cbn [matching_paren].
    destruct (c =? q)%N eqn:Hq; cbn [negb].
    + exists i. split; [done|]. split; [lia|]. left.
      by rewrite (is_char_false _ _ _ _ Hc), Hq.
    + destruct (c =? BACKSLASH)%N eqn:Hb.
      * destruct (IH (i + 1 + 1)) as (i' & Hr & Hle & Hcase); [lia|lia|].
        exists i'. split; [done|]. split; [lia|].
        destruct (Z.ltb_spec (i + 1) (len text)) as [Hlt1|Hge1].
        -- destruct (char_at_lt text (i + 1)) as [c1 Hc1]; [lia|].
           rewrite (suffix_cons _ _ _ Hc1). cbn [matching_paren]. done.
        -- right. split; [lia|]. intros d. by rewrite suffix_nil.
      * destruct (IH (i + 1)) as (i' & Hr & Hle & Hcase); [lia|lia|].
        exists i'. split; [done|]. split; [lia|]. done.
  - exists i. split; [done|]. split; [lia|]. right. split; [done|].
    intros d. by rewrite suffix_nil.
Qed.

(** The outer loop and the specification agree from every offset and
    depth; the budget is enough whenever it exceeds the characters left. *)
Lemma paren_loop_spec text fuel : forall i depth,
  0 <= i -> (Z.to_nat (len text - i) < fuel)%nat -> 0 < depth ->
  exists d' i', paren_loop fuel text depth i = Some (d', i') /\
    (if d' =? 0 then i' - 1 else -1)
    = matching_paren InCode (Z.to_nat (depth - 1)) (suffix text i) i.
Proof.
  induction fuel as [|fuel IH]; intros i depth Hi Hfuel Hd; [lia|].
  cbn [paren_loop]. destruct (Z.ltb_spec i (len text)) as [Hlt|Hge]; cbn [andb].
  - destruct (Z.ltb_spec 0 depth) as [_|?]; [|lia].
    destruct (char_at_lt text i) as [c Hc]; [lia|].
    rewrite !(is_char_false _ _ _ _ Hc), (suffix_cons _ _ _ Hc).
    cbn [matching_paren].
    destruct (c =? LPAREN)%N eqn:Hl.
    { destruct (IH (i + 1) (depth + 1)) as (d' & i' & Hr & Hs); [lia..|].
      exists d', i'. split; [done|]. rewrite Hs. f_equal. lia. }
    destruct (c =? RPAREN)%N eqn:Hrp.
    { destruct (decide (depth = 1)) as [->|Hne].
      - exists 0, (i + 1). split.
        + destruct fuel; [lia|]. cbn [paren_loop]. by rewrite andb_false_r.
        + change (Z.to_nat (1 - 1)) with 0%nat. change (0 =? 0) with true.
          cbv iota. lia.
      - destruct (IH (i + 1) (depth - 1)) as (d' & i' & Hr & Hs); [lia..|].
        exists d', i'. split; [done|]. rewrite Hs.
        replace (Z.to_nat (depth - 1)) with (S (Z.to_nat (depth - 1 - 1))) by lia.
        done. }
    destruct (c =? DQUOTE)%N eqn:Hdq; destruct (c =? SQUOTE)%N eqn:Hsq; cbn [orb].
    4:{ destruct (IH (i + 1) depth) as (d' & i' & Hr & Hs); [lia..|].
        exists d', i'. done. }
    all: match goal with
         | |- context [skip_quoted ?f _ ?q _] =>
             destruct (skip_quoted_spec text q f (i + 1))
               as (j & Hj & Hle & Hcase); [lia|unfold budget; lia|];
             assert (c = q) as -> by (apply N.eqb_eq; done)
         end; rewrite Hj; step_bind;
      (destruct (IH (j + 1) depth) as (d' & i' & Hr & Hs); [lia..|]);
      exists d', i'; (split; [done|]); rewrite Hs;
      (destruct Hcase as [(H1 & H2 & H3)|(H1 & H2)];
       [by rewrite H3|rewrite H2, suffix_nil by lia; done]).
  - exists depth, i. split; [done|].
    destruct (Z.eqb_spec depth 0); [lia|]. by rewrite suffix_nil.
Qed.

Lemma findMatchingParen_spec text openIndex :
  -1 <= openIndex ->
  findMatchingParen text openIndex
  = Some (matching_paren InCode 0 (suffix text (openIndex + 1)) (openIndex + 1)).
Proof.
  intros H. unfold findMatchingParen.
  destruct (paren_loop_spec text (budget text (openIndex + 1)) (openIndex + 1) 1)
    as (d' & i' & Hr & Hs); [lia|unfold budget; lia|lia|].
  rewrite Hr. step_bind. by rewrite Hs.
Qed.

(** ** The children-array locator *)

Lemma chars_between_cons text a b c :
  a < b -> char_at text a = Some c ->
  chars_between text a b = c :: chars_between text (a + 1) b.
Proof.
  intros Hab Hc. unfold chars_between. rewrite (suffix_cons _ _ _ Hc).
  replace (Z.to_nat (b - a)) with (S (Z.to_nat (b - (a + 1)))) by lia. done.
Qed.

Lemma chars_between_nil text a b :
  b <= a \/ len text <= a -> chars_between text a b = [].
Proof.
  intros [H|H]; unfold chars_between.
  - assert (Z.to_nat (b - a) = 0%nat) as -> by lia. done.
  - by rewrite suffix_nil, take_nil.
Qed.

Lemma chars_between_lookup text a b k x :
  0 <= a -> chars_between text a b !! k = Some x ->
  char_at text (a + Z.of_nat k) = Some x /\ a + Z.of_nat k < b.
Proof.
  intros Ha. unfold chars_between, suffix.
  intros [H1 H2]%lookup_take_Some. rewrite lookup_drop in H1.
  split; [|lia]. unfold char_at.
  destruct (Z.ltb_spec (a + Z.of_nat k) 0) as [Hneg|Hpos]; [lia|].
  rewrite <- H1. f_equal. lia.
Qed.

Lemma lookup_chars_between text a b k x :
  0 <= a -> char_at text (a + Z.of_nat k) = Some x -> a + Z.of_nat k < b ->
  chars_between text a b !! k = Some x.
Proof.
  intros Ha Hx Hb. unfold chars_between, suffix.
  apply lookup_take_Some. split; [|lia]. rewrite lookup_drop.
  unfold char_at in Hx.
  destruct (Z.ltb_spec (a + Z.of_nat k) 0) as [Hneg|Hpos]; [lia|].
  rewrite <- Hx. f_equal. lia.
Qed.

Lemma substring_three text i a b c :
  0 <= i -> substring text i (i + 3) = [a; b; c] ->
  char_at text i = Some a /\ char_at text (i + 1) = Some b
  /\ char_at text (i + 2) = Some c.
Proof.
  intros Hi Hs. unfold substring in Hs.
  assert (forall k x, [a; b; c] !! k = Some x ->
                      char_at text (i + Z.of_nat k) = Some x) as Hk.
  { intros k x Hx. rewrite <- Hs in Hx.
    apply lookup_take_Some in Hx as [Hx _]. rewrite lookup_drop in Hx.
    pose proof (lookup_lt_Some _ _ _ Hx) as Hlt. unfold len in *.
    unfold char_at. destruct (Z.ltb_spec (i + Z.of_nat k) 0) as [Hneg|Hpos]; [lia|].
    rewrite <- Hx. f_equal. lia. }
  split; [|split].
  - specialize (Hk 0%nat a eq_refl). by rewrite Z.add_0_r in Hk.
  - apply (Hk 1%nat b eq_refl).
  - apply (Hk 2%nat c eq_refl).
Qed.

Lemma first_array_dot text close j fc :
  char_at text j = Some DOT ->
  first_array (chars_between text j close) j fc
  = first_array (chars_between text (j + 1) close) (j + 1) fc.
Proof.
  intros Hj. destruct (Z.lt_ge_cases j close) as [Hlt|Hge].
  - by rewrite (chars_between_cons _ _ _ _ Hlt Hj).
  - rewrite !chars_between_nil by lia. done.
Qed.

(** The locator walks the range as [first_array] does: the jump over three
    dots passes no comma and no bracket. *)
Lemma children_loop_spec text close fuel : forall i fc,
  0 <= i -> (Z.to_nat (close - i) < fuel)%nat ->
  children_loop fuel text close i fc
  = Some (first_array (chars_between text i close) i fc).
Proof.
  induction fuel as [|fuel IH]; intros i fc Hi Hfuel; [lia|].
  cbn [children_loop]. destruct (Z.ltb_spec i close) as [Hlt|Hge].
  2:{ by rewrite chars_between_nil by lia. }
  destruct (Z.lt_ge_cases i (len text)) as [Hin|Hout].
  - destruct (char_at_lt text i) as [c Hc]; [lia|].
    rewrite !(is_char_false _ _ _ _ Hc), (chars_between_cons _ _ _ _ Hlt Hc), Hc.
    cbn [first_array test_space].
    destruct (c =? COMMA)%N eqn:Hcomma; [apply IH; lia|].
    destruct ((c =? LBRACKET)%N && fc) eqn:Hbr; [done|].
    destruct (negb (is_space c) && negb false) eqn:Hsp; [|apply IH; lia].
    case_bool_decide as Hdots; [|apply IH; lia].
    apply substring_three in Hdots as (H0 & H1 & H2); [|done].
    rewrite IH by lia.
    rewrite (first_array_dot _ _ (i + 1)) by done.
    rewrite (first_array_dot _ _ (i + 1 + 1)).
    + by replace (i + 1 + 1 + 1) with (i + 3) by lia.
    + by replace (i + 1 + 1) with (i + 2) by lia.
  - rewrite (char_at_ge text i) by lia.
    unfold is_char. rewrite (char_at_ge text i) by lia.
    cbn [andb negb test_space].
    case_bool_decide as Hdots.
    { apply substring_three in Hdots as (H0 & _); [|done].
      by rewrite char_at_ge in H0 by lia. }
    rewrite IH by lia. by rewrite !chars_between_nil by lia.
Qed.

Lemma findChildrenArray_spec text afterFileArg closeParenIndex :
  0 <= afterFileArg ->
  findChildrenArray text afterFileArg closeParenIndex
  = Some (first_array (chars_between text afterFileArg closeParenIndex)
            afterFileArg false).
Proof. intros H. unfold findChildrenArray. apply children_loop_spec; lia. Qed.

Lemma first_array_Some chars : forall pos fc r,
  first_array chars pos fc = Some r ->
  exists k, r = pos + Z.of_nat k /\ chars !! k = Some LBRACKET.
Proof.
  induction chars as [|c chars IH]; intros pos fc r; cbn [first_array]; [done|].
  destruct (c =? COMMA)%N eqn:Hcomma.
  { intros (k & -> & Hk)%IH. exists (S k). split; [lia|done]. }
  destruct ((c =? LBRACKET)%N && fc) eqn:Hbr.
  { intros [= <-]. exists 0%nat. split; [lia|].
    apply andb_true_iff in Hbr as [->%N.eqb_eq _]. done. }
  intros (k & -> & Hk)%IH. exists (S k). split; [lia|done].
Qed.

(** A bracket that a comma precedes stops the search at the latest. *)
Lemma first_array_earliest chars : forall pos fc ka,
  chars !! ka = Some LBRACKET ->
  (fc = true \/ exists kc, (kc < ka)%nat /\ chars !! kc = Some COMMA) ->
  exists r, first_array chars pos fc = Some r /\ r <= pos + Z.of_nat ka.
Proof.
  induction chars as [|c chars IH]; intros pos fc ka Ha Hc; [done|].
  cbn [first_array].
  destruct (c =? COMMA)%N eqn:Hcomma.
  { destruct ka as [|ka].
    - injection Ha as ->. done.
    - destruct (IH (pos + 1) true ka) as (r & Hr & Hle); [done|by left|].
      exists r. split; [done|lia]. }
  destruct ((c =? LBRACKET)%N && fc) eqn:Hbr.
  { exists pos. split; [done|lia]. }
  destruct ka as [|ka].
  { injection Ha as ->. destruct Hc as [->|(kc & Hkc & _)]; [done|lia]. }
  destruct (IH (pos + 1) fc ka) as (r & Hr & Hle); [done| |].
  - destruct Hc as [->|(kc & Hkc & Hcm)]; [by left|]. right.
    destruct kc as [|kc].
    + injection Hcm as ->. done.
    + exists kc. split; [lia|done].
  - exists r. split; [done|lia].
Qed.

(** ** The string-argument extractor always returns *)

Lemma skip_separators_total text fuel : forall i,
  (Z.to_nat (len text - i) < fuel)%nat ->
  exists r, skip_separators fuel text i = Some r /\ i <= r.
Proof.
  induction fuel as [|fuel IH]; intros i Hfuel; [lia|].
  cbn [skip_separators].
  destruct ((i <? len text) && test_separator (char_at text i)) eqn:Hc.
  - apply andb_true_iff in Hc as [Hlt%Z.ltb_lt _].
    destruct (IH (i + 1)) as (r & Hr & Hle); [lia|].
    exists r. split; [done|lia].
  - exists i. split; [done|lia].
Qed.

Lemma read_quoted_total text quote fuel : forall i value,
  (Z.to_nat (len text - i) < fuel)%nat ->
  exists r v, read_quoted fuel text quote i value = Some (r, v) /\ i <= r.
Proof.
  induction fuel as [|fuel IH]; intros i value Hfuel; [lia|].
  cbn [read_quoted].
  destruct ((i <? len text) && negb (is_char text i quote)) eqn:Hc.
  - apply andb_true_iff in Hc as [Hlt%Z.ltb_lt _].
    destruct (is_char text i BACKSLASH && (i + 1 <? len text)).
    + destruct (IH (i + 2) (value ++ js_string_of (char_at text (i + 1))))
        as (r & v & Hr & Hle); [lia|].
      exists r, v. split; [done|lia].
    + destruct (IH (i + 1) (value ++ js_string_of (char_at text i)))
        as (r & v & Hr & Hle); [lia|].
      exists r, v. split; [done|lia].
  - exists i, value. split; [done|lia].
Qed.

(** [extractStringArg] always returns; an argument it finds ends after
    where the search started, and inside the text. *)
Lemma extractStringArg_total text startFrom :
  exists r, extractStringArg text startFrom = Some r /\
    forall value endIndex, r = Some (value, endIndex) ->
      startFrom + 2 <= endIndex <= len text.
Proof.
  unfold extractStringArg.
  destruct (skip_separators_total text (budget text startFrom) startFrom)
    as (i & Hi & Hle); [unfold budget; lia|].
  rewrite Hi. step_bind.
  destruct (Z.leb_spec (len text) i) as [Hout|Hin]; [by eexists|].
  destruct (char_at text i) as [quote|]; [|by eexists].
  destruct (negb (quote =? DQUOTE)%N && negb (quote =? SQUOTE)%N); [by eexists|].
  destruct (read_quoted_total text quote (budget text (i + 1)) (i + 1) [])
    as (r & v & Hr & Hle'); [unfold budget; lia|].
  rewrite Hr. step_bind.
  destruct (Z.leb_spec (len text) r) as [Hout'|Hin']; [by eexists|].
  eexists. split; [done|]. intros value endIndex [= <- <-]. lia.
Qed.

(** ** The regular expressions *)

Lemma literal_at_lookup text name : forall s k c,
  literal_at text name s = true -> name !! k = Some c ->
  char_at text (s + Z.of_nat k) = Some c.
Proof.
  induction name as [|x name IH]; intros s k c; [done|].
  cbn [literal_at]. intros [Hx Hrest]%andb_true_iff Hk.
  destruct k as [|k].
  - injection Hk as <-. rewrite Z.add_0_r. by apply is_char_true.
  - replace (s + Z.of_nat (S k)) with (s + 1 + Z.of_nat k) by lia.
    by apply IH.
Qed.

Lemma skip_spaces_spec text n : forall i,
  i <= skip_spaces n text i /\
  forall k, i <= k < skip_spaces n text i -> test_space (char_at text k) = true.
Proof.
  induction n as [|n IH]; intros i; cbn [skip_spaces]; [split; [lia|intros; lia]|].
  destruct (test_space (char_at text i)) eqn:Hsp; [|split; [lia|intros; lia]].
  destruct (IH (i + 1)) as [Hle Hall]. split; [lia|].
  intros k Hk. destruct (decide (k = i)) as [->|Hne]; [done|].
  apply Hall. lia.
Qed.

Lemma match_at_Some text name s e :
  match_at text name s = Some e ->
  literal_at text name s = true /\ s + len name <= e - 1
  /\ is_char text (e - 1) LPAREN = true
  /\ forall k, s + len name <= k < e - 1 -> test_space (char_at text k) = true.
Proof.
  unfold match_at.
  destruct (word_boundary text s && literal_at text name s) eqn:Hb; [|done].
  apply andb_true_iff in Hb as [_ Hlit].
  set (p := skip_spaces _ _ _).
  destruct (is_char text p LPAREN) eqn:Hp; [|done]. intros [= <-].
  replace (p + 1 - 1) with p by lia.
  destruct (skip_spaces_spec text (Z.to_nat (len text - (s + len name)))
              (s + len name)) as [Hle Hall].
  done.
Qed.

Lemma match_at_bounds text name s e :
  match_at text name s = Some e -> s < e <= len text.
Proof.
  intros (_ & Hle & Hp & _)%match_at_Some.
  apply is_char_true, char_at_Some in Hp. unfold len in *. lia.
Qed.

Lemma match_at_head text name s c rest :
  name = c :: rest -> is_Some (match_at text name s) ->
  char_at text s = Some c.
Proof.
  intros -> [e (Hlit & _)%match_at_Some].
  cbn [literal_at] in Hlit. apply andb_true_iff in Hlit as [Hc _].
  by apply is_char_true.
Qed.

(** No second match of a pattern starts inside a match of it. *)
Lemma no_overlap text name s e k :
  head_distinct name = true -> match_at text name s = Some e ->
  s < k < e -> match_at text name k = None.
Proof.
  intros Hd Hm Hk. destruct (match_at text name k) as [e'|] eqn:Hmk; [|done].
  exfalso. destruct name as [|c rest]; [done|].
  pose proof (match_at_head text _ k c rest eq_refl (mk_is_Some _ _ Hmk)) as Hck.
  apply match_at_Some in Hm as (Hlit & Hle & Hp & Hsp).
  cbn [head_distinct] in Hd.
  apply andb_true_iff in Hd as [[Hall Hnsp]%andb_true_iff Hnlp].
  destruct (Z.lt_ge_cases k (s + len (c :: rest))) as [Hin|Hout].
  - destruct (lookup_lt_is_Some_2 (c :: rest) (Z.to_nat (k - s))) as [x Hx];
      [unfold len in Hin; lia|].
    pose proof (literal_at_lookup _ _ _ _ _ Hlit Hx) as Hcx.
    replace (s + Z.of_nat (Z.to_nat (k - s))) with k in Hcx by lia.
    assert (x = c) as -> by congruence.
    destruct (Z.to_nat (k - s)) as [|m] eqn:Hm; [lia|].
    cbn in Hx. rewrite forallb_forall in Hall.
    assert (In c rest) as Hin' by (apply list_elem_of_In, list_elem_of_lookup; eauto).
    apply Hall in Hin'. by rewrite N.eqb_refl in Hin'.
  - destruct (decide (k = e - 1)) as [->|Hne].
    + apply is_char_true in Hp. assert (c = LPAREN) as -> by congruence. done.
    + specialize (Hsp k ltac:(lia)). rewrite Hck in Hsp. cbn in Hsp.
      by rewrite Hsp in Hnsp.
Qed.

Lemma search_spec text name n : forall s,
  match search n text name s with
  | Some (s', e) =>
      s <= s' < s + Z.of_nat n /\ match_at text name s' = Some e
      /\ forall k, s <= k < s' -> match_at text name k = None
  | None => forall k, s <= k < s + Z.of_nat n -> match_at text name k = None
  end.
Proof.
  induction n as [|n IH]; intros s; cbn [search]; [intros; lia|].
  destruct (match_at text name s) as [e|] eqn:Hm.
  - split; [lia|]. split; [done|]. intros; lia.
  - specialize (IH (s + 1)). destruct (search n text name (s + 1)) as [[s' e]|].
    + destruct IH as (Hle & Hm' & Hall). split; [lia|]. split; [done|].
      intros k Hk. destruct (decide (k = s)) as [->|Hne]; [done|]. apply Hall. lia.
    + intros k Hk. destruct (decide (k = s)) as [->|Hne]; [done|]. apply IH. lia.
Qed.

Lemma filter_none {A} (P : A -> Prop) `{!forall x, Decision (P x)} (l : list A) :
  (forall x, x ∈ l -> ~ P x) -> filter P l = [].
Proof.
  induction l as [|x l IH]; intros Hall; [done|].
  rewrite filter_cons_False by (apply Hall; left).
  apply IH. intros y Hy. apply Hall. by right.
Qed.

Lemma matches_from_skip text name a b :
  a <= b -> (forall k, a <= k < b -> match_at text name k = None) ->
  matches_from text name a = matches_from text name b.
Proof.
  intros Hab Hnone. unfold matches_from.
  destruct (Z.le_gt_cases b (len text)) as [Hb|Hb].
  - replace (len text - a) with ((b - a) + (len text - b)) by lia.
    rewrite seqZ_app, filter_app by lia.
    replace (a + (b - a)) with b by lia.
    rewrite filter_none; [done|].
    intros k [Hk1 Hk2]%elem_of_seqZ [e He].
    rewrite Hnone in He by lia. done.
  - rewrite (seqZ_nil b) by lia. rewrite filter_nil.
    apply filter_none. intros k [Hk1 Hk2]%elem_of_seqZ [e He].
    rewrite Hnone in He by lia. done.
Qed.

Lemma matches_from_cons text name s e :
  0 <= s -> match_at text name s = Some e ->
  matches_from text name s = s :: matches_from text name (s + 1).
Proof.
  intros Hs Hm. pose proof (match_at_bounds _ _ _ _ Hm) as Hb.
  unfold matches_from. rewrite seqZ_cons by lia.
  rewrite filter_cons_True by (by rewrite Hm).
  do 3 f_equal; lia.
Qed.

(** ** The token scanner *)

Lemma index_from_spec text c n : forall i,
  let r := index_from n text c i in
  (r = -1 /\ forall k, i <= k < i + Z.of_nat n -> is_char text k c = false)
  \/ (i <= r < i + Z.of_nat n /\ is_char text r c = true).
Proof.
  induction n as [|n IH]; intros i; cbn [index_from]; [left; split; [done|intros; lia]|].
  destruct (is_char text i c) eqn:Hc; [right; split; [lia|done]|].
  destruct (IH (i + 1)) as [[Hr Hall]|[Hr Hc']].
  - left. split; [done|]. intros k Hk.
    destruct (decide (k = i)) as [->|Hne]; [done|]. apply Hall. lia.
  - right. split; [lia|done].
Qed.

Lemma indexOf_ge text c from : -1 <= indexOf text c from.
Proof.
  unfold indexOf.
  destruct (index_from_spec text c
              (Z.to_nat (len text - Z.min (Z.max from 0) (len text)))
              (Z.min (Z.max from 0) (len text))) as [[-> _]|[Hr _]]; lia.
Qed.

Lemma index_from_found text c n : forall i p,
  i <= p < i + Z.of_nat n -> is_char text p c = true ->
  i <= index_from n text c i <= p.
Proof.
  induction n as [|n IH]; intros i p Hp Hc; cbn [index_from]; [lia|].
  destruct (is_char text i c) eqn:Hi; [lia|].
  destruct (decide (p = i)) as [->|Hne]; [congruence|].
  destruct (IH (i + 1) p); [lia|done|lia].
Qed.

Lemma indexOf_found text c from p :
  0 <= from <= p -> is_char text p c = true ->
  from <= indexOf text c from <= p.
Proof.
  intros Hp Hc.
  pose proof (char_at_Some text p c (proj1 (is_char_true _ _ _) Hc)) as Hb.
  unfold indexOf.
  replace (Z.min (Z.max from 0) (len text)) with from by lia.
  apply index_from_found; [lia|done].
Qed.

Lemma findChildrenArray_bounds text afterFileArg closeParenIndex c :
  0 <= afterFileArg ->
  findChildrenArray text afterFileArg closeParenIndex = Some (Some c) ->
  afterFileArg <= c < closeParenIndex /\ is_char text c LBRACKET = true.
Proof.
  intros Ha. rewrite findChildrenArray_spec by done.
  intros [= (k & -> & Hk)%first_array_Some].
  apply chars_between_lookup in Hk as [Hc Hlt]; [|done].
  split; [lia|]. by apply is_char_true.
Qed.

Lemma findMatchingParen_total text openIndex :
  -1 <= openIndex -> exists r, findMatchingParen text openIndex = Some r.
Proof.
  intros H. unfold findMatchingParen.
  destruct (paren_loop_spec text (budget text (openIndex + 1)) (openIndex + 1) 1)
    as (d' & i' & Hr & Hs); [lia|unfold budget; lia|lia|].
  rewrite Hr. step_bind. by eexists.
Qed.

(** What [scan_match] does with one occurrence. *)
Lemma scan_match_total text pat s :
  exists r, scan_match text pat s = Some r /\
    forall t, r = Some t ->
      type t = ptype pat /\ startIndex t = s
      /\ findMatchingParen text (indexOf text LPAREN s) = Some (endIndex t)
      /\ endIndex t <> -1
      /\ hasChildren t = bool_decide (is_Some (childrenStartIndex t))
      /\ forall c, childrenStartIndex t = Some c ->
           indexOf text LPAREN s < c < endIndex t.
Proof.
  unfold scan_match. pose proof (indexOf_ge text LPAREN s) as Hopen.
  set (openParenIndex := indexOf text LPAREN s) in *.
  destruct (findMatchingParen_total text openParenIndex) as [close Hclose]; [done|].
  rewrite Hclose. step_bind.
  destruct (Z.eqb_spec close (-1)) as [->|Hne]; [by eexists|].
  assert (exists pathArg,
    (if hasPath pat then extractStringArg text (openParenIndex + 1)
     else Some (Some ([], openParenIndex + 1))) = Some pathArg /\
    forall p e, pathArg = Some (p, e) -> openParenIndex + 1 <= e)
    as (pathArg & -> & Hpath).
  { destruct (hasPath pat).
    - destruct (extractStringArg_total text (openParenIndex + 1)) as (r & -> & Hr).
      exists r. split; [done|]. intros p e ->. specialize (Hr p e eq_refl). lia.
    - eexists. split; [done|]. intros p e [= <- <-]. lia. }
  step_bind. destruct pathArg as [[path afterPathIndex]|]; [|by eexists].
  specialize (Hpath _ _ eq_refl).
  assert (exists afterFileIndex,
    match ptype pat with
    | Prefix => Some afterPathIndex
    | _ =>
        fileArg ← extractStringArg text afterPathIndex;
        Some (match fileArg with
              | Some (_, endIndex) => endIndex
              | None => afterPathIndex
              end)
    end = Some afterFileIndex /\ afterPathIndex <= afterFileIndex)
    as (afterFileIndex & -> & Hfile).
  { destruct (extractStringArg_total text afterPathIndex) as (r & Hr & Hb).
    destruct (ptype pat); try (eexists; split; [done|lia]);
      rewrite Hr; step_bind; (eexists; split; [done|]);
      (destruct r as [[v e]|]; [specialize (Hb v e eq_refl)|]; lia). }
  step_bind.
  assert (exists childrenStart,
    match ptype pat with
    | Route | Layout => findChildrenArray text afterFileIndex close
    | Index => Some None
    | Prefix => findChildrenArray text afterPathIndex close
    end = Some childrenStart /\
    forall c, childrenStart = Some c -> openParenIndex < c < close)
    as (childrenStart & -> & Hch).
  { destruct (ptype pat);
      try (eexists; split; [done|]; intros c; discriminate);
      match goal with
      | |- context [findChildrenArray text ?a close] =>
          rewrite (findChildrenArray_spec text a close) by lia;
          eexists; (split; [done|]); intros c Hc;
          destruct (findChildrenArray_bounds text a close c) as [Hb _];
            [lia|by rewrite findChildrenArray_spec, Hc by lia|lia]
      end. }
  step_bind. eexists. split; [done|]. intros t [= <-]. cbn.
  repeat split; try done; by apply Hch.
Qed.

Lemma scan_match_unmatched text pat s :
  findMatchingParen text (indexOf text LPAREN s) = Some (-1) ->
  scan_match text pat s = Some None.
Proof. unfold scan_match. by intros ->. Qed.

Lemma scan_match_no_path text pat s :
  hasPath pat = true ->
  extractStringArg text (indexOf text LPAREN s + 1) = Some None ->
  scan_match text pat s = Some None.
Proof.
  intros Hp He. unfold scan_match.
  destruct (findMatchingParen_total text (indexOf text LPAREN s)) as [close ->];
    [apply indexOf_ge|].
  step_bind. destruct (close =? -1); [done|]. by rewrite Hp, He.
Qed.

Lemma exec_spec text name lastIndex :
  match exec text name lastIndex with
  | (Some s, e) =>
      lastIndex <= s /\ match_at text name s = Some e
      /\ forall k, lastIndex <= k < s -> match_at text name k = None
  | (None, e) =>
      e = 0 /\ forall k, lastIndex <= k < len text -> match_at text name k = None
  end.
Proof.
  unfold exec. destruct (Z.ltb_spec (len text) lastIndex) as [Hout|Hin].
  { split; [done|]. intros; lia. }
  pose proof (search_spec text name (S (Z.to_nat (len text - lastIndex))) lastIndex) as H.
  destruct (search _ text name lastIndex) as [[s e]|].
  - destruct H as (Hs & Hm & Hall). split; [lia|done].
  - split; [done|]. intros k Hk. apply H. lia.
Qed.

(** The [while] loop visits every match from [lastIndex] on, keeps the
    tokens [scan_match] gives, and leaves [lastIndex] at 0. *)
Lemma scan_loop_spec text pat fuel : forall lastIndex tokens,
  head_distinct (regex pat) = true ->
  0 <= lastIndex -> (Z.to_nat (len text - lastIndex) < fuel)%nat ->
  scan_loop fuel text pat lastIndex tokens
  = Some (tokens ++ omap (kept text pat) (matches_from text (regex pat) lastIndex), 0).
Proof.
  induction fuel as [|fuel IH]; intros lastIndex tokens Hd Hli Hfuel; [lia|].
  cbn [scan_loop]. pose proof (exec_spec text (regex pat) lastIndex) as He.
  destruct (exec text (regex pat) lastIndex) as [[s|] e].
  - destruct He as (Hs & Hm & Hnone).
    pose proof (match_at_bounds _ _ _ _ Hm) as Hb.
    rewrite (matches_from_skip text _ lastIndex s) by (done || lia).
    rewrite (matches_from_cons text _ s e) by (done || lia).
    rewrite (matches_from_skip text _ (s + 1) e);
      [|lia|intros k Hk; apply (no_overlap text _ s e); [done|done|lia]].
    destruct (scan_match_total text pat s) as (r & Hr & _).
    rewrite Hr. step_bind. rewrite IH by (done || lia).
    assert (kept text pat s = r) as Hk by (unfold kept; rewrite Hr; by destruct r).
    cbn [omap list_omap]. rewrite Hk.
    destruct r as [t|]; [|done]. by rewrite <- app_assoc.
  - destruct He as [-> Hnone].
    rewrite (matches_from_skip text _ lastIndex (Z.max lastIndex (len text)))
      by (lia || (intros; apply Hnone; lia)).
    unfold matches_from. rewrite seqZ_nil by lia. by rewrite app_nil_r.
Qed.

Lemma patterns_head_distinct :
  Forall (fun pat => head_distinct (regex pat) = true) patterns.
Proof. repeat constructor. Qed.

Lemma scan_patterns_spec text pats : forall tokens,
  Forall (fun pat => head_distinct (regex pat) = true) pats ->
  scan_patterns pats text tokens
  = Some (tokens ++ mjoin (tokens_of_pattern text <$> pats)).
Proof.
  induction pats as [|pat pats IH]; intros tokens Hd; cbn [scan_patterns].
  { by rewrite app_nil_r. }
  apply Forall_cons in Hd as [Hpat Hpats].
  rewrite scan_loop_spec by (done || unfold budget; lia).
  step_bind. rewrite IH by done. cbn [fmap list_fmap mjoin list_join].
  by rewrite <- app_assoc.
Qed.

Lemma insert_token_perm t l : insert_token t l ≡ₚ t :: l.
Proof.
  induction l as [|x l IH]; cbn [insert_token]; [done|].
  destruct (0 <? startIndex t - startIndex x); [|done].
  rewrite IH. apply Permutation_swap.
Qed.

Lemma sort_tokens_perm l : sort_tokens l ≡ₚ l.
Proof.
  induction l as [|t l IH]; [done|]. unfold sort_tokens in *. cbn [foldr].
  by rewrite insert_token_perm, IH.
Qed.

Lemma parseRouteTokens_spec text :
  parseRouteTokens text
  = Some (sort_tokens (mjoin (tokens_of_pattern text <$> patterns))).
Proof.
  unfold parseRouteTokens.
  rewrite scan_patterns_spec by apply patterns_head_distinct. done.
Qed.

(** A token of the stream is the token of one occurrence, and every
    occurrence that [scan_match] keeps has its token in the stream. *)
Lemma parseRouteTokens_elem text tokens t :
  parseRouteTokens text = Some tokens ->
  t ∈ tokens <->
  exists pat s, pat ∈ patterns /\ 0 <= s /\ is_Some (match_at text (regex pat) s)
                /\ scan_match text pat s = Some (Some t).
Proof.
  rewrite parseRouteTokens_spec. intros Heq.
  assert (tokens = sort_tokens (mjoin (tokens_of_pattern text <$> patterns)))
    as -> by congruence. clear Heq.
  rewrite sort_tokens_perm, list_elem_of_join. split.
  - intros (l & Ht & (pat & -> & Hpat)%list_elem_of_fmap).
    apply list_elem_of_omap in Ht as (s & Hs & Hk).
    apply list_elem_of_filter in Hs as [Hm [Hs _]%elem_of_seqZ].
    exists pat, s. repeat split; try done.
    unfold kept in Hk. destruct (scan_match text pat s) as [[t'|]|]; congruence.
  - intros (pat & s & Hpat & Hs & Hm & Hscan).
    exists (tokens_of_pattern text pat). split; [|apply list_elem_of_fmap; eauto].
    apply list_elem_of_omap. exists s. split; [|unfold kept; by rewrite Hscan].
    apply list_elem_of_filter. split; [done|]. apply elem_of_seqZ.
    destruct Hm as [e He%match_at_bounds]. lia.
Qed.

(** ** The tree builder *)

Lemma encloses_iff p t : encloses p t = true <-> contains_span p t.
Proof.
  unfold encloses, contains_span. split.
  - intros [Hh Hc]%andb_true_iff. split; [done|].
    destruct (childrenStartIndex p) as [c|]; [|done].
    apply andb_true_iff in Hc as [H1%Z.ltb_lt H2%Z.leb_le]. eauto.
  - intros [-> (c & -> & H1 & H2)]. cbn.
    apply andb_true_iff. split; [by apply Z.ltb_lt|by apply Z.leb_le].
Qed.

Lemma encloses_false p t : encloses p t = false <-> ~ contains_span p t.
Proof. rewrite <- encloses_iff. by destruct (encloses p t). Qed.

Section tree_loops.
Context (tokens : list RouteToken) (nodes : list TreeNode).
Hypothesis Htokens : token <$> nodes = tokens.

Lemma node_token k n : nodes !! k = Some n -> tokens !! k = Some (token n).
Proof. intros H. by rewrite <- Htokens, list_lookup_fmap, H. Qed.

Lemma token_node k t :
  tokens !! k = Some t -> exists n, nodes !! k = Some n /\ token n = t.
Proof.
  rewrite <- Htokens, list_lookup_fmap. intros H.
  destruct (nodes !! k) as [n|]; [|done]. injection H as <-. eauto.
Qed.

Lemma closest_loop_true node count : forall k,
  (k + count <= length nodes)%nat ->
  (forall m tm, (k <= m < k + count)%nat -> tokens !! m = Some tm ->
                encloses tm (token node) = false) ->
  closest_loop count nodes node k = Some true.
Proof.
  induction count as [|count IH]; intros k Hlen Hall; [done|].
  cbn [closest_loop].
  destruct (lookup_lt_is_Some_2 nodes k) as [middle Hm]; [lia|].
  rewrite Hm. step_bind.
  rewrite (Hall k (token middle)) by (lia || by apply node_token).
  apply IH; [lia|]. intros m tm Hr. apply (Hall m). lia.
Qed.

(** The [j] loop returns the nearest token before [i] that encloses [node]:
    when it reaches an enclosing [j], nothing in between encloses, so the
    [k] loop answers [true]. *)
Lemma parent_loop_spec node i n :
  (n <= i <= length nodes)%nat ->
  (forall m tm, (n <= m < i)%nat -> tokens !! m = Some tm ->
                encloses tm (token node) = false) ->
  exists r, parent_loop n nodes i node = Some r /\
    match r with
    | Some j =>
        (j < n)%nat
        /\ (exists tj, tokens !! j = Some tj
                       /\ encloses tj (token node) = true)
        /\ forall m tm, (j < m < i)%nat -> tokens !! m = Some tm ->
             encloses tm (token node) = false
    | None =>
        forall m tm, (m < i)%nat -> tokens !! m = Some tm ->
          encloses tm (token node) = false
    end.
Proof.
  induction n as [|j IH]; intros Hn Hall; cbn [parent_loop].
  { exists None. split; [done|]. intros m tm Hm. apply (Hall m). lia. }
  destruct (lookup_lt_is_Some_2 nodes j) as [pp Hpp]; [lia|].
  rewrite Hpp. step_bind.
  destruct (encloses (token pp) (token node)) eqn:Henc.
  - rewrite closest_loop_true; [|lia|intros m tm Hm; apply (Hall m); lia].
    step_bind. exists (Some j). split; [done|]. split; [lia|]. split.
    + exists (token pp). split; [by apply node_token|done].
    + intros m tm Hm. apply (Hall m). lia.
  - destruct IH as (r & Hr & Hspec); [lia| |].
    { intros m tm Hm Htm. destruct (decide (m = j)) as [->|Hne].
      - apply node_token in Hpp. congruence.
      - apply (Hall m); [lia|done]. }
    exists r. split; [done|]. destruct r as [j0|]; [|done].
    destruct Hspec as (H1 & H2 & H3). split; [lia|done].
Qed.
End tree_loops.

Lemma tree_inv_length tokens i nodes roots :
  tree_inv tokens i nodes roots -> length nodes = length tokens.
Proof. intros [<- _ _ _ _]. by rewrite length_fmap. Qed.

(** One turn of the [i] loop keeps [tree_inv], whether [node] becomes a
    root or the child of [j]. *)
Lemma inv_step_root tokens i nodes roots node :
  tree_inv tokens i nodes roots -> nodes !! i = Some node ->
  (forall m tm, (m < i)%nat -> tokens !! m = Some tm ->
                encloses tm (token node) = false) ->
  tree_inv tokens (S i) nodes (roots ++ [i]).
Proof.
  intros [Htok Hpar Hfresh Hch Hroots] Hnode Hnone. split; [done|..].
  - intros k n Hk Hlt. destruct (decide (k = i)) as [->|Hne].
    + assert (n = node) as -> by congruence.
      destruct (Hfresh i node Hnode) as [-> _]; [lia|].
      intros j tj ti Hj Htj Hti Hin.
      assert (ti = token node) as ->.
      { rewrite <- Htok, list_lookup_fmap, Hnode in Hti. by injection Hti. }
      apply encloses_iff in Hin. rewrite (Hnone j tj) in Hin; done.
    + apply Hpar; [done|lia].
  - intros k n Hk Hle. apply (Hfresh k); [done|lia].
  - intros k n c Hk Hc. destruct (Hch k n c Hk Hc) as [Hr Hnc]. split; [lia|done].
  - intros r. rewrite elem_of_app, list_elem_of_singleton, Hroots. split.
    + intros [[Hr Hn]| ->]; [split; [lia|done]|]. split; [lia|].
      exists node. split; [done|]. apply (Hfresh i); [done|lia].
    + intros [Hr Hn]. destruct (decide (r = i)) as [->|Hne]; [by right|].
      left. split; [lia|done].
Qed.

Lemma inv_step_child tokens i nodes roots node j pp :
  tree_inv tokens i nodes roots ->
  nodes !! i = Some node -> nodes !! j = Some pp -> (j < i)%nat ->
  encloses (token pp) (token node) = true ->
  (forall m tm, (j < m < i)%nat -> tokens !! m = Some tm ->
                encloses tm (token node) = false) ->
  tree_inv tokens (S i)
    (<[i := set_parent node j]> (<[j := push_child pp i]> nodes)) roots.
Proof.
  intros [Htok Hpar Hfresh Hch Hroots] Hnode Hpp Hji Henc Hnone.
  set (nodes' := <[i := set_parent node j]> (<[j := push_child pp i]> nodes)).
  pose proof (lookup_lt_Some _ _ _ Hnode) as Hilen.
  pose proof (lookup_lt_Some _ _ _ Hpp) as Hjlen.
  assert (forall k n, nodes' !! k = Some n <->
            (k = i /\ n = set_parent node j)
            \/ (k = j /\ n = push_child pp i)
            \/ (k <> i /\ k <> j /\ nodes !! k = Some n)) as Hlook.
  { intros k n. unfold nodes'. rewrite !list_lookup_insert_Some, !length_insert.
    split.
    - intros [(<- & <- & _)|[Hne [(<- & <- & _)|[Hne' Hk]]]]; eauto.
    - intros [[-> ->]|[[-> ->]|(Hki & Hkj & Hk)]].
      + left. repeat split; (done || lia).
      + right. split; [lia|]. left. repeat split; (done || lia).
      + right. split; [congruence|]. right. split; [congruence|done]. }
  assert (tokens !! i = Some (token node)) as Hti
    by (by rewrite <- Htok, list_lookup_fmap, Hnode).
  assert (tokens !! j = Some (token pp)) as Htj
    by (by rewrite <- Htok, list_lookup_fmap, Hpp).
  split.
  - unfold nodes'. rewrite !list_fmap_insert. cbn [set_parent push_child token].
    rewrite (list_insert_id _ j), (list_insert_id _ i);
      [done|by rewrite list_lookup_fmap, Hnode|by rewrite list_lookup_fmap, Hpp].
  - intros k n [[-> ->]|[[-> ->]|(Hki & Hkj & Hk)]]%Hlook Hlt.
    + cbn [set_parent parent]. split; [done|]. split.
      * exists (token pp), (token node). by rewrite <- encloses_iff.
      * intros m tm ti Hm Htm Hti' Hin.
        assert (ti = token node) as -> by congruence.
        apply encloses_iff in Hin. rewrite (Hnone m tm) in Hin; done.
    + cbn [push_child parent]. by apply Hpar.
    + apply Hpar; [done|lia].
  - intros k n [[-> ->]|[[-> ->]|(Hki & Hkj & Hk)]]%Hlook Hle; [lia..|].
    apply (Hfresh k); [done|lia].
  - intros k n c [[-> ->]|[[-> ->]|(Hki & Hkj & Hk)]]%Hlook Hc.
    + cbn [set_parent children] in Hc.
      destruct (Hfresh i node Hnode) as [_ Hnil]; [lia|].
      rewrite Hnil in Hc. by apply elem_of_nil in Hc.
    + cbn [push_child children] in Hc.
      apply elem_of_app in Hc as [Hc| ->%list_elem_of_singleton].
      * destruct (Hch j pp c Hpp Hc) as [Hr (nc & Hnc & Hp)]. split; [lia|].
        exists nc. split; [|done]. apply Hlook. right. right.
        repeat split; [lia|lia|done].
      * split; [lia|]. exists (set_parent node j). split; [|done].
        apply Hlook. by left.
    + destruct (Hch k n c Hk Hc) as [Hr (nc & Hnc & Hp)]. split; [lia|].
      destruct (decide (c = j)) as [->|Hcj].
      * exists (push_child pp i). split; [apply Hlook; eauto|].
        cbn [push_child parent]. congruence.
      * exists nc. split; [|done]. apply Hlook. right. right.
        repeat split; [lia|done|done].
  - intros r. rewrite Hroots. split.
    + intros [Hr (n & Hn & Hp)]. split; [lia|].
      destruct (decide (r = j)) as [->|Hrj].
      * exists (push_child pp i). split; [apply Hlook; eauto|].
        cbn [push_child parent]. congruence.
      * exists n. split; [|done]. apply Hlook. right. right.
        repeat split; [lia|done|done].
    + intros [Hr (n & [[-> ->]|[[-> ->]|(Hki & Hkj & Hk)]]%Hlook & Hp)].
      * done.
      * split; [lia|]. exists pp. done.
      * split; [lia|]. exists n. done.
Qed.

(** [buildTree] returns, and its result satisfies [tree_inv] for all the
    tokens. *)
Lemma build_loop_inv tokens count : forall i nodes roots,
  tree_inv tokens i nodes roots -> (i + count = length tokens)%nat ->
  exists roots' nodes',
    build_loop count i nodes roots = Some (roots', nodes')
    /\ tree_inv tokens (length tokens) nodes' roots'.
Proof.
  induction count as [|count IH]; intros i nodes roots Hinv Hlen.
  { exists roots, nodes. split; [done|]. by replace (length tokens) with i by lia. }
  cbn [build_loop]. pose proof (tree_inv_length _ _ _ _ Hinv) as Hnodes.
  destruct (lookup_lt_is_Some_2 nodes i) as [node Hnode]; [lia|].
  rewrite Hnode. step_bind.
  destruct (parent_loop_spec tokens nodes (inv_tokens _ _ _ _ Hinv) node i i)
    as (found & Hfound & Hspec); [lia|intros; lia|].
  rewrite Hfound. step_bind. destruct found as [j|].
  - destruct Hspec as (Hji & (tj & Htj & Henc) & Hnone).
    destruct (token_node tokens nodes (inv_tokens _ _ _ _ Hinv) j tj Htj)
      as (pp & Hpp & <-).
    rewrite Hpp. step_bind.
    rewrite list_lookup_insert_ne by lia. rewrite Hnode. step_bind.
    apply IH; [|lia]. by apply inv_step_child.
  - apply IH; [|lia]. by apply (inv_step_root _ _ _ _ node).
Qed.

Lemma buildTree_inv tokens :
  exists roots nodes,
    buildTree tokens = Some (roots, nodes)
    /\ tree_inv tokens (length tokens) nodes roots.
Proof.
  unfold buildTree. apply build_loop_inv; [|lia]. split.
  - rewrite <- list_fmap_compose. by rewrite list_fmap_id.
  - intros; lia.
  - intros k n Hk _. apply list_lookup_fmap_Some in Hk as (t & -> & _). done.
  - intros k n c Hk Hc. apply list_lookup_fmap_Some in Hk as (t & -> & _).
    by apply elem_of_nil in Hc.
  - intros r. rewrite elem_of_nil. split; [done|]. intros [? _]. lia.
Qed.

Lemma double_slash_cons c c' s :
  double_slash (c :: c' :: s)
  = (c =? SLASH)%N && (c' =? SLASH)%N || double_slash (c' :: s).
Proof. done. Qed.

Lemma double_slash_app l1 l2 : double_slash (l1 ++ SLASH :: SLASH :: l2) = true.
Proof.
  induction l1 as [|c l1 IH]; [done|].
  cbn [app double_slash]. cbn [app] in IH.
  destruct (l1 ++ SLASH :: SLASH :: l2) as [|c' rest] eqn:Hl; [done|].
  rewrite IH. apply orb_true_r.
Qed.

Lemma head_collapse_slashes s : head (collapse_slashes s) = head s.
Proof.
  induction s as [|c s IH]; [done|]. cbn [collapse_slashes].
  destruct s as [|c' s]; [done|].
  destruct ((c =? SLASH)%N && (c' =? SLASH)%N) eqn:Hc; [|done].
  rewrite IH. apply andb_true_iff in Hc as [->%N.eqb_eq ->%N.eqb_eq]. done.
Qed.

Lemma collapse_slashes_single s : double_slash (collapse_slashes s) = false.
Proof.
  induction s as [|c s IH]; [done|]. cbn [collapse_slashes].
  destruct s as [|c' s]; [done|].
  destruct ((c =? SLASH)%N && (c' =? SLASH)%N) eqn:Hc; [done|].
  pose proof (head_collapse_slashes (c' :: s)) as Hh.
  cbn [double_slash]. destruct (collapse_slashes (c' :: s)) as [|x rest]; [done|].
  injection Hh as ->. by rewrite Hc, IH.
Qed.

Lemma strip_leading_slashes_single s :
  double_slash s = false ->
  double_slash (SLASH :: strip_leading_slashes s) = false.
Proof.
  induction s as [|c s IH]; [done|]. intros Hs.
  cbn [strip_leading_slashes]. destruct (c =? SLASH)%N eqn:Hc.
  - apply IH. cbn [double_slash] in Hs. destruct s as [|c' s]; [done|].
    by apply orb_false_iff in Hs as [_ Hs].
  - by rewrite double_slash_cons, Hc, andb_false_r, Hs.
Qed.

(** [resolve] leaves no two slashes in a row. *)
Lemma resolve_single parts : double_slash (resolve parts) = false.
Proof. apply strip_leading_slashes_single, collapse_slashes_single. Qed.

Lemma nonempty_segments_snoc chain n :
  nonempty_segments (chain ++ [n])
  = nonempty_segments chain
    ++ (if negb (is_layout (type (token n))) && truthy (path (token n))
        then [path (token n)] else []).
Proof.
  unfold nonempty_segments, declared_segments.
  rewrite filter_app, fmap_app, filter_app. f_equal.
  rewrite filter_cons, filter_nil. case_decide as Ht.
  - cbn [fmap list_fmap]. rewrite filter_cons, filter_nil.
    assert (is_layout (type (token n)) = false) as ->
      by (by destruct (type (token n))).
    case_decide as Hp; destruct (path (token n)); done.
  - assert (is_layout (type (token n)) = true) as ->
      by (destruct (type (token n)); done).
    done.
Qed.

(** The walk up from node [i] collects the non-empty segments of its chain,
    in root-to-node order, in front of what it started with. *)
Lemma path_loop_spec nodes i chain :
  root_path nodes i chain ->
  forall fuel pathParts, (length chain < fuel)%nat ->
    path_loop fuel nodes (Some i) pathParts
    = Some (nonempty_segments chain ++ pathParts).
Proof.
  induction 1 as [i n Hn Hp|i n j chain Hn Hp Hchain IH];
    intros fuel pathParts Hfuel.
  - destruct fuel as [|[|fuel]]; [cbn in Hfuel; lia..|].
    cbn [path_loop]. rewrite Hn. step_bind. rewrite Hp.
    change [n] with ([] ++ [n]). rewrite nonempty_segments_snoc.
    by destruct (negb _ && _).
  - destruct fuel as [|fuel]; [lia|]. rewrite length_app in Hfuel.
    cbn [path_loop]. rewrite Hn. step_bind. rewrite Hp.
    rewrite IH by (cbn in Hfuel; lia).
    rewrite nonempty_segments_snoc, <- app_assoc.
    by destruct (negb _ && _).
Qed.

Section forest.
Context (tokens : list RouteToken) (roots : list nat) (nodes : list TreeNode).
Hypothesis Hinv : tree_inv tokens (length tokens) nodes roots.

Lemma parent_lt k n j :
  nodes !! k = Some n -> parent n = Some j -> (j < k)%nat.
Proof.
  intros Hn Hp. pose proof (lookup_lt_Some _ _ _ Hn) as Hlt.
  rewrite (tree_inv_length _ _ _ _ Hinv) in Hlt.
  pose proof (inv_parent _ _ _ _ Hinv k n Hn Hlt) as Hnear.
  rewrite Hp in Hnear. by destruct Hnear.
Qed.

Lemma root_path_exists i :
  (i < length nodes)%nat ->
  exists chain, root_path nodes i chain.
Proof.
  induction (lt_wf i) as [i _ IH]. intros Hi.
  destruct (lookup_lt_is_Some_2 nodes i Hi) as [n Hn].
  destruct (parent n) as [j|] eqn:Hp.
  - pose proof (parent_lt _ _ _ Hn Hp) as Hj.
    destruct (IH j) as [chain Hchain]; [done|lia|].
    exists (chain ++ [n]). by apply (root_path_step _ _ _ j).
  - exists [n]. by constructor.
Qed.

Lemma root_path_length i chain :
  root_path nodes i chain -> (length chain <= S i)%nat.
Proof.
  induction 1 as [i n Hn Hp|i n j chain Hn Hp Hchain IH]; [cbn; lia|].
  pose proof (parent_lt _ _ _ Hn Hp). rewrite length_app. cbn. lia.
Qed.

Lemma root_path_lt i chain : root_path nodes i chain -> (i < length nodes)%nat.
Proof. intros [? ? Hn _|? ? ? ? Hn _ _]; by apply lookup_lt_Some in Hn. Qed.

Lemma calculateFullPath_spec i chain :
  root_path nodes i chain ->
  calculateFullPath nodes i = Some (resolve (nonempty_segments chain)).
Proof.
  intros Hchain. unfold calculateFullPath.
  pose proof (root_path_length _ _ Hchain). pose proof (root_path_lt _ _ Hchain).
  rewrite (path_loop_spec _ _ _ Hchain) by lia. step_bind.
  by rewrite app_nil_r.
Qed.

Lemma calculateFullPath_total i :
  (i < length nodes)%nat -> exists full, calculateFullPath nodes i = Some full.
Proof.
  intros [chain Hchain]%root_path_exists.
  rewrite (calculateFullPath_spec _ _ Hchain). by eexists.
Qed.

Lemma child_bounds k n c :
  nodes !! k = Some n -> c ∈ children n -> (k < c < length nodes)%nat.
Proof.
  intros Hn Hc. destruct (inv_children _ _ _ _ Hinv k n c Hn Hc) as [Hr _].
  rewrite (tree_inv_length _ _ _ _ Hinv). lia.
Qed.

(** A child comes after its parent in [nodes], so the depth of the
    recursion is at most the number of nodes. *)
Lemma traverse_total text fuel : forall node routes,
  (node < length nodes)%nat -> (length nodes - node <= fuel)%nat ->
  exists routes', traverse fuel text nodes node routes = Some routes'.
Proof.
  induction fuel as [|fuel IH]; intros node routes Hnode Hfuel; [lia|].
  cbn [traverse].
  destruct (lookup_lt_is_Some_2 nodes node Hnode) as [n Hn].
  rewrite Hn. step_bind.
  destruct (calculateFullPath_total node Hnode) as [full ->]. step_bind.
  pose proof (child_bounds node n) as Hch. specialize (Hch) with (1 := Hn).
  match goal with |- context [_ (children n) ?r] => generalize r end.
  induction (children n) as [|c cs IHcs]; intros acc; [by eexists|].
  destruct (IH c acc) as [routes' ->].
  { apply Hch. by left. }
  { assert (node < c < length nodes)%nat by (apply Hch; by left). lia. }
  step_bind. apply IHcs. intros c' Hc'. apply Hch. by right.
Qed.

(** Every record pushed is the record of a node that is no prefix, with
    the full path [calculateFullPath] gives. *)
Lemma traverse_emitted text fuel : forall node routes routes',
  traverse fuel text nodes node routes = Some routes' ->
  Forall (emitted text nodes) routes -> Forall (emitted text nodes) routes'.
Proof.
  induction fuel as [|fuel IH]; intros node routes routes'; [done|].
  cbn [traverse].
  destruct (nodes !! node) as [n|] eqn:Hn; [|done]. step_bind.
  destruct (calculateFullPath nodes node) as [full|] eqn:Hfull; [|done].
  step_bind.
  match goal with
  | |- context [_ (children n) ?r] =>
      assert (Forall (emitted text nodes) routes -> Forall (emitted text nodes) r)
        as Hfirst; [|generalize dependent r]
  end.
  { intros Hr. destruct (is_prefix (type (token n))) eqn:Hp; [done|].
    apply Forall_app. split; [done|]. apply Forall_singleton.
    exists node, n, full. repeat split; try done.
    intros Heq. by rewrite Heq in Hp. }
  intros acc Hacc Htr Hroutes. specialize (Hacc Hroutes).
  clear Hroutes. revert acc Hacc Htr.
  induction (children n) as [|c cs IHcs]; intros acc Hacc; [by intros [= <-]|].
  destruct (traverse fuel text nodes c acc) as [acc'|] eqn:Hc; [|done].
  step_bind. apply IHcs. by apply (IH c acc).
Qed.
End forest.

(** ** Unterminated strings *)

Lemma unterminated_at_null text p :
  unterminated_at text p -> extractStringArg text p = Some None.
Proof.
  intros (q & quote & i' & value & Hq & Hc & Hquote & Hr & Hend).
  unfold extractStringArg. rewrite Hq. step_bind.
  pose proof (char_at_Some _ _ _ Hc).
  destruct (Z.leb_spec (len text) q) as [?|_]; [lia|]. rewrite Hc.
  assert (negb (quote =? DQUOTE)%N && negb (quote =? SQUOTE)%N = false) as ->
    by (by destruct Hquote as [-> | ->]).
  rewrite Hr. step_bind. by destruct (Z.leb_spec (len text) i') as [_|?]; [|lia].
Qed.

Lemma separator_in_code c :
  test_separator (Some c) = true ->
  (c =? LPAREN)%N = false /\ (c =? RPAREN)%N = false
  /\ (c =? DQUOTE)%N = false /\ (c =? SQUOTE)%N = false.
Proof.
  intros H. repeat split;
    match goal with
    | |- (c =? ?x)%N = false =>
        destruct (N.eqb_spec c x) as [->|_]; [by vm_compute in H|done]
    end.
Qed.

Lemma skip_separators_in_code text fuel : forall p q d,
  0 <= p -> skip_separators fuel text p = Some q ->
  p <= q /\
  matching_paren InCode d (suffix text p) p
  = matching_paren InCode d (suffix text q) q.
Proof.
  induction fuel as [|fuel IH]; intros p q d Hp; [done|].
  cbn [skip_separators].
  destruct ((p <? len text) && test_separator (char_at text p)) eqn:Hc.
  - apply andb_true_iff in Hc as [Hlt%Z.ltb_lt Hsep].
    destruct (char_at_lt text p) as [c Hch]; [lia|]. rewrite Hch in Hsep.
    apply separator_in_code in Hsep as (H1 & H2 & H3 & H4).
    intros Hq. destruct (IH (p + 1) q d) as [Hle Heq]; [lia|done|].
    split; [lia|]. rewrite (suffix_cons _ _ _ Hch). cbn [matching_paren].
    by rewrite H1, H2, H3, H4.
  - intros [= <-]. split; [lia|done].
Qed.

Lemma read_quoted_in_string text quote fuel : forall i value i' value' d,
  0 <= i -> read_quoted fuel text quote i value = Some (i', value') ->
  i <= i' /\
  matching_paren (InString quote) d (suffix text i) i
  = if i' <? len text
    then matching_paren InCode d (suffix text (i' + 1)) (i' + 1)
    else -1.
Proof.
  induction fuel as [|fuel IH]; intros i value i' value' d Hi; [done|].
  cbn [read_quoted].
  destruct (Z.ltb_spec i (len text)) as [Hlt|Hge]; cbn [andb].
  - destruct (char_at_lt text i) as [c Hc]; [lia|].
    rewrite !(is_char_false _ _ _ _ Hc), (suffix_cons _ _ _ Hc).
    cbn [matching_paren].
    destruct (c =? quote)%N eqn:Hq; cbn [negb].
    { intros [= <- <-]. split; [lia|].
      by destruct (Z.ltb_spec i (len text)) as [_|?]; [|lia]. }
    destruct (c =? BACKSLASH)%N eqn:Hb; cbn [andb].
    + destruct (Z.ltb_spec (i + 1) (len text)) as [Hlt1|Hge1].
      * intros Hr. destruct (IH (i + 2) _ _ _ d ltac:(lia) Hr) as [Hle Heq].
        split; [lia|].
        destruct (char_at_lt text (i + 1)) as [c1 Hc1]; [lia|].
        rewrite (suffix_cons _ _ _ Hc1). cbn [matching_paren].
        by replace (i + 1 + 1) with (i + 2) by lia.
      * intros Hr. destruct (IH (i + 1) _ _ _ d ltac:(lia) Hr) as [Hle _].
        split; [lia|]. rewrite suffix_nil by lia.
        by destruct (Z.ltb_spec i' (len text)) as [?|_]; [lia|].
    + intros Hr. destruct (IH (i + 1) _ _ _ d ltac:(lia) Hr) as [Hle Heq].
      split; [lia|done].
  - intros [= <- <-]. split; [lia|]. rewrite suffix_nil by lia.
    by destruct (Z.ltb_spec i (len text)) as [?|_]; [lia|].
Qed.

Lemma matching_paren_quote text q quote d :
  char_at text q = Some quote -> quote = DQUOTE \/ quote = SQUOTE ->
  matching_paren InCode d (suffix text q) q
  = matching_paren (InString quote) d (suffix text (q + 1)) (q + 1).
Proof.
  intros Hc Hq. rewrite (suffix_cons _ _ _ Hc). cbn [matching_paren].
  by destruct Hq as [-> | ->].
Qed.

(** A string that never closes leaves the parenthesis before it
    unmatched. *)
Lemma unterminated_at_unmatched text p d :
  0 <= p -> unterminated_at text p ->
  matching_paren InCode d (suffix text p) p = -1.
Proof.
  intros Hp (q & quote & i' & value & Hq & Hc & Hquote & Hr & Hend).
  destruct (skip_separators_in_code _ _ _ _ d Hp Hq) as [Hle ->].
  rewrite (matching_paren_quote _ _ _ _ Hc Hquote).
  destruct (read_quoted_in_string _ _ _ (q + 1) _ _ _ d ltac:(lia) Hr) as [_ ->].
  by destruct (Z.ltb_spec i' (len text)) as [?|_]; [lia|].
Qed.

(** The matcher passes a string argument as [extractStringArg] does: after
    it, both are at [endIndex], outside any string. *)
Lemma extractStringArg_in_code text p value endIndex d :
  0 <= p -> extractStringArg text p = Some (Some (value, endIndex)) ->
  p <= endIndex /\
  matching_paren InCode d (suffix text p) p
  = matching_paren InCode d (suffix text endIndex) endIndex.
Proof.
  intros Hp. unfold extractStringArg.
  destruct (skip_separators (budget text p) text p) as [q|] eqn:Hq; [|done].
  step_bind. destruct (Z.leb_spec (len text) q) as [?|Hin]; [done|].
  destruct (char_at text q) as [quote|] eqn:Hc; [|done].
  destruct (negb (quote =? DQUOTE)%N && negb (quote =? SQUOTE)%N) eqn:Hquote;
    [done|].
  destruct (read_quoted _ text quote (q + 1) []) as [[i' v]|] eqn:Hr; [|done].
  step_bind. destruct (Z.leb_spec (len text) i') as [?|Hin']; [done|].
  intros [= <- <-].
  destruct (skip_separators_in_code _ _ _ _ d Hp Hq) as [Hle ->].
  rewrite (matching_paren_quote text q quote).
  - destruct (read_quoted_in_string _ _ _ (q + 1) _ _ _ d ltac:(lia) Hr) as [Hle' ->].
    split; [lia|]. by destruct (Z.ltb_spec i' (len text)) as [_|?]; [|lia].
  - done.
  - apply andb_false_iff in Hquote as [H|H]; apply negb_false_iff, N.eqb_eq in H; eauto.
Qed.

(** ** The whole parse *)

Lemma buildTree_tree_inv tokens roots nodes :
  buildTree tokens = Some (roots, nodes) ->
  tree_inv tokens (length tokens) nodes roots.
Proof.
  destruct (buildTree_inv tokens) as (roots' & nodes' & -> & Hinv).
  by intros [= <- <-].
Qed.

Lemma calculateFullPath_shape nodes i full :
  calculateFullPath nodes i = Some full -> exists parts, full = resolve parts.
Proof.
  unfold calculateFullPath.
  destruct (path_loop _ nodes (Some i) []) as [parts|]; [|done].
  step_bind. intros [= <-]. by exists parts.
Qed.

Lemma traverse_roots_total text tokens roots0 nodes :
  tree_inv tokens (length tokens) nodes roots0 ->
  forall roots routes,
    (forall r, r ∈ roots -> (r < length nodes)%nat) ->
    exists routes', traverse_roots text nodes roots routes = Some routes'.
Proof.
  intros Hinv roots. induction roots as [|r roots IH]; intros routes Hr.
  { by eexists. }
  cbn [traverse_roots].
  destruct (traverse_total tokens roots0 nodes Hinv text (S (length nodes)) r routes)
    as [routes' ->]; [apply Hr; by left|lia|].
  step_bind. apply IH. intros r' Hr'. apply Hr. by right.
Qed.

Lemma traverse_roots_emitted text nodes : forall roots routes routes',
  traverse_roots text nodes roots routes = Some routes' ->
  Forall (emitted text nodes) routes -> Forall (emitted text nodes) routes'.
Proof.
  induction roots as [|r roots IH]; intros routes routes'; cbn [traverse_roots].
  { by intros [= <-]. }
  destruct (traverse _ text nodes r routes) as [acc|] eqn:Hr; [|done].
  step_bind. intros Hrest Hroutes. apply (IH acc); [done|].
  eapply traverse_emitted; [exact Hr|done].
Qed.

Lemma parseRoutesFile_total text :
  exists routes, parseRoutesFile text = Some routes.
Proof.
  unfold parseRoutesFile. rewrite parseRouteTokens_spec. step_bind.
  destruct (buildTree_inv (sort_tokens (mjoin (tokens_of_pattern text <$> patterns))))
    as (roots & nodes & -> & Hinv).
  step_bind. apply (traverse_roots_total text _ roots nodes Hinv).
  intros r [Hr _]%(inv_roots _ _ _ _ Hinv).
  by rewrite (tree_inv_length _ _ _ _ Hinv).
Qed.

Lemma parseRoutesFile_emitted text routes :
  parseRoutesFile text = Some routes ->
  exists tokens roots nodes,
    parseRouteTokens text = Some tokens
    /\ buildTree tokens = Some (roots, nodes)
    /\ Forall (emitted text nodes) routes.
Proof.
  unfold parseRoutesFile.
  destruct (parseRouteTokens text) as [tokens|] eqn:Htokens; [|done]. step_bind.
  destruct (buildTree tokens) as [[roots nodes]|] eqn:Htree; [|done]. step_bind.
  intros Hroutes. exists tokens, roots, nodes. split; [done|]. split; [done|].
  by apply (traverse_roots_emitted text nodes roots [] routes).
Qed.

Lemma matching_paren_result rest : forall mode depth pos,
  matching_paren mode depth rest pos = -1
  \/ exists k, matching_paren mode depth rest pos = pos + Z.of_nat k
               /\ rest !! k = Some RPAREN.
Proof.
  assert (forall (rest : list N) c mode depth pos,
            (matching_paren mode depth rest (pos + 1) = -1
             \/ exists k, matching_paren mode depth rest (pos + 1)
                          = pos + 1 + Z.of_nat k /\ rest !! k = Some RPAREN) ->
            matching_paren mode depth rest (pos + 1) = -1
            \/ exists k, matching_paren mode depth rest (pos + 1)
                         = pos + Z.of_nat k /\ (c :: rest) !! k = Some RPAREN)
    as Hshift.
  { intros r c mode depth pos [H|(k & Hk & Hr)]; [by left|right].
    exists (S k). split; [lia|done]. }
  induction rest as [|c rest IH]; intros mode depth pos; [by left|].
  cbn [matching_paren]. destruct mode as [|quote|quote].
  - destruct (c =? LPAREN)%N; [by apply Hshift|].
    destruct (c =? RPAREN)%N eqn:Hrp.
    { destruct depth; [|by apply Hshift]. right. exists 0%nat.
      split; [lia|]. apply N.eqb_eq in Hrp as ->. done. }
    destruct ((c =? DQUOTE)%N || (c =? SQUOTE)%N); by apply Hshift.
  - destruct (c =? quote)%N; [by apply Hshift|].
    destruct (c =? BACKSLASH)%N; by apply Hshift.
  - by apply Hshift.
Qed.

Lemma findMatchingParen_found text openIndex r :
  -1 <= openIndex -> findMatchingParen text openIndex = Some r -> r <> -1 ->
  openIndex < r < len text /\ is_char text r RPAREN = true.
Proof.
  intros Hopen. rewrite findMatchingParen_spec by done. intros [= <-] Hne.
  destruct (matching_paren_result (suffix text (openIndex + 1)) InCode 0
              (openIndex + 1)) as [H|(k & Hk & Hr)]; [done|].
  rewrite Hk. unfold suffix in Hr. rewrite lookup_drop in Hr.
  assert (char_at text (openIndex + 1 + Z.of_nat k) = Some RPAREN) as Hc.
  { unfold char_at.
    destruct (Z.ltb_spec (openIndex + 1 + Z.of_nat k) 0) as [?|_]; [lia|].
    rewrite <- Hr. f_equal. lia. }
  pose proof (char_at_Some _ _ _ Hc). split; [lia|]. by apply is_char_true.
Qed.

Lemma nonempty_segments_nil chain :
  (forall n, n ∈ chain -> type (token n) <> Layout -> path (token n) = []) ->
  nonempty_segments chain = [].
Proof.
  intros Hall. unfold nonempty_segments, declared_segments.
  apply filter_none. intros s (n & -> & Hn)%list_elem_of_fmap.
  apply list_elem_of_filter in Hn as [Hty Hn]. rewrite (Hall n Hn Hty). tauto.
Qed.

Lemma patterns_ptype_inj pat pat' :
  pat ∈ patterns -> pat' ∈ patterns -> ptype pat = ptype pat' -> pat = pat'.
Proof.
  unfold patterns. rewrite !elem_of_cons, !elem_of_nil.
  intros [->|[->|[->|[->|[]]]]] [->|[->|[->|[->|[]]]]]; done.
Qed.

(** The occurrences [scan_match] drops. *)
Lemma scan_match_dropped text pat s :
  findMatchingParen text (indexOf text LPAREN s) = Some (-1)
  \/ (hasPath pat = true
      /\ extractStringArg text (indexOf text LPAREN s + 1) = Some None)
  \/ unterminated_at text (indexOf text LPAREN s + 1)
  \/ (exists value endIndex,
        extractStringArg text (indexOf text LPAREN s + 1)
        = Some (Some (value, endIndex))
        /\ unterminated_at text endIndex) ->
  scan_match text pat s = Some None.
Proof.
  pose proof (indexOf_ge text LPAREN s) as Hopen.
  intros [H|[[Hp H]|[H|(value & e & Harg & H)]]].
  - by apply scan_match_unmatched.
  - by apply scan_match_no_path.
  - apply scan_match_unmatched. rewrite findMatchingParen_spec by done.
    by rewrite unterminated_at_unmatched by (done || lia).
  - apply scan_match_unmatched. rewrite findMatchingParen_spec by done.
    destruct (extractStringArg_in_code text (indexOf text LPAREN s + 1)
                value e 0 ltac:(lia) Harg) as [Hle ->].
    by rewrite unterminated_at_unmatched by (done || lia).
Qed.

(** ** Lines and columns are not negative *)

Lemma last_index_below_spec text c n :
  last_index_below n text c = -1
  \/ (0 <= last_index_below n text c < Z.of_nat n
      /\ is_char text (last_index_below n text c) c = true).
Proof.
  induction n as [|n IH]; cbn [last_index_below]; [by left|].
  destruct (is_char text (Z.of_nat n) c) eqn:Hc; [right; split; [lia|done]|].
  destruct IH as [IH|[IH1 IH2]]; [by left|right]. split; [lia|done].
Qed.

Lemma getColumnFromIndex_nonneg text index :
  0 <= index -> is_char text index NEWLINE = false ->
  0 <= getColumnFromIndex text index.
Proof.
  intros Hi Hc. unfold getColumnFromIndex, lastIndexOf.
  set (start := Z.min (Z.max (index - 1) 0) (len text - 1)).
  destruct (last_index_below_spec text NEWLINE (Z.to_nat (start + 1)))
    as [->|[Hr Hnl]]; [lia|].
  destruct (decide (index = 0)) as [->|Hne]; [|lia].
  assert (last_index_below (Z.to_nat (start + 1)) text NEWLINE = 0) as H0 by lia.
  rewrite H0 in Hnl. congruence.
Qed.

Lemma token_start text tokens t :
  parseRouteTokens text = Some tokens -> t ∈ tokens ->
  0 <= startIndex t /\ is_char text (startIndex t) NEWLINE = false.
Proof.
  intros Hparse Ht.
  apply (parseRouteTokens_elem text tokens t Hparse) in Ht
    as (pat & s & Hpat & Hs & Hm & Hscan).
  destruct (scan_match_total text pat s) as (r & Hr & Hspec).
  rewrite Hscan in Hr. injection Hr as <-.
  destruct (Hspec t eq_refl) as (_ & -> & _). split; [done|].
  pose proof patterns_head_distinct as Hd. rewrite Forall_forall in Hd.
  specialize (Hd pat Hpat). destruct (regex pat) as [|c rest] eqn:Hname; [done|].
  rewrite <- Hname in Hm.
  rewrite (is_char_false _ _ _ _ (match_at_head text _ s c rest Hname Hm)).
  cbn [head_distinct] in Hd.
  apply andb_true_iff in Hd as [[_ Hsp]%andb_true_iff _].
  destruct (N.eqb_spec c NEWLINE) as [->|_]; [by vm_compute in Hsp|done].
Qed.

(** The four arguments of [new vscode.Range] are never negative, so the
    constructor, which refuses a negative line or character, does not
    raise. *)
Lemma parseRoutesFile_range text routes r :
  parseRoutesFile text = Some routes -> r ∈ routes ->
  exists l c,
    range r = (l, c, l, c + len (type_name (r_type r)))
    /\ line r = l /\ 0 <= l /\ 0 <= c.
Proof.
  intros Hparse Hr. pose proof Hparse as Hem.
  apply parseRoutesFile_emitted in Hem
    as (tokens & roots & nodes & Htok & Htree & Hem).
  rewrite Forall_forall in Hem.
  destruct (Hem r Hr) as (i & n & full & Hn & _ & _ & ->).
  apply buildTree_tree_inv in Htree.
  pose proof (node_token tokens nodes (inv_tokens _ _ _ _ Htree) i n Hn) as Hin.
  apply list_elem_of_lookup_2 in Hin.
  destruct (token_start text tokens (token n) Htok Hin) as [Hs Hnl].
  eexists _, _. split; [reflexivity|]. split; [reflexivity|]. split.
  - unfold getLineFromIndex. lia.
  - by apply getColumnFromIndex_nonneg.
Qed.

(** * Lemmas of the further properties *)

(** ** The token stream is ordered *)

Lemma insert_token_sorted t l :
  StronglySorted (fun a b => startIndex a <= startIndex b) l ->
  StronglySorted (fun a b => startIndex a <= startIndex b) (insert_token t l).
Proof.
  induction 1 as [|x l Hl IH Hx]; cbn [insert_token].
  - repeat constructor.
  - destruct (Z.ltb_spec 0 (startIndex t - startIndex x)) as [Hlt|Hge].
    + constructor; [exact IH|].
      rewrite insert_token_perm. constructor; [lia|exact Hx].
    + constructor; [by constructor|].
      constructor; [lia|].
      eapply Forall_impl; [exact Hx|]. cbn. intros y Hy. lia.
Qed.

Lemma sort_tokens_sorted l :
  StronglySorted (fun a b => startIndex a <= startIndex b) (sort_tokens l).
Proof.
  induction l as [|t l IH]; cbn [sort_tokens foldr].
  - constructor.
  - by apply insert_token_sorted.
Qed.

Lemma kept_start text pat s t : kept text pat s = Some t -> startIndex t = s.
Proof.
  unfold kept. intros H.
  destruct (scan_match_total text pat s) as (r & Hr & Hprop).
  rewrite Hr in H. destruct r as [t'|]; [|done].
  injection H as ->. by destruct (Hprop t eq_refl) as (_ & ? & _).
Qed.

Lemma starts_sublist text pat l :
  startIndex <$> omap (kept text pat) l `sublist_of` l.
Proof.
  induction l as [|s l IH]; [constructor|].
  cbn [omap list_omap]. destruct (kept text pat s) as [t|] eqn:Hk.
  - cbn [fmap list_fmap]. rewrite (kept_start _ _ _ _ Hk). by constructor.
  - by constructor.
Qed.

Lemma matches_from_NoDup text name from : NoDup (matches_from text name from).
Proof. unfold matches_from. apply NoDup_filter, NoDup_seqZ. Qed.

Lemma pattern_starts_NoDup text pat :
  NoDup (startIndex <$> tokens_of_pattern text pat).
Proof.
  eapply sublist_NoDup; [apply matches_from_NoDup|apply starts_sublist].
Qed.

Lemma pattern_start_head text pat s c rest :
  regex pat = c :: rest ->
  s ∈ startIndex <$> tokens_of_pattern text pat -> char_at text s = Some c.
Proof.
  intros Hname Hs.
  apply (λ H, elem_of_sublist _ _ _ H (starts_sublist text pat _)) in Hs.
  unfold matches_from in Hs. apply list_elem_of_filter in Hs as [Hm _].
  by eapply match_at_head.
Qed.

Lemma stream_starts_NoDup text pats :
  NoDup (head <$> (regex <$> pats)) -> Forall (fun pat => regex pat <> []) pats ->
  NoDup (startIndex <$> mjoin (tokens_of_pattern text <$> pats)).
Proof.
  induction pats as [|pat pats IH]; intros Hnd Hne.
  - constructor.
  - cbn [fmap list_fmap mjoin list_join] in *.
    rewrite fmap_app. apply NoDup_app.
    apply NoDup_cons in Hnd as [Hnotin Hnd].
    apply Forall_cons in Hne as [Hpat Hne].
    split; [apply pattern_starts_NoDup|]. split; [|by apply IH].
    intros s Hs Hs'.
    destruct (regex pat) as [|c rest] eqn:Hname; [done|].
    pose proof (pattern_start_head _ _ _ _ _ Hname Hs) as Hc.
    apply list_elem_of_fmap in Hs' as (t & -> & Ht).
    apply list_elem_of_join in Ht as (l & Ht & Hl).
    apply list_elem_of_fmap in Hl as (pat' & -> & Hpat').
    assert (startIndex t ∈ startIndex <$> tokens_of_pattern text pat') as Hin
      by (apply list_elem_of_fmap; eauto).
    apply Hnotin. apply list_elem_of_fmap. exists (regex pat').
    split; [|by apply list_elem_of_fmap_2].
    pose proof (Forall_forall (fun pat => regex pat <> []) pats) as [Hall _].
    specialize (Hall Hne pat' Hpat').
    destruct (regex pat') as [|c' rest'] eqn:Hname'; [done|].
    pose proof (pattern_start_head _ _ _ _ _ Hname' Hin) as Hc'.
    cbn. congruence.
Qed.

Lemma sorted_strict (l : list RouteToken) :
  StronglySorted (fun a b => startIndex a <= startIndex b) l ->
  NoDup (startIndex <$> l) ->
  forall i j ti tj, l !! i = Some ti -> l !! j = Some tj -> (i < j)%nat ->
    startIndex ti < startIndex tj.
Proof.
  induction 1 as [|x l Hl IH Hx]; intros Hnd i j ti tj Hi Hj Hij; [done|].
  cbn [fmap list_fmap] in Hnd. apply NoDup_cons in Hnd as [Hnotin Hnd].
  destruct j as [|j]; [lia|]. cbn in Hj.
  destruct i as [|i]; cbn in Hi.
  - injection Hi as <-.
    pose proof (list_elem_of_lookup_2 _ _ _ Hj) as Hin.
    pose proof (proj1 (Forall_forall _ _) Hx _ Hin) as Hle. cbn in Hle.
    assert (startIndex x <> startIndex tj); [|lia].
    intros Heq. apply Hnotin. rewrite Heq. by apply list_elem_of_fmap_2.
  - eapply (IH Hnd i j); [done..|lia].
Qed.

Lemma parseRouteTokens_sorted text tokens :
  parseRouteTokens text = Some tokens ->
  forall i j ti tj, tokens !! i = Some ti -> tokens !! j = Some tj ->
    (i < j)%nat -> startIndex ti < startIndex tj.
Proof.
  rewrite parseRouteTokens_spec. intros Hrun.
  assert (tokens = sort_tokens (mjoin (tokens_of_pattern text <$> patterns)))
    as -> by congruence.
  apply sorted_strict; [apply sort_tokens_sorted|].
  rewrite sort_tokens_perm. apply stream_starts_NoDup.
  - apply (bool_decide_unpack _). vm_compute. exact I.
  - repeat constructor; done.
Qed.

(** ** The span of a token *)

Lemma substring_chars_between text a b :
  0 <= a <= b -> substring text a b = chars_between text a b.
Proof.
  intros Hab. unfold substring, chars_between, suffix. cbv zeta.
  destruct (Z.le_gt_cases (len text) a) as [Hout|Hin].
  - rewrite !drop_ge by (unfold len in *; lia). by rewrite !take_nil.
  - assert (Z.min (Z.max a 0) (len text) = a) as -> by lia.
    destruct (Z.le_gt_cases b (len text)) as [Hb|Hb].
    + assert (Z.min (Z.max b 0) (len text) = b) as -> by lia.
      assert (Z.max a b - Z.min a b = b - a) as -> by lia.
      by assert (Z.min a b = a) as -> by lia.
    + assert (Z.min (Z.max b 0) (len text) = len text) as -> by lia.
      assert (Z.min a (len text) = a) as -> by lia.
      rewrite !take_ge; [done|rewrite length_drop; unfold len in *; lia..].
Qed.

Lemma literal_chars_between text name : forall s,
  0 <= s -> literal_at text name s = true ->
  chars_between text s (s + len name) = name.
Proof.
  induction name as [|c name IH]; intros s Hs Hlit.
  - apply chars_between_nil. left. unfold len. cbn. lia.
  - cbn [literal_at] in Hlit. apply andb_true_iff in Hlit as [Hc Hrest].
    apply is_char_true in Hc.
    rewrite (chars_between_cons _ _ _ c); [|unfold len; cbn; lia|done].
    f_equal. rewrite <- (IH (s + 1)) at 2 by (done || lia).
    f_equal. unfold len. cbn [length]. lia.
Qed.

Lemma literal_substring text name s :
  0 <= s -> literal_at text name s = true ->
  substring text s (s + len name) = name.
Proof.
  intros Hs Hlit. rewrite substring_chars_between by (unfold len; lia).
  by apply literal_chars_between.
Qed.

Lemma patterns_regex pat :
  pat ∈ patterns -> regex pat = type_name (ptype pat).
Proof.
  unfold patterns. rewrite !elem_of_cons, elem_of_nil.
  intros [->|[->|[->|[->|[]]]]]; done.
Qed.

Lemma patterns_no_paren pat c :
  pat ∈ patterns -> c ∈ regex pat -> c <> LPAREN.
Proof.
  unfold patterns. rewrite !elem_of_cons, elem_of_nil.
  intros [->|[->|[->|[->|[]]]]]; cbn [regex]; vm_compute text_of;
    rewrite !elem_of_cons, elem_of_nil; intros Hc ->;
    repeat (destruct Hc as [Hc|Hc]; [discriminate Hc|]); done.
Qed.

(** [text.indexOf('(', startIndex)] is the parenthesis that ends the
    match. *)
Lemma indexOf_match text name s e :
  0 <= s -> (forall c, c ∈ name -> c <> LPAREN) ->
  match_at text name s = Some e -> indexOf text LPAREN s = e - 1.
Proof.
  intros Hs Hname Hm.
  pose proof (match_at_bounds _ _ _ _ Hm) as Hb.
  apply match_at_Some in Hm as (Hlit & Hle & Hparen & Hsp).
  destruct (indexOf_found text LPAREN s (e - 1)) as [Hlo Hhi]; [lia|done|].
  destruct (Z.eq_dec (indexOf text LPAREN s) (e - 1)) as [|Hne]; [done|].
  exfalso.
  assert (is_char text (indexOf text LPAREN s) LPAREN = true) as Hopen.
  { unfold indexOf in *.
    set (k := Z.min (Z.max s 0) (len text)) in *.
    destruct (index_from_spec text LPAREN (Z.to_nat (len text - k)) k)
      as [[Hr _]|[_ Hr]]; [lia|done]. }
  apply is_char_true in Hopen.
  set (p := indexOf text LPAREN s) in *.
  destruct (Z.lt_ge_cases p (s + len name)) as [Hin|Hout].
  - assert (exists k, p = s + Z.of_nat k /\ (k < length name)%nat)
      as (k & -> & Hk) by (exists (Z.to_nat (p - s)); unfold len in *; lia).
    destruct (lookup_lt_is_Some_2 name k Hk) as [c Hc].
    pose proof (literal_at_lookup _ _ _ _ _ Hlit Hc) as Hat.
    apply (Hname c); [by eapply list_elem_of_lookup_2|congruence].
  - specialize (Hsp p ltac:(lia)). rewrite Hopen in Hsp.
    by vm_compute in Hsp.
Qed.

Lemma scan_match_fields text pat s t :
  scan_match text pat s = Some (Some t) ->
  (if hasPath pat
   then exists e, extractStringArg text (indexOf text LPAREN s + 1)
                  = Some (Some (path t, e))
   else path t = [])
  /\ (ptype pat = Index -> childrenStartIndex t = None).
Proof.
  unfold scan_match.
  destruct (findMatchingParen text (indexOf text LPAREN s)) as [close|];
    [|done].
  step_bind. destruct (close =? -1); [done|].
  destruct (hasPath pat).
  - destruct (extractStringArg text (indexOf text LPAREN s + 1))
      as [[[p e]|]|]; [|done..].
    step_bind.
    destruct (ptype pat);
      repeat match goal with
      | |- context [extractStringArg ?a ?b] =>
          destruct (extractStringArg a b) as [?|]; [|done]; step_bind
      | |- context [findChildrenArray ?a ?b ?c] =>
          destruct (findChildrenArray a b c) as [?|]; [|done]; step_bind
      end; intros [= <-]; cbn; split; eauto; done.
  - step_bind.
    destruct (ptype pat);
      repeat match goal with
      | |- context [extractStringArg ?a ?b] =>
          destruct (extractStringArg a b) as [?|]; [|done]; step_bind
      | |- context [findChildrenArray ?a ?b ?c] =>
          destruct (findChildrenArray a b c) as [?|]; [|done]; step_bind
      end; intros [= <-]; cbn; split; eauto; done.
Qed.

Lemma token_span text tokens t :
  parseRouteTokens text = Some tokens -> t ∈ tokens ->
  0 <= startIndex t
  /\ substring text (startIndex t)
       (startIndex t + len (type_name (type t))) = type_name (type t)
  /\ (exists openParenIndex,
        startIndex t + len (type_name (type t)) <= openParenIndex < endIndex t
        /\ is_char text openParenIndex LPAREN = true
        /\ (forall k, startIndex t + len (type_name (type t)) <= k
                      < openParenIndex ->
              test_space (char_at text k) = true)
        /\ findMatchingParen text openParenIndex = Some (endIndex t))
  /\ endIndex t < len text
  /\ is_char text (endIndex t) RPAREN = true.
Proof.
  intros Hparse Ht.
  apply (parseRouteTokens_elem text tokens t Hparse) in Ht
    as (pat & s & Hpat & Hs & [e Hm] & Hscan).
  destruct (scan_match_total text pat s) as (r & Hr & Hspec).
  rewrite Hscan in Hr. injection Hr as <-.
  destruct (Hspec t eq_refl) as (Htype & Hstart & Hclose & Hne & _).
  rewrite Htype, Hstart, <- (patterns_regex pat Hpat).
  rewrite (indexOf_match text (regex pat) s e) in Hclose;
    [|done|by intros c; apply patterns_no_paren|done].
  pose proof (match_at_bounds _ _ _ _ Hm) as Hb.
  pose proof Hm as (Hlit & Hle & Hparen & Hsp)%match_at_Some.
  destruct (findMatchingParen_found text (e - 1) (endIndex t))
    as [Hspan Hrp]; [lia|done|done|].
  split; [done|]. split; [by apply literal_substring|].
  split; [|split; [lia|done]].
  exists (e - 1). repeat split; (done || lia).
Qed.

(** ** Lines and columns along the text *)

Lemma getLineFromIndex_step text i :
  0 <= i < len text ->
  getLineFromIndex text (i + 1)
  = getLineFromIndex text i + (if is_char text i NEWLINE then 1 else 0).
Proof.
  intros Hi. unfold getLineFromIndex.
  rewrite !substring_chars_between by lia.
  unfold chars_between, suffix. change (Z.to_nat 0) with 0%nat.
  rewrite !drop_0, !Z.sub_0_r.
  destruct (char_at_lt text i Hi) as [c Hc].
  rewrite (is_char_false _ _ _ _ Hc).
  unfold char_at in Hc. destruct (Z.ltb_spec i 0) as [Hneg|_]; [lia|].
  assert (Z.to_nat (i + 1) = S (Z.to_nat i)) as -> by lia.
  rewrite (take_S_r _ _ _ Hc), filter_app, length_app.
  rewrite filter_cons, filter_nil.
  destruct (N.eqb_spec c NEWLINE) as [->|Hne].
  - rewrite decide_True by done. cbn [length]. lia.
  - rewrite decide_False by done. cbn [length]. lia.
Qed.

Lemma lastIndexOf_before text c i :
  0 <= i < len text -> is_char text i c = false ->
  lastIndexOf text c (i - 1) = last_index_below (Z.to_nat i) text c.
Proof.
  intros Hi Hc. unfold lastIndexOf. cbv zeta.
  destruct (Z.eq_dec i 0) as [->|Hne].
  - assert (Z.min (Z.max (0 - 1) 0) (len text - 1) = 0) as -> by lia.
    change (Z.to_nat (0 + 1)) with 1%nat. change (Z.to_nat 0) with 0%nat.
    cbn [last_index_below]. change (Z.of_nat 0) with 0. by rewrite Hc.
  - assert (Z.min (Z.max (i - 1) 0) (len text - 1) = i - 1) as -> by lia.
    f_equal. lia.
Qed.

Lemma getColumnFromIndex_step text i :
  0 <= i < len text ->
  getColumnFromIndex text (i + 1)
  = if is_char text i NEWLINE then 0 else getColumnFromIndex text i + 1.
Proof.
  intros Hi. unfold getColumnFromIndex. cbv zeta.
  destruct (is_char text i NEWLINE) eqn:Hc.
  - unfold lastIndexOf. cbv zeta.
    assert (i + 1 - 1 = i) as -> by lia.
    assert (Z.min (Z.max i 0) (len text - 1) = i) as -> by lia.
    assert (Z.to_nat (i + 1) = S (Z.to_nat i)) as -> by lia.
    cbn [last_index_below]. rewrite Z2Nat.id by lia. rewrite Hc. lia.
  - rewrite (lastIndexOf_before text NEWLINE i Hi Hc).
    unfold lastIndexOf. cbv zeta.
    assert (i + 1 - 1 = i) as -> by lia.
    assert (Z.min (Z.max i 0) (len text - 1) = i) as -> by lia.
    assert (Z.to_nat (i + 1) = S (Z.to_nat i)) as -> by lia.
    cbn [last_index_below]. rewrite Z2Nat.id by lia. rewrite Hc. lia.
Qed.

Lemma getColumnFromIndex_zero text :
  getColumnFromIndex text 0 = if is_char text 0 NEWLINE then -1 else 0.
Proof.
  unfold getColumnFromIndex, lastIndexOf. cbv zeta.
  destruct (Z.le_gt_cases (len text) 0) as [Hempty|Hne].
  - assert (is_char text 0 NEWLINE = false) as ->.
    { unfold is_char. by rewrite char_at_ge. }
    assert (Z.min (Z.max (0 - 1) 0) (len text - 1) = -1) as ->
      by (unfold len in *; lia).
    done.
  - assert (Z.min (Z.max (0 - 1) 0) (len text - 1) = 0) as -> by lia.
    change (Z.to_nat (0 + 1)) with 1%nat.
    cbn [last_index_below]. change (Z.of_nat 0) with 0.
    by destruct (is_char text 0 NEWLINE).
Qed.

(** Along a stretch without a newline the line stays and the column
    counts the characters. *)
Lemma same_line text s (n : nat) :
  0 <= s -> s + Z.of_nat n <= len text ->
  (forall k, s <= k < s + Z.of_nat n -> is_char text k NEWLINE = false) ->
  getLineFromIndex text (s + Z.of_nat n) = getLineFromIndex text s
  /\ getColumnFromIndex text (s + Z.of_nat n)
     = getColumnFromIndex text s + Z.of_nat n.
Proof.
  intros Hs. induction n as [|n IH]; intros Hlen Hnl.
  - rewrite Z.add_0_r. lia.
  - destruct IH as [IHl IHc]; [lia|intros k Hk; apply Hnl; lia|].
    assert (s + Z.of_nat (S n) = s + Z.of_nat n + 1) as -> by lia.
    rewrite getLineFromIndex_step, getColumnFromIndex_step by lia.
    rewrite (Hnl (s + Z.of_nat n)) by lia. lia.
Qed.

(** The position moves forward with the offset: to a later line, or to a
    later column of the same line. *)
Lemma position_increases text i (k : nat) :
  0 <= i -> i + Z.of_nat (S k) <= len text ->
  getLineFromIndex text i < getLineFromIndex text (i + Z.of_nat (S k))
  \/ (getLineFromIndex text i = getLineFromIndex text (i + Z.of_nat (S k))
      /\ getColumnFromIndex text i
         < getColumnFromIndex text (i + Z.of_nat (S k))).
Proof.
  intros Hi. induction k as [|k IH]; intros Hlen.
  - change (Z.of_nat 1) with 1.
    rewrite getLineFromIndex_step, getColumnFromIndex_step by lia.
    destruct (is_char text i NEWLINE); lia.
  - assert (i + Z.of_nat (S (S k)) = i + Z.of_nat (S k) + 1) as -> by lia.
    rewrite getLineFromIndex_step, getColumnFromIndex_step by lia.
    destruct (is_char text (i + Z.of_nat (S k)) NEWLINE) eqn:Hc.
    + left. lia.
    + destruct IH as [IH|IH]; [lia|left; lia|right; lia].
Qed.

(** ** Children and parents name each other *)

Lemma sorted_snoc (l : list nat) (i : nat) :
  StronglySorted lt l -> (forall c, c ∈ l -> (c < i)%nat) ->
  StronglySorted lt (l ++ [i]).
Proof.
  induction 1 as [|x l Hl IH Hx]; intros Hlt; cbn [app].
  - repeat constructor.
  - constructor.
    + apply IH. intros c Hc. apply Hlt. by right.
    + apply Forall_app. split; [done|]. apply Forall_singleton.
      apply Hlt. by left.
Qed.

Lemma sorted_NoDup (l : list nat) : StronglySorted lt l -> NoDup l.
Proof.
  induction 1 as [|x l Hl IH Hx]; constructor; [|done].
  intros Hin. rewrite Forall_forall in Hx. specialize (Hx x Hin). lia.
Qed.

Lemma links_step_root tokens i nodes roots :
  tree_inv tokens i nodes roots -> links_inv nodes roots ->
  links_inv nodes (roots ++ [i]).
Proof.
  intros Hinv [Hlisted Hord Hroots]. split; [done..|].
  apply sorted_snoc; [done|]. intros r Hr.
  by apply (inv_roots _ _ _ _ Hinv) in Hr as [Hr _].
Qed.

Lemma links_step_child tokens i nodes roots node j pp :
  tree_inv tokens i nodes roots -> links_inv nodes roots ->
  nodes !! i = Some node -> nodes !! j = Some pp -> (j < i)%nat ->
  links_inv (<[i := set_parent node j]> (<[j := push_child pp i]> nodes)) roots.
Proof.
  intros [Htok Hpar Hfresh Hch Hrootsinv] [Hlisted Hord Hroots] Hnode Hpp Hji.
  set (nodes' := <[i := set_parent node j]> (<[j := push_child pp i]> nodes)).
  pose proof (lookup_lt_Some _ _ _ Hnode) as Hilen.
  pose proof (lookup_lt_Some _ _ _ Hpp) as Hjlen.
  assert (forall k n, nodes' !! k = Some n <->
            (k = i /\ n = set_parent node j)
            \/ (k = j /\ n = push_child pp i)
            \/ (k <> i /\ k <> j /\ nodes !! k = Some n)) as Hlook.
  { intros k n. unfold nodes'. rewrite !list_lookup_insert_Some, !length_insert.
    split.
    - intros [(<- & <- & _)|[Hne [(<- & <- & _)|[Hne' Hk]]]]; eauto.
    - intros [[-> ->]|[[-> ->]|(Hki & Hkj & Hk)]].
      + left. repeat split; (done || lia).
      + right. split; [lia|]. left. repeat split; (done || lia).
      + right. split; [congruence|]. right. split; [congruence|done]. }
  destruct (Hfresh i node Hnode) as [Hnopar Hnil]; [lia|].
  split; [| |done].
  - intros c nc k [[-> ->]|[[-> ->]|(Hci & Hcj & Hc)]]%Hlook Hp.
    + cbn [set_parent parent] in Hp. injection Hp as <-.
      exists (push_child pp i). split; [apply Hlook; eauto|].
      cbn [push_child children]. apply elem_of_app. right. by left.
    + cbn [push_child parent] in Hp.
      destruct (Hlisted j pp k Hpp Hp) as (n & Hn & Hin).
      destruct (Hch k n j Hn Hin) as [Hr _].
      exists n. split; [|done]. apply Hlook. right. right.
      repeat split; [lia|lia|done].
    + destruct (Hlisted c nc k Hc Hp) as (n & Hn & Hin).
      destruct (decide (k = j)) as [->|Hkj].
      * exists (push_child pp i). split; [apply Hlook; eauto|].
        assert (n = pp) as -> by congruence.
        cbn [push_child children]. apply elem_of_app. by left.
      * destruct (decide (k = i)) as [->|Hki].
        { assert (n = node) as -> by congruence.
          rewrite Hnil in Hin. by apply elem_of_nil in Hin. }
        exists n. split; [|done]. apply Hlook. right. right. done.
  - intros k n [[-> ->]|[[-> ->]|(Hki & Hkj & Hk)]]%Hlook.
    + cbn [set_parent children]. rewrite Hnil. constructor.
    + cbn [push_child children]. apply sorted_snoc; [by apply (Hord j)|].
      intros c Hc. destruct (Hch j pp c Hpp Hc) as [Hr _]. lia.
    + by apply (Hord k).
Qed.

Lemma build_loop_links tokens count : forall i nodes roots roots' nodes',
  tree_inv tokens i nodes roots -> links_inv nodes roots ->
  (i + count = length tokens)%nat ->
  build_loop count i nodes roots = Some (roots', nodes') ->
  links_inv nodes' roots'.
Proof.
  induction count as [|count IH]; intros i nodes roots roots' nodes' Hinv Hlinks Hlen.
  { cbn [build_loop]. by intros [= <- <-]. }
  cbn [build_loop]. pose proof (tree_inv_length _ _ _ _ Hinv) as Hnodes.
  destruct (lookup_lt_is_Some_2 nodes i) as [node Hnode]; [lia|].
  rewrite Hnode. step_bind.
  destruct (parent_loop_spec tokens nodes (inv_tokens _ _ _ _ Hinv) node i i)
    as (found & Hfound & Hspec); [lia|intros; lia|].
  rewrite Hfound. step_bind. destruct found as [j|].
  - destruct Hspec as (Hji & (tj & Htj & Henc) & Hnone).
    destruct (token_node tokens nodes (inv_tokens _ _ _ _ Hinv) j tj Htj)
      as (pp & Hpp & <-).
    rewrite Hpp. step_bind.
    rewrite list_lookup_insert_ne by lia. rewrite Hnode. step_bind.
    apply IH; [by apply inv_step_child|by eapply links_step_child|lia].
  - apply IH; [by apply (inv_step_root _ _ _ _ node)|
               by eapply links_step_root|lia].
Qed.

Lemma buildTree_links tokens roots nodes :
  buildTree tokens = Some (roots, nodes) -> links_inv nodes roots.
Proof.
  unfold buildTree. apply (build_loop_links tokens); [| |lia].
  - split.
    + rewrite <- list_fmap_compose. by rewrite list_fmap_id.
    + intros; lia.
    + intros k n Hk _. apply list_lookup_fmap_Some in Hk as (t & -> & _). done.
    + intros k n c Hk Hc. apply list_lookup_fmap_Some in Hk as (t & -> & _).
      by apply elem_of_nil in Hc.
    + intros r. rewrite elem_of_nil. split; [done|]. intros [? _]. lia.
  - split.
    + intros c nc k Hc Hp.
      apply list_lookup_fmap_Some in Hc as (t & -> & _). done.
    + intros k n Hk. apply list_lookup_fmap_Some in Hk as (t & -> & _).
      constructor.
    + constructor.
Qed.

(** ** Every node is visited once *)

Section visits.
Context (tokens : list RouteToken) (roots : list nat) (nodes : list TreeNode).
Hypothesis Hinv : tree_inv tokens (length tokens) nodes roots.
Hypothesis Hlinks : links_inv nodes roots.

Lemma ancestor_le a i : ancestor nodes a i -> (a <= i)%nat.
Proof.
  induction 1 as [n Hn|i n j Hi Hp _ IH]; [done|].
  pose proof (parent_lt tokens roots nodes Hinv i n j Hi Hp). lia.
Qed.

Lemma ancestor_node a i : ancestor nodes a i -> (i < length nodes)%nat.
Proof. intros [n Hn|? n j Hi _ _]; by eapply lookup_lt_Some. Qed.

Lemma ancestor_below a n c i :
  nodes !! c = Some n -> parent n = Some a -> ancestor nodes c i ->
  ancestor nodes a i.
Proof.
  intros Hc Hp. induction 1 as [n' Hn'|i n' j Hi Hp' _ IH].
  - destruct (inv_listed _ _ Hlinks c n a Hc Hp) as (na & Hna & _).
    apply (ancestor_up nodes a c n a Hc Hp). by eapply ancestor_self.
  - by eapply ancestor_up.
Qed.

(** The ancestors of a node form one chain. *)
Lemma ancestor_chain a b i :
  ancestor nodes a i -> ancestor nodes b i ->
  ancestor nodes a b \/ ancestor nodes b a.
Proof.
  intros Ha. revert b. induction Ha as [n Hn|i n j Hi Hp Ha IH]; intros b Hb.
  - by right.
  - inversion Hb as [n' Hn'|i' n' j' Hi' Hp' Hb']; subst.
    + left. exact (ancestor_up nodes a i n j Hi Hp Ha).
    + assert (j' = j) as -> by congruence. by apply IH.
Qed.

Lemma ancestor_proper a i n :
  ancestor nodes a i -> a <> i -> nodes !! i = Some n ->
  exists j, parent n = Some j /\ ancestor nodes a j.
Proof.
  intros [n' Hn'|? n' j Hi Hp Ha] Hne Hn; [done|].
  exists j. split; [congruence|done].
Qed.

(** Two children of one node have no descendant in common. *)
Lemma siblings_apart k c c' nc nc' i :
  nodes !! c = Some nc -> parent nc = Some k ->
  nodes !! c' = Some nc' -> parent nc' = Some k -> c <> c' ->
  ancestor nodes c i -> ancestor nodes c' i -> False.
Proof.
  intros Hc Hp Hc' Hp' Hne Ha Ha'.
  destruct (ancestor_chain c c' i Ha Ha') as [H|H].
  - destruct (ancestor_proper c c' nc' H Hne Hc') as (j & Hj & Hup).
    assert (j = k) as -> by congruence.
    apply ancestor_le in Hup.
    pose proof (parent_lt tokens roots nodes Hinv c nc k Hc Hp). lia.
  - destruct (ancestor_proper c' c nc H (not_eq_sym Hne) Hc) as (j & Hj & Hup).
    assert (j = k) as -> by congruence.
    apply ancestor_le in Hup.
    pose proof (parent_lt tokens roots nodes Hinv c' nc' k Hc' Hp'). lia.
Qed.

(** A descendant of [k] other than [k] descends from a child of [k]. *)
Lemma ancestor_child k n i :
  nodes !! k = Some n -> ancestor nodes k i ->
  i = k \/ exists c, c ∈ children n /\ ancestor nodes c i.
Proof.
  intros Hk. induction 1 as [n' Hn'|i n' j Hi Hp Ha IH]; [by left|].
  right. destruct IH as [->|(c & Hc & Hup)].
  - destruct (inv_listed _ _ Hlinks i n' k Hi Hp) as (n'' & Hn'' & Hin).
    assert (n'' = n) as -> by congruence.
    exists i. split; [done|]. by eapply ancestor_self.
  - exists c. split; [done|]. by eapply ancestor_up.
Qed.

Lemma record_at_node text i n full :
  nodes !! i = Some n -> calculateFullPath nodes i = Some full ->
  omap (record_at text nodes) [i]
  = if negb (is_prefix (type (token n))) then [record_of text n full] else [].
Proof.
  intros Hn Hfull. cbn [omap list_omap]. unfold record_at.
  rewrite Hn. step_bind. rewrite Hfull. step_bind.
  by destruct (is_prefix (type (token n))).
Qed.

(** [traverse] appends the records of the node and of its descendants,
    each once. *)
Lemma traverse_visits text fuel : forall node routes,
  (node < length nodes)%nat -> (length nodes - node <= fuel)%nat ->
  exists visited,
    traverse fuel text nodes node routes
    = Some (routes ++ omap (record_at text nodes) visited)
    /\ NoDup visited
    /\ forall i, i ∈ visited <-> ancestor nodes node i.
Proof.
  induction fuel as [|fuel IH]; intros node routes Hnode Hfuel; [lia|].
  cbn [traverse].
  destruct (lookup_lt_is_Some_2 nodes node Hnode) as [n Hn].
  rewrite Hn. step_bind.
  destruct (calculateFullPath_total tokens roots nodes Hinv node Hnode)
    as [full Hfull].
  rewrite Hfull. step_bind.
  assert (forall cs acc,
    (forall c, c ∈ cs -> c ∈ children n) -> NoDup cs ->
    exists vis,
      (fix each (cs : list nat) (routes : list RouteInfo) {struct cs} :=
         match cs with
         | [] => Some routes
         | child :: cs' =>
             routes' ← traverse fuel text nodes child routes;
             each cs' routes'
         end) cs acc
      = Some (acc ++ omap (record_at text nodes) vis)
      /\ NoDup vis
      /\ forall i, i ∈ vis <-> exists c, c ∈ cs /\ ancestor nodes c i)
    as Heach.
  { induction cs as [|c cs IHcs]; intros acc Hsub Hnd.
    - exists []. rewrite app_nil_r. split; [done|]. split; [constructor|].
      intros i. rewrite elem_of_nil. split; [done|].
      intros (c & Hc & _). by apply elem_of_nil in Hc.
    - apply NoDup_cons in Hnd as [Hnotin Hnd].
      assert (c ∈ children n) as Hc by (apply Hsub; by left).
      destruct (inv_children _ _ _ _ Hinv node n c Hn Hc)
        as [Hr (nc & Hnc & Hpc)].
      destruct (IH c acc) as (vc & -> & Hndc & Hvc).
      { by eapply lookup_lt_Some. }
      { lia. }
      step_bind.
      destruct (IHcs (acc ++ omap (record_at text nodes) vc))
        as (vs & -> & Hnds & Hvs); [intros c' Hc'; apply Hsub; by right|done|].
      exists (vc ++ vs). rewrite omap_app, app_assoc. split; [done|]. split.
      + apply NoDup_app. split; [done|]. split; [|done].
        intros i Hi Hi'. apply Hvc in Hi. apply Hvs in Hi' as (c' & Hc' & Hup).
        assert (c' ∈ children n) as Hc'n by (apply Hsub; by right).
        destruct (inv_children _ _ _ _ Hinv node n c' Hn Hc'n)
          as [_ (nc' & Hnc' & Hpc')].
        apply (siblings_apart node c c' nc nc' i); try done.
        intros ->. done.
      + intros i. rewrite elem_of_app, Hvc, Hvs. split.
        * intros [Hup|(c' & Hc' & Hup)].
          -- exists c. split; [by left|done].
          -- exists c'. split; [by right|done].
        * intros (c' & [->|Hc']%elem_of_cons & Hup); [by left|].
          right. by exists c'. }
  match goal with |- context [_ (children n) ?r] => set (routes1 := r) end.
  destruct (Heach (children n) routes1) as (vis & -> & Hnd & Hvis);
    [done|apply sorted_NoDup, (inv_ordered _ _ Hlinks node n Hn)|].
  exists (node :: vis). split; [|split].
  - f_equal. change (node :: vis) with ([node] ++ vis).
    rewrite omap_app, (record_at_node text node n full Hn Hfull), app_assoc.
    unfold routes1. f_equal.
    destruct (is_prefix (type (token n))); cbn [negb]; [by rewrite app_nil_r|done].
  - constructor; [|done]. intros (c & Hc & Hup)%Hvis.
    apply ancestor_le in Hup.
    destruct (inv_children _ _ _ _ Hinv node n c Hn Hc) as [Hr _]. lia.
  - intros i. rewrite elem_of_cons, Hvis. split.
    + intros [->|(c & Hc & Hup)]; [by eapply ancestor_self|].
      destruct (inv_children _ _ _ _ Hinv node n c Hn Hc)
        as [_ (nc & Hnc & Hpc)].
      by eapply ancestor_below.
    + intros Hup. by apply (ancestor_child node n i Hn) in Hup.
Qed.

Lemma ancestor_root i :
  (i < length nodes)%nat -> exists r, r ∈ roots /\ ancestor nodes r i.
Proof.
  induction (lt_wf i) as [i _ IH]. intros Hi.
  destruct (lookup_lt_is_Some_2 nodes i Hi) as [n Hn].
  destruct (parent n) as [j|] eqn:Hp.
  - pose proof (parent_lt tokens roots nodes Hinv i n j Hn Hp) as Hj.
    destruct (IH j Hj) as (r & Hr & Hup); [lia|].
    exists r. split; [done|]. by eapply ancestor_up.
  - exists i. split; [|by eapply ancestor_self].
    apply (inv_roots _ _ _ _ Hinv).
    rewrite <- (tree_inv_length _ _ _ _ Hinv). eauto.
Qed.

Lemma traverse_roots_visits text : forall rs routes,
  (forall r, r ∈ rs -> r ∈ roots) -> NoDup rs ->
  exists visited,
    traverse_roots text nodes rs routes
    = Some (routes ++ omap (record_at text nodes) visited)
    /\ NoDup visited
    /\ forall i, i ∈ visited <-> exists r, r ∈ rs /\ ancestor nodes r i.
Proof.
  induction rs as [|r rs IH]; intros routes Hsub Hnd.
  - exists []. rewrite app_nil_r. split; [done|]. split; [constructor|].
    intros i. rewrite elem_of_nil. split; [done|].
    intros (c & Hc & _). by apply elem_of_nil in Hc.
  - apply NoDup_cons in Hnd as [Hnotin Hnd]. cbn [traverse_roots].
    assert (r ∈ roots) as Hr by (apply Hsub; by left).
    apply (inv_roots _ _ _ _ Hinv) in Hr as [Hrlt (nr & Hnr & Hpr)].
    destruct (traverse_visits text (S (length nodes)) r routes)
      as (vr & -> & Hndr & Hvr); [by eapply lookup_lt_Some|lia|].
    step_bind.
    destruct (IH (routes ++ omap (record_at text nodes) vr))
      as (vs & -> & Hnds & Hvs); [intros r' Hr'; apply Hsub; by right|done|].
    exists (vr ++ vs). rewrite omap_app, app_assoc. split; [done|]. split.
    + apply NoDup_app. split; [done|]. split; [|done].
      intros i Hi Hi'. apply Hvr in Hi. apply Hvs in Hi' as (r' & Hr' & Hup).
      assert (r' ∈ roots) as Hr'r by (apply Hsub; by right).
      apply (inv_roots _ _ _ _ Hinv) in Hr'r as [_ (nr' & Hnr' & Hpr')].
      assert (r <> r') as Hne by (intros ->; done).
      destruct (ancestor_chain r r' i Hi Hup) as [H|H].
      * destruct (ancestor_proper r r' nr' H Hne Hnr') as (j & Hj & _).
        congruence.
      * destruct (ancestor_proper r' r nr H (not_eq_sym Hne) Hnr) as (j & Hj & _).
        congruence.
    + intros i. rewrite elem_of_app, Hvr, Hvs. split.
      * intros [Hup|(r' & Hr' & Hup)].
        -- exists r. split; [by left|done].
        -- exists r'. split; [by right|done].
      * intros (r' & [->|Hr']%elem_of_cons & Hup); [by left|].
        right. by exists r'.
Qed.

Lemma traverse_roots_all text :
  exists visited,
    traverse_roots text nodes roots []
    = Some (omap (record_at text nodes) visited)
    /\ visited ≡ₚ seq 0 (length nodes).
Proof.
  destruct (traverse_roots_visits text roots [])
    as (visited & Hrun & Hnd & Hvis);
    [done|apply sorted_NoDup, (inv_roots_ordered _ _ Hlinks)|].
  exists visited. split; [done|].
  apply NoDup_Permutation; [done|apply NoDup_seq|].
  intros i. rewrite Hvis, elem_of_seq. split.
  - intros (r & _ & Hup). apply ancestor_node in Hup. lia.
  - intros [_ Hi]. by apply ancestor_root.
Qed.
End visits.

Lemma parseRoutesFile_records text routes :
  parseRoutesFile text = Some routes ->
  exists tokens roots nodes,
    parseRouteTokens text = Some tokens
    /\ buildTree tokens = Some (roots, nodes)
    /\ routes ≡ₚ omap (record_at text nodes) (seq 0 (length tokens)).
Proof.
  unfold parseRoutesFile.
  destruct (parseRouteTokens text) as [tokens|] eqn:Htokens; [|done]. step_bind.
  destruct (buildTree tokens) as [[roots nodes]|] eqn:Htree; [|done]. step_bind.
  intros Hroutes. exists tokens, roots, nodes. split; [done|]. split; [done|].
  pose proof (buildTree_tree_inv _ _ _ Htree) as Hinv.
  destruct (traverse_roots_all tokens roots nodes Hinv
              (buildTree_links _ _ _ Htree) text) as (visited & Hrun & Hperm).
  rewrite Hrun in Hroutes. injection Hroutes as <-.
  rewrite <- (tree_inv_length _ _ _ _ Hinv). by rewrite Hperm.
Qed.

(** ** Full paths along the tree *)

Lemma collapse_slashes_id s : double_slash s = false -> collapse_slashes s = s.
Proof.
  induction s as [|c s IH]; [done|]. destruct s as [|c' s]; [done|].
  rewrite double_slash_cons. intros [Hc Hs]%orb_false_iff.
  cbn [collapse_slashes]. rewrite Hc. f_equal. by apply IH.
Qed.

Lemma strip_collapse_slash x :
  strip_leading_slashes (collapse_slashes (SLASH :: x))
  = strip_leading_slashes (collapse_slashes x).
Proof.
  destruct x as [|c x]; [done|]. cbn [collapse_slashes].
  change (SLASH =? SLASH)%N with true. cbn [andb].
  destruct (c =? SLASH)%N; [done|].
  cbn [strip_leading_slashes]. by change (SLASH =? SLASH)%N with true.
Qed.

Lemma strip_collapse_strip z y :
  strip_leading_slashes (collapse_slashes (strip_leading_slashes z ++ y))
  = strip_leading_slashes (collapse_slashes (z ++ y)).
Proof.
  induction z as [|c z IH]; [done|]. cbn [strip_leading_slashes].
  destruct (N.eqb_spec c SLASH) as [->|Hne]; [|done].
  rewrite IH. cbn [app]. by rewrite strip_collapse_slash.
Qed.

Lemma collapse_slashes_app s y :
  collapse_slashes (collapse_slashes s ++ y) = collapse_slashes (s ++ y).
Proof.
  induction s as [|c s IH]; [done|]. destruct s as [|c' s]; [done|].
  pose proof (head_collapse_slashes (c' :: s)) as Hhead.
  cbn [collapse_slashes app] in *.
  destruct ((c =? SLASH)%N && (c' =? SLASH)%N) eqn:Hc; [exact IH|].
  match type of Hhead with head ?l = _ => destruct l as [|c'' rest] end;
    [done|].
  cbn [head] in Hhead. injection Hhead as ->.
  cbn [app collapse_slashes]. rewrite Hc. f_equal. exact IH.
Qed.

Lemma join_snoc parts seg :
  parts <> [] -> join (parts ++ [seg]) = join parts ++ SLASH :: seg.
Proof.
  induction parts as [|p parts IH]; [done|]. intros _.
  destruct parts as [|p' parts]; [done|].
  change (join ((p :: p' :: parts) ++ [seg]))
    with (p ++ SLASH :: join ((p' :: parts) ++ [seg])).
  rewrite IH by done.
  change (join (p :: p' :: parts)) with (p ++ SLASH :: join (p' :: parts)).
  by rewrite <- app_assoc.
Qed.

(** Resolving segment by segment: the path of a longer chain is the
    normal form of the path so far, a slash and the next segment. *)
Lemma resolve_snoc parts seg :
  resolve (parts ++ [seg])
  = SLASH :: strip_leading_slashes
               (collapse_slashes (resolve parts ++ SLASH :: seg)).
Proof.
  unfold resolve. f_equal. cbn [app]. rewrite strip_collapse_slash.
  rewrite strip_collapse_strip, collapse_slashes_app.
  destruct parts as [|p parts].
  - cbn [app join]. by rewrite strip_collapse_slash.
  - by rewrite join_snoc.
Qed.

Lemma join_plain parts :
  Forall (fun p => p <> [] /\ SLASH ∉ p) parts ->
  double_slash (join parts) = false /\ head (join parts) <> Some SLASH.
Proof.
  assert (forall p rest, SLASH ∉ p -> head rest <> Some SLASH ->
            double_slash rest = false -> double_slash (p ++ SLASH :: rest) = false)
    as Hplain.
  { induction p as [|c p IHp]; intros rest Hp Hrest Hd.
    - cbn [app]. destruct rest as [|c' rest]; [done|].
      rewrite double_slash_cons, Hd.
      destruct (N.eqb_spec c' SLASH) as [->|_]; [done|].
      by rewrite andb_false_r.
    - apply not_elem_of_cons in Hp as [Hc Hp]. cbn [app].
      destruct (p ++ SLASH :: rest) as [|c' rest'] eqn:Hl.
      { by destruct p. }
      rewrite double_slash_cons, <- Hl, (IHp rest Hp Hrest Hd).
      destruct (N.eqb_spec c SLASH) as [->|_]; [done|]. done. }
  assert (forall p, SLASH ∉ p -> double_slash p = false) as Hone.
  { induction p as [|c p IHp]; [done|]. intros [Hc Hp]%not_elem_of_cons.
    destruct p as [|c' p]; [done|]. rewrite double_slash_cons, (IHp Hp).
    destruct (N.eqb_spec c SLASH) as [->|_]; done. }
  induction 1 as [|p parts [Hne Hp] Hall [IHd IHh]]; [done|].
  destruct parts as [|p' parts].
  - cbn [join]. split; [by apply Hone|].
    destruct p as [|c p]; [done|]. apply not_elem_of_cons in Hp as [Hc _].
    cbn. congruence.
  - change (join (p :: p' :: parts)) with (p ++ SLASH :: join (p' :: parts)).
    split; [by apply Hplain|].
    destruct p as [|c p]; [done|]. apply not_elem_of_cons in Hp as [Hc _].
    cbn. congruence.
Qed.

Lemma strip_leading_slashes_id s :
  head s <> Some SLASH -> strip_leading_slashes s = s.
Proof.
  destruct s as [|c s]; [done|]. cbn. intros Hc.
  destruct (N.eqb_spec c SLASH) as [->|_]; done.
Qed.

Lemma resolve_plain parts :
  Forall (fun p => p <> [] /\ SLASH ∉ p) parts ->
  resolve parts = SLASH :: join parts.
Proof.
  intros [Hd Hh]%join_plain. unfold resolve.
  by rewrite collapse_slashes_id, strip_leading_slashes_id.
Qed.

Lemma root_path_parent nodes i n j chain :
  nodes !! i = Some n -> parent n = Some j -> root_path nodes i chain ->
  exists chain', chain = chain' ++ [n] /\ root_path nodes j chain'.
Proof.
  intros Hn Hp Hpath.
  inversion Hpath as [i' n' Hi Hp'|i' n' j' chain' Hi Hp' Hup]; subst.
  - congruence.
  - assert (n' = n) as -> by congruence.
    assert (j' = j) as -> by congruence. eauto.
Qed.

Section paths.
Context (tokens : list RouteToken) (roots : list nat) (nodes : list TreeNode).
Hypothesis Hinv : tree_inv tokens (length tokens) nodes roots.

Lemma calculateFullPath_child i n j :
  nodes !! i = Some n -> parent n = Some j ->
  exists above,
    calculateFullPath nodes j = Some above
    /\ calculateFullPath nodes i
       = Some (if negb (is_layout (type (token n))) && truthy (path (token n))
               then SLASH :: strip_leading_slashes
                               (collapse_slashes
                                  (above ++ SLASH :: path (token n)))
               else above).
Proof.
  intros Hn Hp.
  pose proof (parent_lt tokens roots nodes Hinv i n j Hn Hp) as Hj.
  pose proof (lookup_lt_Some _ _ _ Hn) as Hi.
  destruct (root_path_exists tokens roots nodes Hinv j) as [chain Hchain];
    [lia|].
  pose proof (root_path_step nodes i n j chain Hn Hp Hchain) as Hfull.
  rewrite (calculateFullPath_spec tokens roots nodes Hinv j chain Hchain).
  rewrite (calculateFullPath_spec tokens roots nodes Hinv i _ Hfull).
  eexists. split; [done|]. f_equal. rewrite nonempty_segments_snoc.
  destruct (negb (is_layout (type (token n))) && truthy (path (token n))).
  - apply resolve_snoc.
  - by rewrite app_nil_r.
Qed.

Lemma calculateFullPath_plain i chain :
  root_path nodes i chain ->
  (forall n, n ∈ chain -> SLASH ∉ path (token n)) ->
  calculateFullPath nodes i = Some (SLASH :: join (nonempty_segments chain)).
Proof.
  intros Hchain Hplain.
  rewrite (calculateFullPath_spec tokens roots nodes Hinv i chain Hchain).
  f_equal. apply resolve_plain. apply Forall_forall. intros p Hp.
  unfold nonempty_segments, declared_segments in Hp.
  apply list_elem_of_filter in Hp as [Hne Hp].
  apply list_elem_of_fmap in Hp as (n & -> & Hn).
  apply list_elem_of_filter in Hn as [_ Hn]. split; [done|by apply Hplain].
Qed.
End paths.

(** ** An index has no children *)

Lemma token_fields text tokens t :
  parseRouteTokens text = Some tokens -> t ∈ tokens ->
  (type t = Index \/ type t = Layout -> path t = [])
  /\ (type t = Index -> hasChildren t = false /\ childrenStartIndex t = None).
Proof.
  intros Hparse Ht.
  apply (parseRouteTokens_elem text tokens t Hparse) in Ht
    as (pat & s & Hpat & Hs & Hm & Hscan).
  destruct (scan_match_total text pat s) as (r & Hr & Hspec).
  rewrite Hscan in Hr. injection Hr as <-.
  destruct (Hspec t eq_refl) as (Htype & _ & _ & _ & Hhas & _).
  destruct (scan_match_fields text pat s t Hscan) as [Hpath Hch].
  rewrite Htype, Hhas. clear Hspec Hscan Hm.
  unfold patterns in Hpat. rewrite !elem_of_cons, elem_of_nil in Hpat.
  destruct Hpat as [->|[->|[->|[->|[]]]]]; cbn [ptype hasPath] in *;
    (split; [intros [?|?]|intros ?]); try done.
  by rewrite (Hch eq_refl).
Qed.

Lemma children_need_array tokens roots nodes k n :
  tree_inv tokens (length tokens) nodes roots ->
  nodes !! k = Some n -> children n <> [] -> hasChildren (token n) = true.
Proof.
  intros Hinv Hn Hne. destruct (children n) as [|c cs] eqn:Hcs; [done|].
  destruct (inv_children _ _ _ _ Hinv k n c Hn) as [Hr (nc & Hnc & Hp)];
    [rewrite Hcs; by left|].
  pose proof (inv_parent _ _ _ _ Hinv c nc Hnc ltac:(lia)) as Hnear.
  rewrite Hp in Hnear. destruct Hnear as (_ & (tj & ti & Htj & _ & Hin) & _).
  pose proof (node_token tokens nodes (inv_tokens _ _ _ _ Hinv) k n Hn) as Htk.
  assert (tj = token n) as -> by congruence. by destruct Hin.
Qed.

(** ** The range of a record *)

Lemma type_name_plain t c :
  c ∈ type_name t -> c <> NEWLINE.
Proof.
  destruct t; vm_compute type_name; rewrite !elem_of_cons, elem_of_nil;
    intros Hc ->; repeat (destruct Hc as [Hc|Hc]; [discriminate Hc|]); done.
Qed.

Lemma token_keyword_line text tokens t :
  parseRouteTokens text = Some tokens -> t ∈ tokens ->
  let s := startIndex t in
  let e := startIndex t + len (type_name (type t)) in
  0 <= s /\ e < len text
  /\ substring text s e = type_name (type t)
  /\ getLineFromIndex text e = getLineFromIndex text s
  /\ getColumnFromIndex text e
     = getColumnFromIndex text s + len (type_name (type t)).
Proof.
  intros Hparse Ht s e.
  destruct (token_span text tokens t Hparse Ht)
    as (Hs & Hsub & (p & Hp & Hopen & _) & Hend & _).
  fold s e in Hs, Hsub, Hp.
  split; [done|]. split; [lia|]. split; [done|].
  unfold e, len at 1 3.
  apply same_line; [done|fold (len (type_name (type t))); lia|].
  intros k Hk. fold (len (type_name (type t))) in Hk.
  assert (exists c, char_at text k = Some c /\ c ∈ type_name (type t))
    as (c & Hc & Hin).
  { rewrite substring_chars_between in Hsub by (unfold e, len; lia).
    destruct (lookup_lt_is_Some_2 (type_name (type t)) (Z.to_nat (k - s)))
      as [c Hc]; [unfold len in Hk; lia|].
    exists c. split; [|by eapply list_elem_of_lookup_2].
    rewrite <- Hsub in Hc.
    apply chars_between_lookup in Hc as [Hc _]; [|done].
    by replace (s + Z.of_nat (Z.to_nat (k - s))) with k in Hc by lia. }
  rewrite (is_char_false _ _ _ _ Hc).
  apply N.eqb_neq. by eapply type_name_plain.
Qed.

(** ** Reading back an escaped string *)

Lemma suffix_head text i c rest :
  0 <= i -> suffix text i = c :: rest ->
  char_at text i = Some c /\ suffix text (i + 1) = rest.
Proof.
  intros Hi Hs. unfold suffix in *.
  assert (text !! Z.to_nat i = Some c) as Hc.
  { pose proof (lookup_drop text (Z.to_nat i) 0) as H.
    rewrite Hs, Nat.add_0_r in H. done. }
  split.
  - unfold char_at. by destruct (Z.ltb_spec i 0) as [Hneg|_]; [lia|].
  - rewrite (drop_S _ _ _ Hc) in Hs. injection Hs as <-.
    f_equal. lia.
Qed.

Lemma skip_separators_run text c rest seps : forall i fuel,
  0 <= i -> suffix text i = seps ++ c :: rest ->
  Forall (fun x => test_separator (Some x) = true) seps ->
  test_separator (Some c) = false -> (length seps < fuel)%nat ->
  skip_separators fuel text i = Some (i + len seps).
Proof.
  induction seps as [|x seps IH]; intros i fuel Hi Hs Hseps Hc Hfuel.
  - destruct fuel as [|fuel]; [lia|]. cbn [skip_separators].
    apply suffix_head in Hs as [-> _]; [|done].
    rewrite Hc, andb_false_r. unfold len. cbn. f_equal. lia.
  - destruct fuel as [|fuel]; [cbn in Hfuel; lia|]. cbn [skip_separators].
    apply Forall_cons in Hseps as [Hx Hseps].
    apply suffix_head in Hs as [Hat Hs]; [|done].
    pose proof (char_at_Some _ _ _ Hat) as Hb.
    rewrite Hat, Hx. destruct (Z.ltb_spec i (len text)) as [_|Hout]; [|lia].
    cbn [andb]. rewrite (IH (i + 1) fuel); [|lia|done..|cbn in Hfuel; lia].
    f_equal. unfold len. cbn [length]. lia.
Qed.

Lemma length_suffix text i : 0 <= i -> length (suffix text i) = Z.to_nat (len text - i).
Proof. intros Hi. unfold suffix, len. rewrite length_drop. lia. Qed.

Lemma read_quoted_escape text quote tail : forall value i acc fuel,
  quote = DQUOTE \/ quote = SQUOTE ->
  tail = [] \/ (exists rest, tail = quote :: rest) ->
  0 <= i -> suffix text i = escape quote value ++ tail ->
  (length (escape quote value) < fuel)%nat ->
  read_quoted fuel text quote i acc
  = Some (i + len (escape quote value), acc ++ value).
Proof.
  induction value as [|c value IH]; intros i acc fuel Hq Htail Hi Hs Hfuel.
  - destruct fuel as [|fuel]; [lia|]. cbn [read_quoted].
    assert ((i <? len text) && negb (is_char text i quote) = false) as ->.
    { destruct Htail as [->|[rest ->]].
      - pose proof (length_suffix text i Hi) as Hlen. rewrite Hs in Hlen.
        cbn in Hlen. destruct (Z.ltb_spec i (len text)); [lia|done].
      - apply suffix_head in Hs as [Hat _]; [|done].
        apply is_char_true in Hat. by rewrite Hat, andb_false_r. }
    rewrite app_nil_r. unfold len. cbn. f_equal. f_equal. lia.
  - change (escape quote (c :: value))
      with ((if (c =? quote)%N || (c =? BACKSLASH)%N
             then [BACKSLASH; c] else [c]) ++ escape quote value) in *.
    destruct ((c =? quote)%N || (c =? BACKSLASH)%N) eqn:Hc.
    + destruct fuel as [|fuel]; [cbn in Hfuel; lia|]. cbn [read_quoted].
      cbn [app] in Hs.
      apply suffix_head in Hs as [Hat Hs]; [|done].
      apply suffix_head in Hs as [Hat' Hs]; [|lia].
      pose proof (char_at_Some _ _ _ Hat) as Hb.
      pose proof (char_at_Some _ _ _ Hat') as Hb'.
      rewrite (is_char_false _ _ _ _ Hat).
      assert ((BACKSLASH =? quote)%N = false) as -> by (by destruct Hq as [->| ->]).
      apply is_char_true in Hat. rewrite Hat.
      destruct (Z.ltb_spec i (len text)) as [_|Hout]; [|lia].
      destruct (Z.ltb_spec (i + 1) (len text)) as [_|Hout]; [|lia].
      cbn [negb andb]. rewrite Hat'. cbn [js_string_of].
      assert (i + 2 = i + 1 + 1) as -> by lia.
      rewrite (IH (i + 1 + 1)); [|done|done|lia|done|].
      * rewrite <- app_assoc. f_equal. f_equal.
        unfold len. rewrite length_app. cbn [length]. lia.
      * rewrite length_app in Hfuel. cbn [length] in Hfuel. lia.
    + destruct fuel as [|fuel]; [cbn in Hfuel; lia|]. cbn [read_quoted].
      cbn [app] in Hs. apply orb_false_iff in Hc as [Hcq Hcb].
      apply suffix_head in Hs as [Hat Hs]; [|done].
      pose proof (char_at_Some _ _ _ Hat) as Hb.
      rewrite !(is_char_false _ _ _ _ Hat), Hcq, Hcb.
      destruct (Z.ltb_spec i (len text)) as [_|Hout]; [|lia].
      cbn [negb andb]. rewrite Hat. cbn [js_string_of].
      rewrite (IH (i + 1)); [|done|done|lia|done|].
      * rewrite <- app_assoc. f_equal. f_equal.
        unfold len. rewrite length_app. cbn [length]. lia.
      * rewrite length_app in Hfuel. cbn [length] in Hfuel. lia.
Qed.

(** ** When [extractStringArg] finds no string *)

Lemma skip_separators_end text seps : forall i fuel,
  0 <= i -> suffix text i = seps ->
  Forall (fun x => test_separator (Some x) = true) seps ->
  (length seps < fuel)%nat ->
  exists r, skip_separators fuel text i = Some r /\ len text <= r.
Proof.
  induction seps as [|x seps IH]; intros i fuel Hi Hs Hseps Hfuel.
  - destruct fuel as [|fuel]; [lia|]. cbn [skip_separators].
    pose proof (length_suffix text i Hi) as Hlen. rewrite Hs in Hlen.
    cbn in Hlen. destruct (Z.ltb_spec i (len text)); [lia|].
    exists i. split; [done|lia].
  - destruct fuel as [|fuel]; [cbn in Hfuel; lia|]. cbn [skip_separators].
    apply Forall_cons in Hseps as [Hx Hseps].
    apply suffix_head in Hs as [Hat Hs]; [|done].
    pose proof (char_at_Some _ _ _ Hat) as Hb.
    rewrite Hat, Hx. destruct (Z.ltb_spec i (len text)) as [_|Hout]; [|lia].
    cbn [andb]. apply IH; [lia|done|done|cbn in Hfuel; lia].
Qed.

(** ** The project root *)

Section project_root.
Context {Uri : Type} (host : Host Uri) (filePath workspaceRoot : list N).

(** [path.dirname] gives a shorter path, or one that is its own parent. *)
Hypothesis Hdirname : forall d,
  dirname host d = d \/ (length (dirname host d) < length d)%nat
  \/ dirname host (dirname host d) = dirname host d.

Lemma turns_bound d : (turns host d <= S (S (length d)))%nat.
Proof. unfold turns. repeat case_decide; lia. Qed.

Lemma turns_step d :
  dirname host d <> d -> (turns host (dirname host d) < turns host d)%nat.
Proof.
  intros Hne. unfold turns.
  rewrite (decide_False (P := dirname host d = d)) by done.
  destruct (decide (dirname host (dirname host d) = dirname host d))
    as [Hfix|Hmove]; [lia|].
  destruct (Hdirname d) as [?|[Hshort|?]]; [done| |done].
  repeat case_decide; lia.
Qed.

Lemma root_loop_spec fuel : forall k,
  (turns host (directory_above host filePath k) < fuel)%nat ->
  (forall j, (j < k)%nat ->
     has_marker host (directory_above host filePath j) = false) ->
  exists root,
    root_loop fuel host filePath workspaceRoot (directory_above host filePath k)
    = Some root
    /\ (root = dirname host filePath
        \/ (has_marker host root = true /\ len workspaceRoot <= len root
            /\ dirname host root <> root
            /\ exists k', root = directory_above host filePath k'
                 /\ forall j, (j < k')%nat ->
                      has_marker host (directory_above host filePath j) = false)).
Proof.
  induction fuel as [|fuel IH]; intros k Hfuel Hnone; [lia|].
  cbn [root_loop]. case_bool_decide as Hmove; [|eauto].
  destruct (Z.ltb_spec (len (directory_above host filePath k)) (len workspaceRoot))
    as [Hshort|Hlong]; [eauto|].
  destruct (has_marker host (directory_above host filePath k)) eqn:Hmark.
  - eexists. split; [done|]. right. repeat split; [done..|eauto].
  - change (dirname host (directory_above host filePath k))
      with (directory_above host filePath (S k)).
    apply IH.
    + pose proof (turns_step (directory_above host filePath k)
                    (not_eq_sym Hmove)) as Hstep.
      change (dirname host (directory_above host filePath k))
        with (directory_above host filePath (S k)) in Hstep. lia.
    + intros j Hj. destruct (decide (j = k)) as [->|Hne]; [done|].
      apply Hnone. lia.
Qed.
End project_root.

(** ** Cleaning a path *)

Lemma strip_dots_slashes_spec rawPath :
  exists lead,
    rawPath = lead ++ strip_dots_slashes rawPath
    /\ Forall (fun c => c = DOT \/ c = SLASH) lead
    /\ forall c, head (strip_dots_slashes rawPath) = Some c ->
         c <> DOT /\ c <> SLASH.
Proof.
  induction rawPath as [|c rest (lead & Heq & Hlead & Hhead)].
  - exists []. repeat split; done.
  - cbn [strip_dots_slashes].
    destruct ((c =? DOT)%N || (c =? SLASH)%N) eqn:Hc.
    + exists (c :: lead). cbn [app]. split; [by f_equal|]. split; [|done].
      constructor; [|done].
      apply orb_true_iff in Hc as [->%N.eqb_eq| ->%N.eqb_eq]; eauto.
    + exists []. split; [done|]. split; [done|].
      intros c' [= <-]. apply orb_false_iff in Hc as [?%N.eqb_neq ?%N.eqb_neq].
      done.
Qed.

Lemma strip_dots_slashes_id s :
  (forall c, head s = Some c -> c <> DOT /\ c <> SLASH) ->
  strip_dots_slashes s = s.
Proof.
  destruct s as [|c s]; [done|]. intros Hc. cbn [strip_dots_slashes].
  destruct (Hc c eq_refl) as [?%N.eqb_neq ?%N.eqb_neq].
  by assert ((c =? DOT)%N || (c =? SLASH)%N = false) as ->
    by (apply orb_false_iff; done).
Qed.

Lemma strip_dots_slashes_app stem ext :
  (exists c, c ∈ stem /\ c <> DOT /\ c <> SLASH) ->
  strip_dots_slashes (stem ++ ext) = strip_dots_slashes stem ++ ext
  /\ strip_dots_slashes stem <> [].
Proof.
  induction stem as [|c stem IH]; intros (x & Hx & Hdot & Hslash).
  - by apply elem_of_nil in Hx.
  - cbn [app strip_dots_slashes].
    destruct ((c =? DOT)%N || (c =? SLASH)%N) eqn:Hc; [|done].
    apply IH. exists x. split; [|done].
    apply elem_of_cons in Hx as [->|Hx]; [|done].
    apply orb_true_iff in Hc as [?%N.eqb_eq|?%N.eqb_eq]; done.
Qed.

Lemma endsWith_app stem ext : endsWith (stem ++ ext) ext = true.
Proof.
  unfold endsWith. apply bool_decide_eq_true.
  rewrite length_app.
  replace (length stem + length ext - length ext)%nat with (length stem) by lia.
  by rewrite drop_app_length.
Qed.

Lemma endsWith_true s ext :
  endsWith s ext = true <-> exists stem, s = stem ++ ext.
Proof.
  split; [|intros [stem ->]; apply endsWith_app].
  unfold endsWith. intros Hs%bool_decide_eq_true.
  exists (take (length s - length ext) s).
  rewrite <- (take_drop (length s - length ext) s) at 1. by rewrite Hs.
Qed.

(** ** Searching *)

Section search.
Context {Uri : Type} (host : Host Uri) (token : nat -> bool).
Context (projectRoot searchPattern excludePattern : list N) (maxResults : Z).

Lemma extension_loop_spec exts : forall reads files,
  extension_loop host token reads projectRoot searchPattern excludePattern
    maxResults exts files
  = if existsb token (seq reads (length exts)) then []
    else files ++ mjoin ((fun ext =>
                            findFiles host projectRoot
                              (text_of "**/" ++ searchPattern ++ ext)
                              excludePattern (maxResults / 2)) <$> exts).
Proof.
  induction exts as [|ext exts IH]; intros reads files.
  - cbn. by rewrite app_nil_r.
  - cbn [extension_loop length seq existsb fmap list_fmap mjoin list_join].
    destruct (token reads); [done|]. cbn [orb].
    rewrite IH. destruct (existsb token (seq (S reads) (length exts))); [done|].
    by rewrite <- app_assoc.
Qed.
End search.

Lemma searchFiles_spec {Uri} (host : Host Uri) searchPattern documentFsPath
    config token :
  searchFiles host searchPattern documentFsPath config token
  = projectRoot ← findProjectRoot host documentFsPath;
    let exclude := buildExcludePattern (excludeFolders config) in
    let exact :=
      findFiles host projectRoot (text_of "**/" ++ searchPattern) exclude
        (maxSearchResults config) in
    Some (if token 0%nat then []
          else if negb (bool_decide (exact = []))
                  || looksLikePath searchPattern (fileExtensions config)
          then exact
          else if existsb token (seq 1 (length (fileExtensions config)))
          then []
          else mjoin ((fun ext =>
                         findFiles host projectRoot
                           (text_of "**/" ++ searchPattern ++ ext) exclude
                           (maxSearchResults config / 2))
                        <$> fileExtensions config)).
Proof.
  unfold searchFiles. destruct (findProjectRoot host documentFsPath) as [root|];
    [|done].
  step_bind. cbv zeta. destruct (token 0%nat); [done|].
  fold (looksLikePath searchPattern (fileExtensions config)).
  destruct (findFiles host root (text_of "**/" ++ searchPattern)
              (buildExcludePattern (excludeFolders config))
              (maxSearchResults config)) as [|file files] eqn:Hexact.
  - rewrite bool_decide_eq_true_2 by done. cbn [length Nat.eqb negb andb orb].
    destruct (looksLikePath searchPattern (fileExtensions config)); [done|].
    cbn [negb]. by rewrite extension_loop_spec.
  - by rewrite bool_decide_eq_false_2.
Qed.

(** ** The definition provider *)

Lemma looksLikePath_elem rawPath extensions :
  looksLikePath rawPath extensions = true
  <-> exists stem ext, ext ∈ extensions /\ rawPath = stem ++ ext.
Proof.
  unfold looksLikePath. rewrite existsb_exists. split.
  - intros (ext & Hin%list_elem_of_In & (stem & ->)%endsWith_true). eauto.
  - intros (stem & ext & Hin%list_elem_of_In & ->).
    exists ext. split; [done|apply endsWith_app].
Qed.

(** ** The quoted string under the cursor *)

Lemma remove_quotes_plain body :
  (forall c, c ∈ body -> c <> SQUOTE /\ c <> DQUOTE) -> remove_quotes body = body.
Proof.
  intros Hbody. unfold remove_quotes.
  induction body as [|c body IH]; [done|].
  rewrite filter_cons, decide_True by (apply Hbody; by left).
  f_equal. apply IH. intros x Hx. apply Hbody. by right.
Qed.

Lemma remove_quotes_literal quote body :
  quote = SQUOTE \/ quote = DQUOTE ->
  (forall c, c ∈ body -> c <> SQUOTE /\ c <> DQUOTE) ->
  remove_quotes (quote :: body ++ [quote]) = body.
Proof.
  intros Hq Hbody. unfold remove_quotes.
  rewrite filter_cons, decide_False by (intros [? ?]; destruct Hq; congruence).
  rewrite filter_app, filter_cons, filter_nil.
  rewrite decide_False by (intros [? ?]; destruct Hq; congruence).
  rewrite app_nil_r. by apply remove_quotes_plain.
Qed.

(** ** How many files a search returns *)

Lemma length_mjoin_le {A} (ls : list (list A)) (n : nat) :
  Forall (fun l => (length l <= n)%nat) ls ->
  (length (mjoin ls) <= length ls * n)%nat.
Proof.
  induction 1 as [|l ls Hl Hls IH]; [done|].
  change (mjoin (l :: ls)) with (l ++ mjoin ls).
  rewrite length_app. cbn [length].
  change (S (length ls) * n)%nat with (n + length ls * n)%nat. lia.
Qed.

(** ** Counting the records *)

Lemma length_omap_seq {A B} (f : nat -> option B) (P : A -> Prop)
    `{!forall x, Decision (P x)} (l : list A) :
  (forall i x, l !! i = Some x -> is_Some (f i) <-> P x) ->
  length (omap f (seq 0 (length l))) = length (filter P l).
Proof.
  induction l as [|x l IH] using rev_ind; intros Hf; [done|].
  rewrite length_app, Nat.add_1_r, seq_S, omap_app, filter_app, !length_app.
  rewrite IH.
  - f_equal. cbn [omap list_omap plus]. rewrite filter_cons, filter_nil.
    pose proof (Hf (length l) x) as Hx.
    rewrite lookup_app_r, Nat.sub_diag in Hx by lia. specialize (Hx eq_refl).
    destruct (f (length l)) as [b|]; case_decide as HP; try done.
    + exfalso. apply HP, Hx. eauto.
    + apply Hx in HP. by destruct HP.
  - intros i y Hy. apply Hf. by apply lookup_app_l_Some.
Qed.

Lemma records_count text tokens roots nodes :
  tree_inv tokens (length tokens) nodes roots ->
  length (omap (record_at text nodes) (seq 0 (length tokens)))
  = length (filter (fun t => type t <> Prefix) tokens).
Proof.
  intros Hinv. apply length_omap_seq. intros i t Ht.
  destruct (token_node tokens nodes (inv_tokens _ _ _ _ Hinv) i t Ht)
    as (n & Hn & <-).
  destruct (calculateFullPath_total tokens roots nodes Hinv i) as [full Hfull];
    [by eapply lookup_lt_Some|].
  unfold record_at. rewrite Hn. step_bind. rewrite Hfull. step_bind.
  destruct (type (token n)); cbn [is_prefix]; split; done.
Qed.

Lemma parseRoutesFile_count text routes tokens :
  parseRoutesFile text = Some routes -> parseRouteTokens text = Some tokens ->
  length routes = length (filter (fun t => type t <> Prefix) tokens).
Proof.
  intros Hparse Htok.
  destruct (parseRoutesFile_records text routes Hparse)
    as (tokens' & roots & nodes & Htok' & Htree & Hperm).
  assert (tokens' = tokens) as -> by congruence.
  rewrite Hperm. eapply records_count. by apply buildTree_tree_inv.
Qed.

Lemma record_fullPath text nodes r :
  emitted text nodes r ->
  head (fullPath r) = Some SLASH /\ double_slash (fullPath r) = false.
Proof.
  intros (i & n & full & Hn & Hty & Hfull & ->).
  cbn [record_of fullPath].
  destruct (calculateFullPath_shape nodes i full Hfull) as [parts ->].
  cbn [resolve truthy]. split; [done|]. apply resolve_single.
Qed.

Lemma before_last_slash_length d r :
  before_last_slash d = Some r -> (length r < length d)%nat.
Proof.
  revert r. induction d as [|c d IH]; intros r; [done|].
  cbn [before_last_slash].
  destruct (before_last_slash d) as [r'|].
  - intros [= <-]. specialize (IH r' eq_refl). cbn [length]. lia.
  - destruct (c =? SLASH)%N; [|done]. intros [= <-]. cbn [length]. lia.
Qed.

Lemma example_dirname_shortens d :
  example_dirname d = d
  \/ (length (example_dirname d) < length d)%nat
  \/ example_dirname (example_dirname d) = example_dirname d.
Proof.
  assert (example_dirname [SLASH] = [SLASH]) as Hroot by done.
  assert (example_dirname [DOT] = [DOT]) as Hhere by done.
  unfold example_dirname in *.
  destruct (before_last_slash d) as [[|c r]|] eqn:Hd.
  - right. right. exact Hroot.
  - right. left. by apply before_last_slash_length.
  - right. right. exact Hhere.
Qed.

(** ** A text without a call *)

Lemma tokens_of_pattern_none text pat :
  LPAREN ∉ text -> tokens_of_pattern text pat = [].
Proof.
  intros Hno. unfold tokens_of_pattern, matches_from.
  rewrite filter_none; [done|].
  intros s _ [e He]. apply match_at_Some in He as (_ & _ & Hparen & _).
  apply is_char_true in Hparen. apply Hno.
  unfold char_at in Hparen. destruct (e - 1 <? 0); [done|].
  by eapply list_elem_of_lookup_2.
Qed.

Lemma parseRouteTokens_none text :
  LPAREN ∉ text -> parseRouteTokens text = Some [].
Proof.
  intros Hno. rewrite parseRouteTokens_spec. f_equal.
  unfold patterns. cbn [fmap list_fmap mjoin list_join].
  by rewrite !tokens_of_pattern_none.
Qed.

Lemma parseRoutesFile_none text :
  LPAREN ∉ text -> parseRoutesFile text = Some [].
Proof.
  intros Hno. unfold parseRoutesFile.
  by rewrite parseRouteTokens_none.
Qed.

(** ** A string that is no path *)

Lemma looksLikePath_no_dot rawPath extensions :
  (forall ext, ext ∈ extensions -> DOT ∈ ext) -> DOT ∉ rawPath ->
  looksLikePath rawPath extensions = false.
Proof.
  intros Hexts Hno. apply not_true_is_false.
  intros (stem & ext & Hext & ->)%looksLikePath_elem.
  apply Hno, elem_of_app. right. by apply Hexts.
Qed.

(** ** The call stack *)

(** With room for every call, [traverse_stack] returns what [traverse]
    returns. *)
Lemma traverse_stack_returns text nodes fuel : forall node routes routes',
  traverse fuel text nodes node routes = Some routes' ->
  traverse_stack fuel text nodes node routes = Some (Some routes').
Proof.
  induction fuel as [|fuel IH]; intros node routes routes'; [done|].
  cbn [traverse traverse_stack].
  destruct (nodes !! node) as [n|]; [|done]. step_bind.
  destruct (calculateFullPath nodes node) as [full|]; [|done]. step_bind.
  match goal with |- context [_ (children n) ?r] => generalize r end.
  induction (children n) as [|c cs IHcs]; intros acc; [by intros [= <-]|].
  destruct (traverse fuel text nodes c acc) as [acc'|] eqn:Hc; [|done].
  rewrite (IH c acc acc' Hc). step_bind. apply IHcs.
Qed.

(** More room changes nothing for a run that returns. *)
Lemma traverse_stack_more text nodes stack : forall node routes routes',
  traverse_stack stack text nodes node routes = Some (Some routes') ->
  traverse_stack (S stack) text nodes node routes = Some (Some routes').
Proof.
  induction stack as [|stack IH]; intros node routes routes'; [done|].
  intros Hrun. cbn [traverse_stack] in Hrun.
  change (traverse_stack (S (S stack)) text nodes node routes) with
    (n ← nodes !! node;
     full ← calculateFullPath nodes node;
     let fullPath := if truthy full then full else [SLASH] in
     let line := getLineFromIndex text (startIndex (token n)) in
     let col := getColumnFromIndex text (startIndex (token n)) in
     let routes1 :=
       if negb (is_prefix (type (token n))) then
         routes ++ [ {| r_type := type (token n);
                        r_path := path (token n);
                        fullPath := fullPath;
                        line := line;
                        range := (line, col, line,
                                  col + len (type_name (type (token n)))) |} ]
       else routes in
     (fix each (cs : list nat) (routes : list RouteInfo) :=
        match cs with
        | [] => Some (Some routes)
        | child :: cs' =>
            result ← traverse_stack (S stack) text nodes child routes;
            match result with
            | Some routes' => each cs' routes'
            | None => Some None
            end
        end) (children n) routes1).
  revert Hrun.
  destruct (nodes !! node) as [n|]; [|done]. step_bind.
  destruct (calculateFullPath nodes node) as [full|]; [|done].
  step_bind. cbv zeta.
  match goal with |- context [_ (children n) ?r] => generalize r end.
  induction (children n) as [|c cs IHcs]; intros acc; [done|].
  destruct (traverse_stack stack text nodes c acc) as [[acc'|]|] eqn:Hc;
    [|done..].
  rewrite (IH c acc acc' Hc). step_bind. apply IHcs.
Qed.

Lemma traverse_stack_le text nodes stack stack' node routes routes' :
  (stack <= stack')%nat ->
  traverse_stack stack text nodes node routes = Some (Some routes') ->
  traverse_stack stack' text nodes node routes = Some (Some routes').
Proof.
  induction 1 as [|stack' Hle IH]; [done|].
  intros Hrun. by apply traverse_stack_more, IH.
Qed.

Lemma root_path_unique nodes i chain : root_path nodes i chain ->
  forall chain', root_path nodes i chain' -> chain' = chain.
Proof.
  induction 1 as [i n Hn Hp|i n j chain Hn Hp Hup IH]; intros chain' Hpath;
    inversion Hpath as [i' n' Hn' Hp'|i' n' j' chain'' Hn' Hp' Hup']; subst.
  - congruence.
  - congruence.
  - congruence.
  - assert (n' = n) as -> by congruence.
    assert (j' = j) as -> by congruence.
    by rewrite (IH chain'' Hup').
Qed.

Section call_stack.
Context (tokens : list RouteToken) (roots : list nat) (nodes : list TreeNode).
Context (text : list N).
Hypothesis Hinv : tree_inv tokens (length tokens) nodes roots.
Hypothesis Hlinks : links_inv nodes roots.

(** The model of the stack never fails: a run returns or raises. *)
Lemma traverse_stack_total stack : forall node routes,
  (node < length nodes)%nat ->
  exists result, traverse_stack stack text nodes node routes = Some result.
Proof.
  induction stack as [|stack IH]; intros node routes Hnode; [by eexists|].
  cbn [traverse_stack].
  destruct (lookup_lt_is_Some_2 nodes node Hnode) as [n Hn].
  rewrite Hn. step_bind.
  destruct (calculateFullPath_total tokens roots nodes Hinv node Hnode)
    as [full ->].
  step_bind.
  pose proof (child_bounds tokens roots nodes Hinv node n) as Hch.
  specialize (Hch) with (1 := Hn).
  match goal with |- context [_ (children n) ?r] => generalize r end.
  induction (children n) as [|c cs IHcs]; intros acc; [by eexists|].
  destruct (IH c acc) as [[acc'|] ->]; [apply Hch; by left| |by eexists].
  step_bind. apply IHcs. intros c' Hc'. apply Hch. by right.
Qed.

(** A run returns when no chain below the node is longer than the room
    left. *)
Lemma traverse_stack_fits stack : forall node chain routes,
  root_path nodes node chain ->
  (forall d chain_d, ancestor nodes node d -> root_path nodes d chain_d ->
     (length chain_d < length chain + stack)%nat) ->
  exists routes',
    traverse_stack stack text nodes node routes = Some (Some routes').
Proof.
  induction stack as [|stack IH]; intros node chain routes Hchain Hroom.
  { pose proof (root_path_lt nodes node chain Hchain) as Hnode.
    destruct (lookup_lt_is_Some_2 nodes node Hnode) as [n Hn].
    specialize (Hroom node chain (ancestor_self nodes node n Hn) Hchain). lia. }
  cbn [traverse_stack].
  pose proof (root_path_lt nodes node chain Hchain) as Hnode.
  destruct (lookup_lt_is_Some_2 nodes node Hnode) as [n Hn].
  rewrite Hn. step_bind.
  destruct (calculateFullPath_total tokens roots nodes Hinv node Hnode)
    as [full ->].
  step_bind.
  assert (forall c, c ∈ children n ->
            exists nc, nodes !! c = Some nc /\ parent nc = Some node) as Hch.
  { intros c Hc. by destruct (inv_children _ _ _ _ Hinv node n c Hn Hc). }
  match goal with |- context [_ (children n) ?r] => generalize r end.
  induction (children n) as [|c cs IHcs]; intros acc; [by eexists|].
  destruct (Hch c) as (nc & Hnc & Hpc); [by left|].
  destruct (IH c (chain ++ [nc]) acc) as [acc' ->].
  { by eapply root_path_step. }
  { intros d chain_d Hd Hpath. rewrite length_app. cbn [length].
    specialize (Hroom d chain_d
                  (ancestor_below roots nodes Hlinks node nc c d
                     Hnc Hpc Hd) Hpath). lia. }
  step_bind. apply IHcs. intros c' Hc'. apply Hch. by right.
Qed.

(** A run raises when a chain below the node is longer than the room
    left. *)
Lemma traverse_stack_overflows stack : forall node chain routes d chain_d,
  root_path nodes node chain ->
  ancestor nodes node d -> root_path nodes d chain_d ->
  (length chain + stack <= length chain_d)%nat ->
  traverse_stack stack text nodes node routes = Some None.
Proof.
  induction stack as [|stack IH];
    intros node chain routes d chain_d Hchain Hd Hpath Hdeep; [done|].
  cbn [traverse_stack].
  pose proof (root_path_lt nodes node chain Hchain) as Hnode.
  destruct (lookup_lt_is_Some_2 nodes node Hnode) as [n Hn].
  rewrite Hn. step_bind.
  destruct (calculateFullPath_total tokens roots nodes Hinv node Hnode)
    as [full ->].
  step_bind.
  destruct (ancestor_child roots nodes Hlinks node n d Hn Hd)
    as [->|(c & Hc & Hcd)].
  { rewrite (root_path_unique nodes node chain Hchain chain_d Hpath) in Hdeep.
    lia. }
  assert (forall c, c ∈ children n ->
            exists nc, (c < length nodes)%nat /\ nodes !! c = Some nc
                       /\ parent nc = Some node) as Hch.
  { intros c' Hc'.
    destruct (inv_children _ _ _ _ Hinv node n c' Hn Hc') as [_ (nc & Hnc & Hp)].
    exists nc. split; [by eapply lookup_lt_Some|done]. }
  revert Hc.
  match goal with |- context [_ (children n) ?r] => generalize r end.
  induction (children n) as [|c' cs IHcs]; intros acc Hc.
  { by apply elem_of_nil in Hc. }
  destruct (Hch c') as (nc' & Hlt & Hnc' & Hpc'); [by left|].
  destruct (decide (c' = c)) as [->|Hne].
  - rewrite (IH c (chain ++ [nc']) acc d chain_d); [done| |done|done|].
    + by eapply root_path_step.
    + rewrite length_app. cbn [length]. lia.
  - destruct (traverse_stack_total stack c' acc Hlt) as [[acc'|] ->]; [|done].
    step_bind. apply IHcs.
    + intros c'' Hc''. apply Hch. by right.
    + apply elem_of_cons in Hc as [->|Hc]; done.
Qed.

Lemma traverse_roots_stack_fits stack :
  (forall i chain, root_path nodes i chain -> (length chain <= stack)%nat) ->
  forall rs routes,
    (forall r, r ∈ rs -> r ∈ roots) ->
    exists routes',
      traverse_roots_stack stack text nodes rs routes = Some (Some routes').
Proof.
  intros Hroom rs. induction rs as [|r rs IH]; intros routes Hsub;
    [by eexists|].
  cbn [traverse_roots_stack].
  assert (r ∈ roots) as Hr by (apply Hsub; by left).
  apply (inv_roots _ _ _ _ Hinv) in Hr as [_ (n & Hn & Hp)].
  destruct (traverse_stack_fits stack r [n] routes) as [routes' ->].
  { by apply root_path_root. }
  { intros d chain_d _ Hpath. specialize (Hroom d chain_d Hpath).
    cbn [length]. lia. }
  step_bind. apply IH. intros r' Hr'. apply Hsub. by right.
Qed.

Lemma traverse_roots_stack_overflows stack i chain :
  root_path nodes i chain -> (stack < length chain)%nat ->
  forall rs routes r,
    (forall r', r' ∈ rs -> r' ∈ roots) -> r ∈ rs -> ancestor nodes r i ->
    traverse_roots_stack stack text nodes rs routes = Some None.
Proof.
  intros Hchain Hdeep rs.
  induction rs as [|r' rs IH]; intros routes r Hsub Hr Hup.
  { by apply elem_of_nil in Hr. }
  cbn [traverse_roots_stack].
  assert (r' ∈ roots) as Hr' by (apply Hsub; by left).
  apply (inv_roots _ _ _ _ Hinv) in Hr' as [Hlt (n' & Hn' & Hp')].
  destruct (decide (r' = r)) as [->|Hne].
  - rewrite (traverse_stack_overflows stack r [n'] routes i chain); [done| | | |].
    + by apply root_path_root.
    + done.
    + done.
    + cbn [length]. lia.
  - destruct (traverse_stack_total stack r' routes) as [[routes'|] ->];
      [by eapply lookup_lt_Some| |done].
    step_bind. apply (IH routes' r); [|by apply elem_of_cons in Hr as [->|Hr]|done].
    intros r'' Hr''. apply Hsub. by right.
Qed.

(** A run that returns with some room returns what the run with all the
    room returns. *)
Lemma traverse_roots_stack_agree stack : forall rs routes routes1 routes2,
  traverse_roots text nodes rs routes = Some routes1 ->
  traverse_roots_stack stack text nodes rs routes = Some (Some routes2) ->
  routes2 = routes1.
Proof.
  induction rs as [|r rs IH]; intros routes routes1 routes2;
    cbn [traverse_roots traverse_roots_stack]; [congruence|].
  destruct (traverse (S (length nodes)) text nodes r routes) as [acc|] eqn:Hrun;
    [|done].
  step_bind.
  destruct (traverse_stack stack text nodes r routes) as [[acc'|]|] eqn:Hstack;
    [|done..].
  step_bind. apply traverse_stack_returns in Hrun.
  assert (acc' = acc) as ->; [|apply IH].
  apply (traverse_stack_le _ _ _ (Nat.max stack (S (length nodes)))) in Hrun;
    [|lia].
  apply (traverse_stack_le _ _ _ (Nat.max stack (S (length nodes)))) in Hstack;
    [|lia].
  congruence.
Qed.
End call_stack.

(** ** The parse of nested prefixes *)

Lemma length_blocks {A} (block : list A) n :
  length (mjoin (replicate n block)) = (n * length block)%nat.
Proof.
  induction n as [|n IH]; [done|].
  cbn [replicate]. change (mjoin (block :: replicate n block))
    with (block ++ mjoin (replicate n block)).
  rewrite length_app, IH. done.
Qed.

Lemma len_nested n : len (nested_prefixes n) = 14 * Z.of_nat n.
Proof.
  unfold len, nested_prefixes. rewrite length_app, !length_blocks.
  change (length opener) with 12%nat. change (length closer) with 2%nat. lia.
Qed.

Lemma suffix_openers n k :
  (k <= n)%nat ->
  suffix (nested_prefixes n) (12 * Z.of_nat k)
  = mjoin (replicate (n - k) opener) ++ mjoin (replicate n closer).
Proof.
  intros Hk. unfold suffix, nested_prefixes.
  assert (replicate n opener
          = replicate k opener ++ replicate (n - k) opener) as ->.
  { rewrite <- replicate_add. f_equal. lia. }
  rewrite join_app, <- app_assoc.
  replace (Z.to_nat (12 * Z.of_nat k))
    with (length (mjoin (replicate k opener))).
  - by rewrite drop_app_length.
  - rewrite length_blocks. change (length opener) with 12%nat. lia.
Qed.

Lemma suffix_closers n k :
  (k <= n)%nat ->
  suffix (nested_prefixes n) (12 * Z.of_nat n + 2 * Z.of_nat k)
  = mjoin (replicate (n - k) closer).
Proof.
  intros Hk. unfold suffix, nested_prefixes.
  assert (replicate n closer
          = replicate k closer ++ replicate (n - k) closer) as ->.
  { rewrite <- replicate_add. f_equal. lia. }
  rewrite join_app, app_assoc.
  replace (Z.to_nat (12 * Z.of_nat n + 2 * Z.of_nat k))
    with (length (mjoin (replicate n opener) ++ mjoin (replicate k closer))).
  - by rewrite drop_app_length.
  - rewrite length_app, !length_blocks.
    change (length opener) with 12%nat. change (length closer) with 2%nat. lia.
Qed.

Lemma suffix_drop text s j :
  0 <= s -> suffix text (s + Z.of_nat j) = drop j (suffix text s).
Proof.
  intros Hs. unfold suffix. rewrite drop_drop. f_equal. lia.
Qed.

Lemma suffix_lookup text s l rest j c :
  0 <= s -> suffix text s = l ++ rest -> l !! j = Some c ->
  char_at text (s + Z.of_nat j) = Some c.
Proof.
  intros Hs Hsuffix Hj. unfold char_at.
  destruct (Z.ltb_spec (s + Z.of_nat j) 0) as [?|_]; [lia|].
  pose proof (lookup_drop text (Z.to_nat s) j) as Hdrop.
  unfold suffix in Hsuffix. rewrite Hsuffix in Hdrop.
  rewrite lookup_app_l in Hdrop by (by eapply lookup_lt_Some).
  rewrite Hj in Hdrop.
  by replace (Z.to_nat (s + Z.of_nat j)) with (Z.to_nat s + j)%nat by lia.
Qed.

(** The characters of the text: those of an opener in the first part,
    those of a closer in the second. *)
Lemma char_at_opener n k j c :
  (k < n)%nat -> opener !! j = Some c ->
  char_at (nested_prefixes n) (12 * Z.of_nat k + Z.of_nat j) = Some c.
Proof.
  intros Hk Hj.
  apply (suffix_lookup _ _ opener
           (mjoin (replicate (n - S k) opener) ++ mjoin (replicate n closer)));
    [lia| |done].
  rewrite suffix_openers by lia.
  replace (n - k)%nat with (S (n - S k)) by lia.
  cbn [replicate]. change (mjoin (opener :: ?l)) with (opener ++ mjoin l).
  by rewrite <- app_assoc.
Qed.

Lemma char_at_closer n k j c :
  (k < n)%nat -> closer !! j = Some c ->
  char_at (nested_prefixes n) (12 * Z.of_nat n + 2 * Z.of_nat k + Z.of_nat j)
  = Some c.
Proof.
  intros Hk Hj.
  apply (suffix_lookup _ _ closer (mjoin (replicate (n - S k) closer)));
    [lia| |done].
  rewrite suffix_closers by lia.
  replace (n - k)%nat with (S (n - S k)) by lia. done.
Qed.

Lemma char_at_nested n s c :
  char_at (nested_prefixes n) s = Some c ->
  (exists k j, (k < n)%nat /\ s = 12 * Z.of_nat k + Z.of_nat j
               /\ opener !! j = Some c)
  \/ c = 93%N \/ c = 41%N.
Proof.
  intros Hc. pose proof (char_at_Some _ _ _ Hc) as Hs.
  rewrite len_nested in Hs.
  destruct (Z.lt_ge_cases s (12 * Z.of_nat n)) as [Hopen|Hclose].
  - left. exists (Z.to_nat (s / 12)), (Z.to_nat (s mod 12)).
    pose proof (Z.div_mod s 12 ltac:(lia)) as Hdiv.
    pose proof (Z.mod_pos_bound s 12 ltac:(lia)) as Hmod.
    assert (0 <= s / 12 < Z.of_nat n) as Hquot.
    { split; [apply Z.div_pos; lia|apply Z.div_lt_upper_bound; lia]. }
    split; [lia|]. split; [lia|].
    destruct (lookup_lt_is_Some_2 opener (Z.to_nat (s mod 12))) as [x Hx].
    { change (length opener) with 12%nat. lia. }
    rewrite Hx. f_equal.
    pose proof (char_at_opener n (Z.to_nat (s / 12)) (Z.to_nat (s mod 12)) x
                  ltac:(lia) Hx) as Hat.
    replace (12 * Z.of_nat (Z.to_nat (s / 12)) + Z.of_nat (Z.to_nat (s mod 12)))
      with s in Hat by lia.
    congruence.
  - right.
    pose proof (Z.div_mod (s - 12 * Z.of_nat n) 2 ltac:(lia)) as Hdiv.
    pose proof (Z.mod_pos_bound (s - 12 * Z.of_nat n) 2 ltac:(lia)) as Hmod.
    assert (0 <= (s - 12 * Z.of_nat n) / 2 < Z.of_nat n) as Hquot.
    { split; [apply Z.div_pos; lia|apply Z.div_lt_upper_bound; lia]. }
    destruct (lookup_lt_is_Some_2 closer (Z.to_nat ((s - 12 * Z.of_nat n) mod 2)))
      as [x Hx].
    { change (length closer) with 2%nat. lia. }
    pose proof (char_at_closer n (Z.to_nat ((s - 12 * Z.of_nat n) / 2))
                  (Z.to_nat ((s - 12 * Z.of_nat n) mod 2)) x ltac:(lia) Hx)
      as Hat.
    replace (12 * Z.of_nat n
             + 2 * Z.of_nat (Z.to_nat ((s - 12 * Z.of_nat n) / 2))
             + Z.of_nat (Z.to_nat ((s - 12 * Z.of_nat n) mod 2)))
      with s in Hat by lia.
    assert (x = c) as -> by congruence.
    destruct (Z.to_nat ((s - 12 * Z.of_nat n) mod 2)) as [|[|?]];
      vm_compute in Hx; [left|right|]; congruence.
Qed.

Lemma match_at_boundary text name s e :
  match_at text name s = Some e -> word_boundary text s = true.
Proof.
  unfold match_at. destruct (word_boundary text s); [done|].
  by rewrite andb_false_l.
Qed.

Lemma literal_at_suffix text name : forall s rest,
  0 <= s -> suffix text s = name ++ rest -> literal_at text name s = true.
Proof.
  induction name as [|c name IH]; intros s rest Hs Hsuffix; [done|].
  cbn [literal_at]. cbn [app] in Hsuffix.
  apply suffix_head in Hsuffix as [Hc Hrest]; [|done].
  apply is_char_true in Hc. rewrite Hc. cbn [andb].
  by apply (IH (s + 1) rest); [lia|].
Qed.

Lemma skip_spaces_none text n i :
  test_space (char_at text i) = false -> skip_spaces n text i = i.
Proof. intros Hi. destruct n as [|n]; [done|]. cbn [skip_spaces]. by rewrite Hi. Qed.

(** The offset in the opener at which a character stands. *)
Ltac find_offset j Hj :=
  do 12 (destruct j as [|j]; [first [by vm_compute in Hj|reflexivity]|]);
  by vm_compute in Hj.


(** Only [prefix] matches in the text, and only where an opener starts. *)
Lemma match_nested_only n pat s :
  pat ∈ patterns -> is_Some (match_at (nested_prefixes n) (regex pat) s) ->
  pat = prefix_pattern /\ exists k, (k < n)%nat /\ s = 12 * Z.of_nat k.
Proof.
  intros Hpat [e Hm].
  pose proof (match_at_boundary _ _ _ _ Hm) as Hb.
  assert (forall c rest, regex pat = c :: rest ->
            char_at (nested_prefixes n) s = Some c) as Hhead.
  { intros c rest Hname. eapply match_at_head; [exact Hname|by eexists]. }
  assert (forall k j c, (k < n)%nat -> s = 12 * Z.of_nat k + Z.of_nat (S j) ->
            opener !! j = Some c -> is_word c = true ->
            opener !! S j = None \/ exists c', opener !! S j = Some c'
                                             /\ is_word c' = false) as Hword.
  { intros k j c Hk -> Hj Hw.
    destruct (opener !! S j) as [c'|] eqn:Hj'; [right|by left].
    exists c'. split; [done|].
    unfold word_boundary, is_word_at in Hb.
    rewrite (char_at_opener n k (S j) c' Hk Hj') in Hb.
    replace (12 * Z.of_nat k + Z.of_nat (S j) - 1)
      with (12 * Z.of_nat k + Z.of_nat j) in Hb by lia.
    rewrite (char_at_opener n k j c Hk Hj), Hw in Hb.
    by destruct (is_word c'). }
  unfold patterns in Hpat. rewrite !elem_of_cons, elem_of_nil in Hpat.
  destruct Hpat as [->|[->|[->|[->|[]]]]]; cbn [regex] in *.
  - specialize (Hhead 114%N (text_of "oute") eq_refl).
    destruct (char_at_nested n s _ Hhead) as [(k & j & Hk & Hs & Hj)|[?|?]];
      [|done..].
    assert (j = 1%nat) as -> by find_offset j Hj.
    destruct (Hword k 0%nat 112%N Hk Hs eq_refl eq_refl)
      as [?|(c' & Hc' & Hw')]; [done|].
    injection Hc' as <-. done.
  - specialize (Hhead 105%N (text_of "ndex") eq_refl).
    destruct (char_at_nested n s _ Hhead) as [(k & j & Hk & Hs & Hj)|[?|?]];
      [|done..].
    assert (j = 4%nat) as -> by find_offset j Hj.
    destruct (Hword k 3%nat 102%N Hk Hs eq_refl eq_refl)
      as [?|(c' & Hc' & Hw')]; [done|].
    injection Hc' as <-. done.
  - specialize (Hhead 108%N (text_of "ayout") eq_refl).
    destruct (char_at_nested n s _ Hhead) as [(k & j & Hk & Hs & Hj)|[?|?]];
      [|done..].
    exfalso. assert (j = 0%nat) as -> by find_offset j Hj. by vm_compute in Hj.
  - split; [done|].
    specialize (Hhead 112%N (text_of "refix") eq_refl).
    destruct (char_at_nested n s _ Hhead) as [(k & j & Hk & Hs & Hj)|[?|?]];
      [|done..].
    assert (j = 0%nat) as -> by find_offset j Hj.
    exists k. split; [done|lia].
Qed.

Lemma match_nested n k :
  (k < n)%nat ->
  match_at (nested_prefixes n) (text_of "prefix") (12 * Z.of_nat k)
  = Some (12 * Z.of_nat k + 7).
Proof.
  intros Hk. unfold match_at.
  assert (word_boundary (nested_prefixes n) (12 * Z.of_nat k) = true) as ->.
  { unfold word_boundary, is_word_at.
    pose proof (char_at_opener n k 0 112%N Hk eq_refl) as Hp.
    rewrite Z.add_0_r in Hp. rewrite Hp.
    destruct k as [|k].
    - change (12 * Z.of_nat 0 - 1) with (-1). done.
    - pose proof (char_at_opener n k 11 91%N ltac:(lia) eq_refl) as Hb.
      replace (12 * Z.of_nat k + Z.of_nat 11) with (12 * Z.of_nat (S k) - 1)
        in Hb by lia.
      by rewrite Hb. }
  rewrite (literal_at_suffix _ _ _
             (text_of "('a',[" ++ mjoin (replicate (n - S k) opener)
              ++ mjoin (replicate n closer))); [|lia|].
  2:{ rewrite suffix_openers by lia.
      replace (n - k)%nat with (S (n - S k)) by lia.
      cbn [replicate]. change (mjoin (opener :: ?l)) with (opener ++ mjoin l).
      rewrite <- app_assoc. done. }
  cbn [andb]. change (len (text_of "prefix")) with 6.
  pose proof (char_at_opener n k 6 LPAREN Hk eq_refl) as Hopen.
  change (Z.of_nat 6) with 6 in Hopen.
  rewrite skip_spaces_none by (by rewrite Hopen).
  apply is_char_true in Hopen. rewrite Hopen. f_equal. lia.
Qed.

Lemma matches_from_end text name : matches_from text name (len text) = [].
Proof. unfold matches_from. by rewrite Z.sub_diag. Qed.

Lemma matches_nested_other n pat :
  pat ∈ patterns -> pat <> prefix_pattern ->
  matches_from (nested_prefixes n) (regex pat) 0 = [].
Proof.
  intros Hpat Hne.
  rewrite (matches_from_skip _ _ 0 (len (nested_prefixes n)));
    [apply matches_from_end|unfold len; lia|].
  intros s _.
  destruct (match_at (nested_prefixes n) (regex pat) s) as [e|] eqn:Hm;
    [|done].
  by destruct (match_nested_only n pat s Hpat) as [? _]; [by eexists|].
Qed.

Lemma no_match_between n k s :
  12 * Z.of_nat k < s < 12 * Z.of_nat (S k) ->
  match_at (nested_prefixes n) (text_of "prefix") s = None.
Proof.
  intros Hs.
  destruct (match_at (nested_prefixes n) (text_of "prefix") s) as [e|] eqn:Hm;
    [|done].
  destruct (match_nested_only n prefix_pattern s) as [_ (k' & _ & ->)];
    [unfold patterns, prefix_pattern; rewrite !elem_of_cons; eauto 6
    |by eexists|].
  lia.
Qed.

Lemma matches_nested n m : forall k,
  (k + m = n)%nat ->
  matches_from (nested_prefixes n) (text_of "prefix") (12 * Z.of_nat k)
  = (fun j => 12 * Z.of_nat j) <$> seq k m.
Proof.
  induction m as [|m IH]; intros k Hk.
  - rewrite (matches_from_skip _ _ _ (len (nested_prefixes n)));
      [apply matches_from_end|rewrite len_nested; lia|].
    intros s Hs.
    destruct (match_at (nested_prefixes n) (text_of "prefix") s) as [e|] eqn:Hm;
      [|done].
    destruct (match_nested_only n prefix_pattern s) as [_ (k' & Hk' & ->)];
      [unfold patterns, prefix_pattern; rewrite !elem_of_cons; eauto 6
      |by eexists|].
    lia.
  - rewrite (matches_from_cons (nested_prefixes n) (text_of "prefix")
               (12 * Z.of_nat k) (12 * Z.of_nat k + 7));
      [|lia|apply match_nested; lia].
    cbn [seq fmap list_fmap]. f_equal.
    rewrite (matches_from_skip _ _ _ (12 * Z.of_nat (S k))); [|lia|].
    + apply IH. lia.
    + intros s Hs. apply (no_match_between n k). lia.
Qed.

(** ** The token of an opener *)

Lemma mp_tail d rest pos :
  matching_paren InCode d (text_of "'a',[" ++ rest) pos
  = matching_paren InCode d rest (pos + 5).
Proof.
  transitivity (matching_paren InCode d rest (pos + 1 + 1 + 1 + 1 + 1));
    [reflexivity|f_equal; lia].
Qed.

Lemma mp_opener d rest pos :
  matching_paren InCode d (opener ++ rest) pos
  = matching_paren InCode (S d) rest (pos + 12).
Proof.
  transitivity (matching_paren InCode (S d) rest
                  (pos + 1 + 1 + 1 + 1 + 1 + 1 + 1 + 1 + 1 + 1 + 1 + 1));
    [reflexivity|f_equal; lia].
Qed.

Lemma mp_openers m : forall d rest pos,
  matching_paren InCode d (mjoin (replicate m opener) ++ rest) pos
  = matching_paren InCode (d + m) rest (pos + 12 * Z.of_nat m).
Proof.
  induction m as [|m IH]; intros d rest pos.
  - cbn [replicate]. change (mjoin []) with (@nil N). cbn [app].
    f_equal; lia.
  - cbn [replicate]. change (mjoin (opener :: ?l)) with (opener ++ mjoin l).
    rewrite <- app_assoc, mp_opener, IH. f_equal; lia.
Qed.

Lemma mp_closers d : forall m pos,
  (d < m)%nat ->
  matching_paren InCode d (mjoin (replicate m closer)) pos
  = pos + 2 * Z.of_nat d + 1.
Proof.
  induction d as [|d IH]; intros m pos Hm;
    (destruct m as [|m]; [lia|]); cbn [replicate];
    change (mjoin (closer :: ?l)) with (closer ++ mjoin l).
  - transitivity (pos + 1); [reflexivity|lia].
  - transitivity (matching_paren InCode d (mjoin (replicate m closer))
                    (pos + 1 + 1)); [reflexivity|].
    rewrite IH by lia. lia.
Qed.

Lemma extractStringArg_escape text p seps quote value rest :
  0 <= p -> quote = DQUOTE \/ quote = SQUOTE ->
  Forall (fun x => test_separator (Some x) = true) seps ->
  suffix text p = seps ++ quote :: escape quote value ++ quote :: rest ->
  extractStringArg text p
  = Some (Some (value, p + len seps + len (escape quote value) + 2)).
Proof.
  intros Hp Hq Hseps Hs. unfold extractStringArg.
  pose proof (length_suffix text p Hp) as Hlen.
  rewrite Hs, length_app in Hlen. cbn [length] in Hlen.
  rewrite length_app in Hlen. cbn [length] in Hlen.
  rewrite (skip_separators_run text quote (escape quote value ++ quote :: rest) seps);
    [|done|done|done|by destruct Hq as [->| ->]|unfold budget; lia].
  step_bind.
  assert (suffix text (p + len seps) = quote :: escape quote value ++ quote :: rest)
    as Hs'.
  { unfold suffix in *. unfold len.
    replace (Z.to_nat (p + Z.of_nat (length seps)))
      with (Z.to_nat p + length seps)%nat by lia.
    rewrite <- drop_drop, Hs. by rewrite drop_app_length. }
  apply suffix_head in Hs' as [Hat Hs']; [|unfold len; lia].
  pose proof (char_at_Some _ _ _ Hat) as Hb.
  destruct (Z.leb_spec (len text) (p + len seps)) as [Hout|_]; [lia|].
  rewrite Hat.
  assert (negb (quote =? DQUOTE)%N && negb (quote =? SQUOTE)%N = false) as ->
    by (by destruct Hq as [->| ->]).
  rewrite (read_quoted_escape text quote (quote :: rest) value);
    [|done|eauto|unfold len; lia|done|unfold budget, len in *; lia].
  step_bind.
  assert (suffix text (p + len seps + 1 + len (escape quote value))
          = quote :: rest) as Hs''.
  { unfold suffix in *. unfold len in *.
    replace (Z.to_nat (p + Z.of_nat (length seps) + 1
                       + Z.of_nat (length (escape quote value))))
      with (Z.to_nat (p + Z.of_nat (length seps) + 1)
            + length (escape quote value))%nat by lia.
    rewrite <- drop_drop, Hs'. by rewrite drop_app_length. }
  apply suffix_head in Hs'' as [Hat' _]; [|unfold len; lia].
  pose proof (char_at_Some _ _ _ Hat') as Hb'.
  destruct (Z.leb_spec (len text) (p + len seps + 1 + len (escape quote value)))
    as [Hout|_]; [lia|].
  do 3 f_equal. lia.
Qed.

Lemma suffix_in_opener n k j :
  (k < n)%nat -> (j <= 12)%nat ->
  suffix (nested_prefixes n) (12 * Z.of_nat k + Z.of_nat j)
  = drop j opener ++ mjoin (replicate (n - S k) opener)
    ++ mjoin (replicate n closer).
Proof.
  intros Hk Hj. rewrite suffix_drop, suffix_openers by lia.
  replace (n - k)%nat with (S (n - S k)) by lia.
  cbn [replicate]. change (mjoin (opener :: ?l)) with (opener ++ mjoin l).
  rewrite <- app_assoc, drop_app_le; [done|].
  change (length opener) with 12%nat. lia.
Qed.

Lemma kept_nested n k :
  (k < n)%nat ->
  kept (nested_prefixes n) prefix_pattern (12 * Z.of_nat k)
  = Some (nested_token n k).
Proof.
  intros Hk. unfold kept, scan_match. cbn [regex ptype hasPath prefix_pattern].
  set (text := nested_prefixes n).
  set (rest := mjoin (replicate (n - S k) opener) ++ mjoin (replicate n closer)).
  assert (indexOf text LPAREN (12 * Z.of_nat k) = 12 * Z.of_nat k + 6) as ->.
  { rewrite (indexOf_match text (text_of "prefix") _ (12 * Z.of_nat k + 7));
      [lia|lia| |by apply match_nested].
    intros c Hc. apply (patterns_no_paren prefix_pattern); [|done].
    unfold patterns, prefix_pattern. rewrite !elem_of_cons. eauto 6. }
  assert (findMatchingParen text (12 * Z.of_nat k + 6)
          = Some (14 * Z.of_nat n - 2 * Z.of_nat k - 1)) as ->.
  { rewrite findMatchingParen_spec by lia. f_equal.
    pose proof (suffix_in_opener n k 7 Hk ltac:(lia)) as Hsuffix.
    change (Z.of_nat 7) with 7 in Hsuffix.
    replace (12 * Z.of_nat k + 6 + 1) with (12 * Z.of_nat k + 7) by lia.
    fold text in Hsuffix. rewrite Hsuffix.
    change (drop 7 opener) with (text_of "'a',[").
    rewrite mp_tail, mp_openers.
    rewrite mp_closers by lia. lia. }
  step_bind.
  destruct (Z.eqb_spec (14 * Z.of_nat n - 2 * Z.of_nat k - 1) (-1)) as [?|_];
    [lia|].
  rewrite (extractStringArg_escape text (12 * Z.of_nat k + 6 + 1) [] SQUOTE
             (text_of "a") (text_of ",[" ++ rest));
    [|lia|by right|constructor|].
  2:{ pose proof (suffix_in_opener n k 7 Hk ltac:(lia)) as Hsuffix.
      change (Z.of_nat 7) with 7 in Hsuffix.
      replace (12 * Z.of_nat k + 6 + 1) with (12 * Z.of_nat k + 7) by lia.
      fold text in Hsuffix. rewrite Hsuffix. done. }
  step_bind.
  change (len []) with 0. change (len (escape SQUOTE (text_of "a"))) with 1.
  replace (12 * Z.of_nat k + 6 + 1 + 0 + 1 + 2) with (12 * Z.of_nat k + 10)
    by lia.
  rewrite findChildrenArray_spec by lia.
  pose proof (char_at_opener n k 10 COMMA Hk eq_refl) as Hcomma.
  pose proof (char_at_opener n k 11 LBRACKET Hk eq_refl) as Hbracket.
  change (Z.of_nat 10) with 10 in Hcomma.
  change (Z.of_nat 11) with 11 in Hbracket.
  rewrite (chars_between_cons text _ _ COMMA) by (done || lia).
  replace (12 * Z.of_nat k + 10 + 1) with (12 * Z.of_nat k + 11) by lia.
  rewrite (chars_between_cons text _ _ LBRACKET) by (done || lia).
  step_bind.
  assert (forall chars pos,
            first_array (COMMA :: LBRACKET :: chars) pos false = Some (pos + 1))
    as Hfirst by reflexivity.
  rewrite Hfirst.
  replace (12 * Z.of_nat k + 10 + 1) with (12 * Z.of_nat k + 11) by lia.
  done.
Qed.

Lemma tokens_nested n m : forall k,
  (k + m = n)%nat ->
  omap (kept (nested_prefixes n) prefix_pattern)
    ((fun j => 12 * Z.of_nat j) <$> seq k m)
  = nested_token n <$> seq k m.
Proof.
  induction m as [|m IH]; intros k Hk; [done|].
  cbn [seq fmap list_fmap omap list_omap].
  rewrite kept_nested by lia. f_equal. apply IH. lia.
Qed.

Lemma sort_nested n m : forall k,
  sort_tokens (nested_token n <$> seq k m) = nested_token n <$> seq k m.
Proof.
  induction m as [|m IH]; intros k; [done|].
  cbn [seq fmap list_fmap sort_tokens foldr].
  change (foldr insert_token [] ?l) with (sort_tokens l). rewrite IH.
  destruct m as [|m]; [done|].
  cbn [seq fmap list_fmap insert_token nested_token startIndex].
  destruct (Z.ltb_spec 0 (12 * Z.of_nat k - 12 * Z.of_nat (S k))); [lia|done].
Qed.

Lemma tokens_nested_other n pat :
  pat ∈ patterns -> pat <> prefix_pattern ->
  tokens_of_pattern (nested_prefixes n) pat = [].
Proof.
  intros Hpat Hne. unfold tokens_of_pattern.
  by rewrite matches_nested_other.
Qed.

Lemma parseRouteTokens_nested n :
  parseRouteTokens (nested_prefixes n) = Some (nested_token n <$> seq 0 n).
Proof.
  rewrite parseRouteTokens_spec. f_equal.
  unfold patterns. cbn [fmap list_fmap mjoin list_join].
  rewrite
    (tokens_nested_other n
       {| regex := text_of "route"; ptype := Route; hasPath := true |}),
    (tokens_nested_other n
       {| regex := text_of "index"; ptype := Index; hasPath := false |}),
    (tokens_nested_other n
       {| regex := text_of "layout"; ptype := Layout; hasPath := false |});
    try (unfold patterns; rewrite !elem_of_cons; by eauto 6);
    try discriminate.
  cbn [app]. fold prefix_pattern.
  unfold tokens_of_pattern. cbn [regex prefix_pattern].
  change 0 with (12 * Z.of_nat 0) at 1.
  rewrite (matches_nested n n 0) by lia.
  rewrite (tokens_nested n n 0) by lia.
  rewrite app_nil_r. apply sort_nested.
Qed.

(** ** The whole parse on a call stack *)

Lemma parseRoutesFile_stack_spec text :
  exists tokens roots nodes routes,
    parseRouteTokens text = Some tokens
    /\ buildTree tokens = Some (roots, nodes)
    /\ parseRoutesFile text = Some routes
    /\ forall stack,
         ((forall i chain, root_path nodes i chain ->
             (length chain <= stack)%nat) ->
          parseRoutesFile_stack stack text = Some (Some routes))
         /\ ((exists i chain, root_path nodes i chain
                              /\ (stack < length chain)%nat) ->
             parseRoutesFile_stack stack text = Some None).
Proof.
  destruct (parseRoutesFile_total text) as [routes Hroutes].
  pose proof Hroutes as Hrun. unfold parseRoutesFile in Hrun.
  destruct (parseRouteTokens text) as [tokens|] eqn:Htokens; [|done].
  cbn [mbind option_bind] in Hrun.
  destruct (buildTree tokens) as [[roots nodes]|] eqn:Htree; [|done].
  cbn [mbind option_bind] in Hrun.
  exists tokens, roots, nodes, routes. repeat split; try done.
  - intros Hroom. unfold parseRoutesFile_stack. rewrite Htokens. step_bind.
    rewrite Htree. step_bind.
    destruct (traverse_roots_stack_fits tokens roots nodes text
                (buildTree_tree_inv _ _ _ Htree) (buildTree_links _ _ _ Htree)
                stack Hroom roots []) as [routes' Hstack]; [done|].
    rewrite Hstack. do 2 f_equal.
    by apply (traverse_roots_stack_agree nodes text stack roots [] routes routes').
  - intros (i & chain & Hchain & Hdeep).
    unfold parseRoutesFile_stack. rewrite Htokens. step_bind.
    rewrite Htree. step_bind.
    pose proof (buildTree_tree_inv _ _ _ Htree) as Hinv.
    destruct (ancestor_root tokens roots nodes Hinv i) as (r & Hr & Hup).
    { by eapply root_path_lt. }
    by apply (traverse_roots_stack_overflows tokens roots nodes text Hinv
                (buildTree_links _ _ _ Htree) stack i chain Hchain Hdeep
                roots [] r).
Qed.

(** ** Nested prefixes form one chain *)

Lemma nested_contains n k :
  contains_span (nested_token n k) (nested_token n (S k)).
Proof.
  split; [done|]. exists (12 * Z.of_nat k + 11).
  cbn [nested_token childrenStartIndex startIndex endIndex].
  split; [done|]. lia.
Qed.

Lemma nested_chain n roots nodes :
  tree_inv (nested_token n <$> seq 0 n) (length (nested_token n <$> seq 0 n))
    nodes roots ->
  forall k, (k < n)%nat ->
    exists chain, root_path nodes k chain /\ length chain = S k.
Proof.
  intros Hinv.
  assert (forall k, (k < n)%nat ->
            (nested_token n <$> seq 0 n) !! k = Some (nested_token n k))
    as Htoken.
  { intros k Hk. rewrite list_lookup_fmap, lookup_seq_lt by done. done. }
  pose proof (tree_inv_length _ _ _ _ Hinv) as Hlen.
  rewrite length_fmap, length_seq in Hlen.
  induction k as [|k IH]; intros Hk.
  - destruct (lookup_lt_is_Some_2 nodes 0) as [n0 Hn0]; [lia|].
    exists [n0]. split; [|done]. apply root_path_root; [done|].
    destruct (parent n0) as [j|] eqn:Hp; [|done].
    pose proof (parent_lt _ _ _ Hinv 0%nat n0 j Hn0 Hp). lia.
  - destruct IH as (chain & Hchain & Hlength); [lia|].
    destruct (lookup_lt_is_Some_2 nodes (S k)) as [nk Hnk]; [lia|].
    exists (chain ++ [nk]). split; [|rewrite length_app; cbn [length]; lia].
    apply (root_path_step nodes (S k) nk k); [done| |done].
    pose proof (inv_parent _ _ _ _ Hinv (S k) nk Hnk) as Hnear.
    rewrite length_fmap, length_seq in Hnear. specialize (Hnear Hk).
    destruct (parent nk) as [j|].
    + destruct Hnear as (Hj & _ & Hnone).
      destruct (decide (j = k)) as [->|Hne]; [done|].
      exfalso. apply (Hnone k (nested_token n k) (nested_token n (S k)));
        [lia|apply Htoken; lia|by apply Htoken|apply nested_contains].
    + exfalso. apply (Hnear k (nested_token n k) (nested_token n (S k)));
        [lia|apply Htoken; lia|by apply Htoken|apply nested_contains].
Qed.

Lemma parseRoutesFile_stack_nested n stack :
  (stack < n)%nat ->
  parseRoutesFile_stack stack (nested_prefixes n) = Some None.
Proof.
  intros Hdeep.
  destruct (parseRoutesFile_stack_spec (nested_prefixes n))
    as (tokens & roots & nodes & routes & Htokens & Htree & _ & Hstack).
  rewrite parseRouteTokens_nested in Htokens. injection Htokens as <-.
  apply Hstack.
  destruct (nested_chain n roots nodes (buildTree_tree_inv _ _ _ Htree)
              (n - 1)) as (chain & Hchain & Hlength); [lia|].
  exists (n - 1)%nat, chain. split; [done|lia].
Qed.

(** A run of the whole parse on a call stack returns or raises, and a run
    that returns gives the routes of [parseRoutesFile]. *)
Lemma parseRoutesFile_stack_total text routes stack :
  parseRoutesFile text = Some routes ->
  parseRoutesFile_stack stack text = Some (Some routes)
  \/ parseRoutesFile_stack stack text = Some None.
Proof.
  unfold parseRoutesFile, parseRoutesFile_stack. intros Hrun.
  destruct (parseRouteTokens text) as [tokens|]; [|done].
  cbn [mbind option_bind] in *.
  destruct (buildTree tokens) as [[roots nodes]|] eqn:Htree; [|done].
  cbn [mbind option_bind] in *.
  pose proof (buildTree_tree_inv _ _ _ Htree) as Hinv.
  assert (forall rs acc,
            (forall r, r ∈ rs -> r ∈ roots) ->
            exists result,
              traverse_roots_stack stack text nodes rs acc = Some result)
    as Htotal.
  { induction rs as [|r rs IH]; intros acc Hsub; [by eexists|].
    cbn [traverse_roots_stack].
    assert (r ∈ roots) as Hr by (apply Hsub; by left).
    apply (inv_roots _ _ _ _ Hinv) in Hr as [_ (n & Hn & _)].
    destruct (traverse_stack_total tokens roots nodes text Hinv stack r acc)
      as [[acc'|] ->]; [by eapply lookup_lt_Some| |by eexists].
    step_bind. apply IH. intros r' Hr'. apply Hsub. by right. }
  destruct (Htotal roots []) as [[routes'|] Hstack]; [done| |by right].
  left. rewrite Hstack. do 2 f_equal.
  by apply (traverse_roots_stack_agree nodes text stack roots [] routes routes').
Qed.

(** No chain of nested constructs is longer than the token stream. *)
Lemma root_path_tokens tokens roots nodes i chain :
  buildTree tokens = Some (roots, nodes) ->
  root_path nodes i chain -> (length chain <= length tokens)%nat.
Proof.
  intros Htree Hchain. pose proof (buildTree_tree_inv _ _ _ Htree) as Hinv.
  pose proof (root_path_length tokens roots nodes Hinv i chain Hchain).
  pose proof (root_path_lt nodes i chain Hchain).
  rewrite (tree_inv_length _ _ _ _ Hinv) in *. lia.
Qed.

(** ** Strings that are not closed *)

(** The loop of [extractStringArg] ends before the end of the text when a
    quote closes the string, and at the end of the text when none does. *)
Lemma read_quoted_end text quote fuel : forall body i acc,
  0 <= i -> suffix text i = body -> (length body < fuel)%nat ->
  exists i' value,
    read_quoted fuel text quote i acc = Some (i', value)
    /\ if unclosed quote body then len text <= i' else i' < len text.
Proof.
  induction fuel as [|fuel IH]; intros body i acc Hi Hsuffix Hfuel; [lia|].
  cbn [read_quoted]. pose proof (length_suffix text i Hi) as Hlen.
  rewrite Hsuffix in Hlen.
  destruct body as [|c body].
  { cbn in Hlen. destruct (Z.ltb_spec i (len text)) as [?|Hout]; [lia|].
    cbn [andb unclosed]. eauto. }
  apply suffix_head in Hsuffix as [Hc Hrest]; [|done].
  pose proof (char_at_Some _ _ _ Hc) as Hin.
  destruct (Z.ltb_spec i (len text)) as [_|?]; [|lia]. cbn [andb unclosed].
  rewrite !(is_char_false _ _ _ _ Hc).
  destruct (c =? quote)%N; cbn [negb]; [eexists _, _; split; [done|lia]|].
  destruct (c =? BACKSLASH)%N; cbn [andb].
  - destruct body as [|x body].
    + pose proof (length_suffix text (i + 1) ltac:(lia)) as Hlen'.
      rewrite Hrest in Hlen'. cbn in Hlen'.
      destruct (Z.ltb_spec (i + 1) (len text)) as [?|_]; [lia|].
      destruct (IH [] (i + 1) (acc ++ js_string_of (char_at text i)))
        as (i' & value & -> & Hend); [lia|done|cbn [length]; lia|].
      eauto.
    + apply suffix_head in Hrest as [Hx Hrest]; [|lia].
      pose proof (char_at_Some _ _ _ Hx) as Hin'.
      destruct (Z.ltb_spec (i + 1) (len text)) as [_|?]; [|lia].
      replace (i + 2) with (i + 1 + 1) by lia.
      destruct (IH body (i + 1 + 1)
                  (acc ++ js_string_of (char_at text (i + 1))))
        as (i' & value & -> & Hend);
        [lia|done|cbn [length] in Hfuel; lia|].
      eauto.
  - destruct (IH body (i + 1) (acc ++ js_string_of (char_at text i)))
      as (i' & value & -> & Hend); [lia|done|cbn [length] in Hfuel; lia|].
    eauto.
Qed.

(** The separators a text begins with, and what follows them. *)
Lemma split_separators (l : list N) :
  exists seps rest,
    l = seps ++ rest
    /\ Forall (fun x => test_separator (Some x) = true) seps
    /\ (rest = [] \/ exists c rest', rest = c :: rest'
                                    /\ test_separator (Some c) = false).
Proof.
  induction l as [|c l (seps & rest & -> & Hseps & Hrest)].
  - exists [], []. repeat split; [constructor|by left].
  - destruct (test_separator (Some c)) eqn:Hc.
    + exists (c :: seps), rest. repeat split; [by constructor|done].
    + exists [], (c :: seps ++ rest). repeat split; [constructor|].
      right. eauto.
Qed.

Lemma suffix_after text p seps rest :
  0 <= p -> suffix text p = seps ++ rest ->
  suffix text (p + len seps) = rest.
Proof.
  intros Hp Hsuffix. unfold suffix in *. unfold len.
  replace (Z.to_nat (p + Z.of_nat (length seps)))
    with (Z.to_nat p + length seps)%nat by lia.
  rewrite <- drop_drop, Hsuffix. by rewrite drop_app_length.
Qed.

(** What [extractStringArg] returns, by what the text holds from
    [startFrom] on. *)
Lemma extractStringArg_cases text p seps :
  0 <= p -> Forall (fun x => test_separator (Some x) = true) seps ->
  (suffix text p = seps -> extractStringArg text p = Some None)
  /\ (forall c rest,
        suffix text p = seps ++ c :: rest ->
        test_separator (Some c) = false -> c <> DQUOTE -> c <> SQUOTE ->
        extractStringArg text p = Some None)
  /\ (forall quote body,
        quote = DQUOTE \/ quote = SQUOTE ->
        suffix text p = seps ++ quote :: body ->
        if unclosed quote body
        then extractStringArg text p = Some None
        else exists value endIndex,
               extractStringArg text p = Some (Some (value, endIndex))).
Proof.
  intros Hp Hseps. unfold extractStringArg.
  pose proof (length_suffix text p Hp) as Hlen.
  split; [|split].
  - intros Hs.
    destruct (skip_separators_end text seps p (budget text p))
      as (r & -> & Hr); [done|done|done|rewrite Hs in Hlen; unfold budget; lia|].
    step_bind. by destruct (Z.leb_spec (len text) r) as [_|?]; [|lia].
  - intros c rest Hs Hc Hd Hq.
    rewrite Hs, length_app in Hlen. cbn [length] in Hlen.
    rewrite (skip_separators_run text c rest seps);
      [|done|done|done|done|unfold budget; lia].
    step_bind.
    pose proof (suffix_after text p seps (c :: rest) Hp Hs) as Hs'.
    apply suffix_head in Hs' as [Hat _]; [|unfold len; lia].
    rewrite Hat.
    destruct (Z.leb_spec (len text) (p + len seps)); [done|].
    apply N.eqb_neq in Hd, Hq. by rewrite Hd, Hq.
  - intros quote body Hq Hs.
    rewrite Hs, length_app in Hlen. cbn [length] in Hlen.
    rewrite (skip_separators_run text quote body seps);
      [|done|done|done|by destruct Hq as [->| ->]|unfold budget; lia].
    step_bind.
    pose proof (suffix_after text p seps (quote :: body) Hp Hs) as Hs'.
    apply suffix_head in Hs' as [Hat Hs']; [|unfold len; lia].
    pose proof (char_at_Some _ _ _ Hat) as Hin.
    rewrite Hat.
    destruct (Z.leb_spec (len text) (p + len seps)) as [?|_]; [lia|].
    assert (negb (quote =? DQUOTE)%N && negb (quote =? SQUOTE)%N = false) as ->
      by (by destruct Hq as [->| ->]).
    destruct (read_quoted_end text quote (budget text (p + len seps + 1)) body
                (p + len seps + 1) [])
      as (i' & value & -> & Hend);
      [unfold len; lia|done|unfold budget, len in *; lia|].
    step_bind. destruct (unclosed quote body).
    + by destruct (Z.leb_spec (len text) i') as [_|?]; [|lia].
    + destruct (Z.leb_spec (len text) i') as [?|_]; [lia|]. eauto.
Qed.

(** * The claims *)

(** C1: for the text [prefix('dashboard', [ index('./d/home.tsx'),
    route('settings', './d/settings.tsx') ])] the parse produces exactly two
    records, the index with full path "/dashboard" and the route with full
    path "/dashboard/settings"; the prefix is a token of the stream and has
    no record. *)
Theorem C1_prefix_dashboard_records :
  let text := text_of "prefix('dashboard', [ index('./d/home.tsx'), route('settings', './d/settings.tsx') ])" in
  exists home settings,
    parseRoutesFile text = Some [home; settings]
    /\ r_type home = Index /\ fullPath home = text_of "/dashboard"
    /\ r_type settings = Route
    /\ fullPath settings = text_of "/dashboard/settings"
    /\ exists p i r,
         parseRouteTokens text = Some [p; i; r]
         /\ type p = Prefix /\ path p = text_of "dashboard".
Proof.
  intros text.
  destruct (parseRoutesFile text) as [routes|] eqn:Hroutes;
    vm_compute in Hroutes; [|done].
  destruct (parseRouteTokens text) as [tokens|] eqn:Htokens;
    vm_compute in Htokens; [|done].
  injection Hroutes as <-. injection Htokens as <-.
  eexists _, _. split; [reflexivity|].
  do 4 (split; [reflexivity|]).
  eexists _, _, _. split; [reflexivity|]. split; reflexivity.
Qed.

(** C2, as stated, fails: in [prefix('a', [ 'index(\' )' ])] the matcher
    gives the [index(] inside the string the closing parenthesis of the
    prefix, so the two tokens end at the same offset; the code makes the
    prefix the parent of the index, whose span is not strictly inside. *)
Lemma C2_counterexample_shared_close :
  let text := text_of "prefix('a', [ 'index(\' )' ])" in
  exists p x roots nodes node,
    parseRouteTokens text = Some [p; x]
    /\ buildTree [p; x] = Some (roots, nodes)
    /\ nodes !! 1%nat = Some node /\ parent node = Some 0%nat
    /\ endIndex x = endIndex p
    /\ ~ nearest_parent strictly_contains_span [p; x] 1 (parent node).
Proof.
  intros text. evaluate (parseRouteTokens text).
  eexists _, _. evaluate (buildTree
    [ {| type := Prefix; path := [97%N]; startIndex := 0; endIndex := 28;
         hasChildren := true; childrenStartIndex := Some 12 |};
      {| type := Index; path := []; startIndex := 15; endIndex := 28;
         hasChildren := false; childrenStartIndex := None |} ]).
  eexists _, _, _. split; [reflexivity|]. split; [reflexivity|].
  split; [reflexivity|]. split; [reflexivity|]. split; [reflexivity|].
  intros (_ & (tj & ti & [= <-] & [= <-] & _ & c & _ & _ & Hend) & _).
  by vm_compute in Hend.
Qed.

(** C2, amended: [buildTree] returns on every token list, and the parent of
    token [i] is the nearest token [j] before [i] that has a children array
    which starts before the start of [i] and whose call ends at or after the
    end of [i] (equal ends allowed), with no such token between [j] and [i];
    token [i] has no parent, and is a root, exactly when no token before it
    is such. *)
Theorem C2_parent_is_nearest_container tokens :
  exists roots nodes,
    buildTree tokens = Some (roots, nodes) /\ length nodes = length tokens
    /\ forall i node, nodes !! i = Some node ->
         tokens !! i = Some (token node)
         /\ nearest_parent contains_span tokens i (parent node)
         /\ (parent node = None <-> i ∈ roots).
Proof.
  destruct (buildTree_inv tokens) as (roots & nodes & Htree & Hinv).
  exists roots, nodes. split; [done|].
  pose proof (tree_inv_length _ _ _ _ Hinv) as Hlen. split; [done|].
  intros i node Hnode. pose proof (lookup_lt_Some _ _ _ Hnode) as Hi.
  split; [apply (node_token tokens nodes (inv_tokens _ _ _ _ Hinv) i node Hnode)|].
  split; [apply (inv_parent _ _ _ _ Hinv i node Hnode); lia|].
  rewrite (inv_roots _ _ _ _ Hinv). split.
  - intros Hp. split; [lia|eauto].
  - intros [_ (n & Hn & Hp)]. congruence.
Qed.

Lemma C2_witness_nested_prefix :
  let p := {| type := Prefix; path := [97%N]; startIndex := 0; endIndex := 32;
              hasChildren := true; childrenStartIndex := Some 12 |} in
  let x := {| type := Index; path := []; startIndex := 14; endIndex := 29;
              hasChildren := false; childrenStartIndex := None |} in
  exists roots nodes,
    buildTree [p; x] = Some (roots, nodes) /\ length nodes = length [p; x]
    /\ forall i node, nodes !! i = Some node ->
         [p; x] !! i = Some (token node)
         /\ nearest_parent contains_span [p; x] i (parent node)
         /\ (parent node = None <-> i ∈ roots).
Proof. intros p x. exact (C2_parent_is_nearest_container [p; x]). Defined.

(** C3, as stated, fails: in [prefix('a', [ route('', './x.tsx') ])] the
    route declares the empty segment; joining "a" and "" gives "a/", so the
    claim's full path is "/a/", and the code's is "/a". *)
Lemma C3_counterexample_empty_segment :
  let text := text_of "prefix('a', [ route('', './x.tsx') ])" in
  exists tokens roots nodes chain,
    parseRouteTokens text = Some tokens
    /\ buildTree tokens = Some (roots, nodes)
    /\ root_path nodes 1 chain
    /\ calculateFullPath nodes 1 = Some (text_of "/a")
    /\ resolve (declared_segments chain) = text_of "/a/"
    /\ calculateFullPath nodes 1 <> Some (resolve (declared_segments chain)).
Proof.
  intros text. evaluate (parseRouteTokens text). eexists.
  evaluate (buildTree
    [ {| type := Prefix; path := [97%N]; startIndex := 0; endIndex := 36;
         hasChildren := true; childrenStartIndex := Some 12 |};
      {| type := Route; path := []; startIndex := 14; endIndex := 33;
         hasChildren := false; childrenStartIndex := None |} ]).
  eexists _, _, _. split; [reflexivity|]. split; [reflexivity|]. split.
  { eapply (root_path_step _ 1 _ 0); [reflexivity|reflexivity|].
    eapply root_path_root; reflexivity. }
  split; [by vm_compute|]. split; [by vm_compute|]. by vm_compute.
Qed.

(** C3, amended: the full path of a node is made of the declared segments
    of the nodes from the root down to it that are no layout and whose
    segment is not empty: joined with [/], repeated slashes collapsed,
    leading slashes stripped, one [/] put in front.  In
    [layout('./layout.tsx', [ route('x', './x.tsx') ])] the full path of the
    route is "/x". *)
Theorem C3_fullPath_of_nonempty_segments :
  (exists l x,
     parseRoutesFile (text_of "layout('./layout.tsx', [ route('x', './x.tsx') ])")
     = Some [l; x]
     /\ r_type l = Layout /\ r_type x = Route /\ fullPath x = text_of "/x")
  /\ forall tokens roots nodes i,
       buildTree tokens = Some (roots, nodes) -> (i < length tokens)%nat ->
       exists chain,
         root_path nodes i chain
         /\ calculateFullPath nodes i = Some (resolve (nonempty_segments chain)).
Proof.
  split.
  - evaluate (parseRoutesFile
      (text_of "layout('./layout.tsx', [ route('x', './x.tsx') ])")).
    eexists _, _. split; [reflexivity|]. by repeat split.
  - intros tokens roots nodes i Htree%buildTree_tree_inv Hi.
    rewrite <- (tree_inv_length _ _ _ _ Htree) in Hi.
    destruct (root_path_exists tokens roots nodes Htree i Hi) as [chain Hchain].
    exists chain. split; [done|].
    apply (calculateFullPath_spec tokens roots nodes Htree i chain Hchain).
Qed.

Lemma C3_witness_route_in_prefix :
  let p := {| type := Prefix; path := text_of "a"; startIndex := 0;
              endIndex := 36; hasChildren := true;
              childrenStartIndex := Some 12 |} in
  let r := {| type := Route; path := text_of "b/"; startIndex := 14;
              endIndex := 33; hasChildren := false;
              childrenStartIndex := None |} in
  let nodes := [ {| token := p; children := [1%nat]; parent := None |};
                 {| token := r; children := []; parent := Some 0%nat |} ] in
  exists chain,
    root_path nodes 1 chain
    /\ calculateFullPath nodes 1 = Some (resolve (nonempty_segments chain)).
Proof.
  intros p r nodes.
  apply (proj2 C3_fullPath_of_nonempty_segments [p; r] [0%nat] nodes 1%nat).
  - vm_compute. reflexivity.
  - vm_compute. lia.
Defined.

(** C4: [findMatchingParen] returns what the matcher of the specification
    returns: the offset of the parenthesis that brings the depth back to 0,
    a quoted run being passed over with its escapes and its parentheses not
    counted, and [-1] when the text ends before.  An offset it returns holds
    a closing parenthesis after the opening one.  In the text
    [route('a(b', './f.tsx'), route('c', './c.tsx')] both calls get their
    own closing parenthesis. *)
Theorem C4_findMatchingParen_matches :
  (forall text openIndex, -1 <= openIndex ->
     findMatchingParen text openIndex
     = Some (matching_paren InCode 0 (suffix text (openIndex + 1))
               (openIndex + 1)))
  /\ (forall text openIndex r,
        -1 <= openIndex -> findMatchingParen text openIndex = Some r ->
        r <> -1 -> openIndex < r < len text /\ is_char text r RPAREN = true)
  /\ let text := text_of "route('a(b', './f.tsx'), route('c', './c.tsx')" in
     exists first second,
       parseRouteTokens text = Some [first; second]
       /\ path first = text_of "a(b"
       /\ startIndex first = 0 /\ endIndex first = 22
       /\ path second = text_of "c"
       /\ startIndex second = 25 /\ endIndex second = 45
       /\ substring text 0 23 = text_of "route('a(b', './f.tsx')"
       /\ substring text 25 46 = text_of "route('c', './c.tsx')".
Proof.
  split; [apply findMatchingParen_spec|]. split; [apply findMatchingParen_found|].
  intros text. evaluate (parseRouteTokens text).
  eexists _, _. split; [reflexivity|]. by repeat split.
Qed.

Lemma C4_witness_paren_in_string :
  findMatchingParen (text_of "route('a(b', './f.tsx') + f(1)") 5 = Some 22
  /\ findMatchingParen (text_of "route('a(b', './f.tsx'") 5 = Some (-1).
Proof.
  split.
  - rewrite (proj1 C4_findMatchingParen_matches) by lia. by vm_compute.
  - rewrite (proj1 C4_findMatchingParen_matches) by lia. by vm_compute.
Defined.

(** C5, as stated, fails: in [layout([ ...prefix('x', [ index('./i.tsx') ]) ])]
    the array of the layout follows no comma, the scan passes the three dots
    and goes on into the spread call, and the locator returns the [[] of
    that call (offset 24) as the children array of the layout. *)
Lemma C5_counterexample_spread_array_taken :
  let text := text_of "layout([ ...prefix('x', [ index('./i.tsx') ]) ])" in
  findChildrenArray text 7 47 = Some (Some 24)
  /\ in_spread_target text 9 24
  /\ exists l p i,
       parseRouteTokens text = Some [l; p; i]
       /\ type l = Layout /\ endIndex l = 47 /\ childrenStartIndex l = Some 24
       /\ type p = Prefix /\ startIndex p = 12
       /\ childrenStartIndex p = Some 24.
Proof.
  intros text. split; [by vm_compute|]. split.
  - split; [by vm_compute|]. exists 44. split; [by vm_compute|lia].
  - evaluate (parseRouteTokens text). eexists _, _, _.
    split; [reflexivity|]. by repeat split.
Qed.

(** C5, amended: a run of three dots is skipped as a unit, and the scan goes
    on with what follows it; the locator returns the first [[] of the range
    that a comma of the range precedes, wherever it stands, the call after a
    spread included.  So when the array of the enclosing call itself follows
    a comma, as in [prefix('p', [ ...prefix('x', [ ... ]) ])], the locator
    returns a [[] at or before it, never the later one of the spread
    call. *)
Theorem C5_first_array_after_a_comma :
  (forall fuel text closeParenIndex i foundComma,
     0 <= i < closeParenIndex ->
     substring text i (i + 3) = [DOT; DOT; DOT] ->
     children_loop (S fuel) text closeParenIndex i foundComma
     = children_loop fuel text closeParenIndex (i + 3) foundComma)
  /\ (forall text afterFileArg closeParenIndex,
        0 <= afterFileArg ->
        findChildrenArray text afterFileArg closeParenIndex
        = Some (first_array
                  (chars_between text afterFileArg closeParenIndex)
                  afterFileArg false))
  /\ (forall text afterFileArg closeParenIndex comma array,
        0 <= afterFileArg <= comma -> comma < array < closeParenIndex ->
        is_char text comma COMMA = true ->
        is_char text array LBRACKET = true ->
        exists r,
          findChildrenArray text afterFileArg closeParenIndex = Some (Some r)
          /\ r <= array /\ is_char text r LBRACKET = true)
  /\ let text := text_of "prefix('p', [ ...prefix('x', [ index('./i.tsx') ]) ])" in
     exists outer inner i,
       parseRouteTokens text = Some [outer; inner; i]
       /\ startIndex outer = 0 /\ childrenStartIndex outer = Some 12
       /\ startIndex inner = 17 /\ childrenStartIndex inner = Some 29
       /\ substring text 14 17 = [DOT; DOT; DOT].
Proof.
  split; [|split; [|split]].
  - intros fuel text close i fc Hi Hdots.
    pose proof (substring_three text i DOT DOT DOT ltac:(lia) Hdots) as (H0 & _ & _).
    cbn [children_loop]. destruct (Z.ltb_spec i close) as [_|?]; [|lia].
    rewrite !(is_char_false _ _ _ _ H0), H0.
    change (DOT =? COMMA)%N with false. change (DOT =? LBRACKET)%N with false.
    change (test_space (Some DOT)) with false. cbn [andb negb].
    by rewrite bool_decide_eq_true_2.
  - intros text after close Hafter. by apply findChildrenArray_spec.
  - intros text after close comma array Hc Ha Hcomma Harray.
    destruct (first_array_earliest (chars_between text after close) after false
                (Z.to_nat (array - after))) as (r & Hr & Hle).
    { apply lookup_chars_between; [lia| |lia].
      apply is_char_true. by replace (after + _) with array by lia. }
    { right. exists (Z.to_nat (comma - after)). split; [lia|].
      apply lookup_chars_between; [lia| |lia].
      apply is_char_true. by replace (after + _) with comma by lia. }
    exists r. rewrite findChildrenArray_spec, Hr by lia.
    split; [done|]. split; [lia|].
    apply (findChildrenArray_bounds text after close r); [lia|].
    by rewrite findChildrenArray_spec, Hr by lia.
  - intros text. evaluate (parseRouteTokens text). eexists _, _, _.
    split; [reflexivity|]. by repeat split.
Qed.

Lemma C5_witness_own_array_first :
  let text := text_of "prefix('p', [ ...prefix('x', [ index('./i.tsx') ]) ])" in
  exists r,
    findChildrenArray text 10 52 = Some (Some r)
    /\ r <= 12 /\ is_char text r LBRACKET = true.
Proof.
  intros text.
  destruct C5_first_array_after_a_comma as (_ & _ & Hearliest & _).
  apply (Hearliest text 10 52 10 12); [lia|lia|by vm_compute|by vm_compute].
Defined.

(** C6: for the text [index('./home.tsx')] the parse yields exactly one
    record, whose full path is "/"; and the full path of a node is "/"
    whenever every node from the root down to it is a layout or has an
    empty segment. *)
Theorem C6_index_alone_is_root :
  (exists home,
     parseRoutesFile (text_of "index('./home.tsx')") = Some [home]
     /\ fullPath home = text_of "/")
  /\ forall tokens roots nodes i chain,
       buildTree tokens = Some (roots, nodes) ->
       root_path nodes i chain ->
       (forall n, n ∈ chain -> type (token n) <> Layout ->
                  path (token n) = []) ->
       calculateFullPath nodes i = Some (text_of "/").
Proof.
  split.
  - evaluate (parseRoutesFile (text_of "index('./home.tsx')")).
    eexists. split; reflexivity.
  - intros tokens roots nodes i chain Htree%buildTree_tree_inv Hchain Hall.
    rewrite (calculateFullPath_spec tokens roots nodes Htree i chain Hchain).
    by rewrite nonempty_segments_nil.
Qed.

(** The general half of C6 at a layout with an index inside: the chain of
    the index is the layout and the index itself. *)
Lemma C6_witness_index_in_layout :
  let l := {| type := Layout; path := []; startIndex := 0; endIndex := 30;
              hasChildren := true; childrenStartIndex := Some 16 |} in
  let x := {| type := Index; path := []; startIndex := 18; endIndex := 27;
              hasChildren := false; childrenStartIndex := None |} in
  let nodes := [ {| token := l; children := [1%nat]; parent := None |};
                 {| token := x; children := []; parent := Some 0%nat |} ] in
  calculateFullPath nodes 1 = Some (text_of "/").
Proof.
  intros l x nodes.
  apply (proj2 C6_index_alone_is_root [l; x] [0%nat] nodes 1%nat nodes).
  - vm_compute. reflexivity.
  - apply (root_path_step nodes 1 _ 0 [_]); [reflexivity|reflexivity|].
    by apply root_path_root.
  - intros n Hn Hty. repeat (apply elem_of_cons in Hn as [->|Hn]; [done|]).
    by apply elem_of_nil in Hn.
Defined.

(** C7: every record of every text has a full path that starts with [/] and
    holds no two slashes in a row. *)
Theorem C7_fullPath_normal text routes r :
  parseRoutesFile text = Some routes -> r ∈ routes ->
  (exists rest, fullPath r = SLASH :: rest)
  /\ forall before after, fullPath r <> before ++ SLASH :: SLASH :: after.
Proof.
  intros (tokens & roots & nodes & _ & _ & Hem)%parseRoutesFile_emitted Hr.
  rewrite Forall_forall in Hem.
  destruct (Hem r Hr) as (i & n & full & _ & _ & Hfull & ->).
  apply calculateFullPath_shape in Hfull as [parts ->].
  change (fullPath (record_of text n (resolve parts))) with (resolve parts).
  split; [by eexists|]. intros before after Heq.
  pose proof (resolve_single parts) as Hs.
  by rewrite Heq, double_slash_app in Hs.
Qed.

Lemma C7_witness_doubled_slashes :
  exists r,
    parseRoutesFile (text_of "prefix('//a/', [ route('/b//c', './x.tsx') ])")
    = Some [r]
    /\ fullPath r = text_of "/a/b/c"
    /\ (exists rest, fullPath r = SLASH :: rest)
    /\ forall before after, fullPath r <> before ++ SLASH :: SLASH :: after.
Proof.
  evaluate (parseRoutesFile (text_of "prefix('//a/', [ route('/b//c', './x.tsx') ])")).
  eexists. split; [reflexivity|]. split; [reflexivity|].
  eapply (C7_fullPath_normal
            (text_of "prefix('//a/', [ route('/b//c', './x.tsx') ])")).
  - vm_compute. reflexivity.
  - apply list_elem_of_singleton. reflexivity.
Defined.

(** C8, as stated, fails: [traverse] calls itself once for each level of
    nesting, and nothing bounds the depth or catches the [RangeError] of a
    full call stack.  Three nested prefixes are parsed with room for three
    nested calls and raise with room for two; and whatever room the engine
    has, the text with one more nested prefix than that raises. *)
Lemma C8_counterexample_deep_nesting :
  let text := text_of "prefix('a',[prefix('a',[prefix('a',[])])])" in
  text = nested_prefixes 3
  /\ parseRoutesFile_stack 3 text = Some (Some [])
  /\ parseRoutesFile_stack 2 text = Some None
  /\ forall stack,
       parseRoutesFile_stack stack (nested_prefixes (S stack)) = Some None.
Proof.
  intros text. split; [reflexivity|]. split; [by vm_compute|].
  split; [by vm_compute|].
  intros stack. apply parseRoutesFile_stack_nested. lia.
Qed.

(** C8, amended: on every text the scanner, the tree building and every
    loop return, and the traversal returns when the engine has room for its
    nested calls.  [parseRoutesFile] is the parse with room for every
    nested call, and [parseRoutesFile_stack stack] the parse on a call
    stack with room for [stack] nested calls of [traverse]: it returns the
    routes of [parseRoutesFile] or raises, nothing else; it returns them
    when no chain of nested constructs is longer than [stack], so whenever
    [stack] is at least the number of tokens, and it raises when some chain
    is longer.  The one call that checks its arguments,
    [new vscode.Range], gets a line and a column that are not negative.
    The token stream holds exactly the tokens of the occurrences that
    [scan_match] keeps, whatever happens to the other occurrences; and an
    occurrence whose parenthesis has no match, whose required first string
    argument (route, prefix) is missing, or whose first or second string
    argument is never closed, is dropped: it gives no token. *)
Theorem C8_parse_returns_within_the_stack text :
  (exists tokens roots nodes routes,
     parseRouteTokens text = Some tokens
     /\ buildTree tokens = Some (roots, nodes)
     /\ parseRoutesFile text = Some routes
     /\ forall stack,
          (parseRoutesFile_stack stack text = Some (Some routes)
           \/ parseRoutesFile_stack stack text = Some None)
          /\ ((forall i chain, root_path nodes i chain ->
                 (length chain <= stack)%nat) ->
              parseRoutesFile_stack stack text = Some (Some routes))
          /\ ((length tokens <= stack)%nat ->
              parseRoutesFile_stack stack text = Some (Some routes))
          /\ ((exists i chain, root_path nodes i chain
                               /\ (stack < length chain)%nat) ->
              parseRoutesFile_stack stack text = Some None))
  /\ (forall tokens t,
        parseRouteTokens text = Some tokens ->
        (t ∈ tokens <->
         exists pat s,
           pat ∈ patterns /\ 0 <= s
           /\ is_Some (match_at text (regex pat) s)
           /\ scan_match text pat s = Some (Some t)))
  /\ (forall pat s,
        pat ∈ patterns ->
        (findMatchingParen text (indexOf text LPAREN s) = Some (-1)
         \/ (hasPath pat = true
             /\ extractStringArg text (indexOf text LPAREN s + 1) = Some None)
         \/ unterminated_at text (indexOf text LPAREN s + 1)
         \/ (exists value endIndex,
               extractStringArg text (indexOf text LPAREN s + 1)
               = Some (Some (value, endIndex))
               /\ unterminated_at text endIndex)) ->
        scan_match text pat s = Some None
        /\ forall tokens t,
             parseRouteTokens text = Some tokens -> t ∈ tokens ->
             ~ (type t = ptype pat /\ startIndex t = s))
  /\ (forall stack routes r,
        parseRoutesFile text = Some routes
        \/ parseRoutesFile_stack stack text = Some (Some routes) ->
        r ∈ routes ->
        exists l c,
          range r = (l, c, l, c + len (type_name (r_type r)))
          /\ line r = l /\ 0 <= l /\ 0 <= c).
Proof.
  split.
  { destruct (parseRoutesFile_stack_spec text)
      as (tokens & roots & nodes & routes & Htokens & Htree & Hroutes & Hstack).
    exists tokens, roots, nodes, routes. repeat split; try done.
    - by apply parseRoutesFile_stack_total.
    - apply Hstack.
    - intros Hroom. apply Hstack. intros i chain Hchain.
      pose proof (root_path_tokens _ _ _ _ _ Htree Hchain). lia.
    - apply Hstack. }
  split; [apply parseRouteTokens_elem|].
  split.
  - intros pat s Hpat Hbad.
    pose proof (scan_match_dropped text pat s Hbad) as Hdrop.
    split; [done|]. intros tokens t Hparse Ht [Hty Hstart].
    apply (parseRouteTokens_elem text tokens t Hparse) in Ht
      as (pat' & s' & Hpat' & _ & _ & Hscan).
    destruct (scan_match_total text pat' s') as (r & Hr & Hspec).
    rewrite Hscan in Hr. injection Hr as <-.
    destruct (Hspec t eq_refl) as (Hty' & Hstart' & _).
    assert (pat' = pat) as -> by (apply patterns_ptype_inj; congruence).
    congruence.
  - intros stack routes r [Hrun|Hrun]; [exact (parseRoutesFile_range text routes r Hrun)|].
    destruct (parseRoutesFile_total text) as [routes' Hroutes].
    destruct (parseRoutesFile_stack_total text routes' stack Hroutes)
      as [Hstack|Hstack]; [|congruence].
    assert (routes' = routes) as -> by congruence.
    exact (parseRoutesFile_range text routes r Hroutes).
Qed.

Lemma C8_witness_unclosed_route :
  let text := text_of "route('a', index('./i.tsx')" in
  let route_pattern :=
    {| regex := text_of "route"; ptype := Route; hasPath := true |} in
  exists x,
    parseRouteTokens text = Some [x] /\ type x = Index
    /\ scan_match text route_pattern 0 = Some None
    /\ forall tokens t,
         parseRouteTokens text = Some tokens -> t ∈ tokens ->
         ~ (type t = Route /\ startIndex t = 0).
Proof.
  intros text route_pattern. evaluate (parseRouteTokens text).
  eexists. split; [reflexivity|]. split; [reflexivity|].
  destruct (C8_parse_returns_within_the_stack text) as (_ & _ & Hdrop & _).
  apply (Hdrop route_pattern 0).
  - left.
  - left. by vm_compute.
Defined.

(** C9: the parse is a function of the text alone.  On every text it
    returns one token stream and one route list, and any other run on the
    same text returns the same; the only state that outlives an iteration,
    the [lastIndex] of a regular expression, starts at 0 for every pattern
    and is 0 again when the scan of the pattern ends. *)
Theorem C9_parse_is_deterministic text :
  exists tokens routes,
    parseRouteTokens text = Some tokens
    /\ parseRoutesFile text = Some routes
    /\ (forall tokens', parseRouteTokens text = Some tokens' ->
                        tokens' = tokens)
    /\ (forall routes', parseRoutesFile text = Some routes' ->
                        routes' = routes)
    /\ forall pat found,
         pat ∈ patterns ->
         exists found',
           scan_loop (budget text 0) text pat 0 found = Some (found', 0).
Proof.
  destruct (parseRoutesFile_total text) as [routes Hroutes].
  exists (sort_tokens (mjoin (tokens_of_pattern text <$> patterns))), routes.
  split; [apply parseRouteTokens_spec|]. split; [done|].
  split; [intros tokens'; rewrite parseRouteTokens_spec; congruence|].
  split; [intros routes'; congruence|].
  intros pat found Hpat. eexists. apply scan_loop_spec.
  - pose proof patterns_head_distinct as Hd. rewrite Forall_forall in Hd.
    by apply Hd.
  - lia.
  - unfold budget. lia.
Qed.

Lemma C9_witness_two_runs :
  let text := text_of "route('about', './about.tsx')" in
  exists tokens routes,
    parseRouteTokens text = Some tokens
    /\ parseRoutesFile text = Some routes
    /\ (forall tokens', parseRouteTokens text = Some tokens' ->
                        tokens' = tokens)
    /\ (forall routes', parseRoutesFile text = Some routes' ->
                        routes' = routes)
    /\ forall pat found,
         pat ∈ patterns ->
         exists found',
           scan_loop (budget text 0) text pat 0 found = Some (found', 0).
Proof. intros text. exact (C9_parse_is_deterministic text). Defined.

(** C10: a token of the stream whose [hasChildren] is set has a
    [childrenStartIndex], strictly between its [startIndex] and its
    [endIndex]. *)
Theorem C10_children_start_in_span text tokens t :
  parseRouteTokens text = Some tokens -> t ∈ tokens ->
  hasChildren t = true ->
  exists c, childrenStartIndex t = Some c /\ startIndex t < c < endIndex t.
Proof.
  intros Hparse Ht Hhas.
  apply (parseRouteTokens_elem text tokens t Hparse) in Ht
    as (pat & s & _ & Hs & [e He] & Hscan).
  destruct (scan_match_total text pat s) as (r & Hr & Hspec).
  rewrite Hscan in Hr. injection Hr as <-.
  destruct (Hspec t eq_refl) as (_ & Hstart & _ & _ & Hflag & Hchildren).
  rewrite Hflag in Hhas. apply bool_decide_eq_true in Hhas as [c Hc].
  exists c. split; [done|]. specialize (Hchildren c Hc).
  apply match_at_Some in He as (_ & Hle & Hparen & _).
  assert (0 <= len (regex pat)) by (unfold len; lia).
  destruct (indexOf_found text LPAREN s (e - 1)) as [Hlo Hhi]; [lia|done|].
  rewrite Hstart. lia.
Qed.

Lemma C10_witness_prefix_token :
  exists p i,
    parseRouteTokens (text_of "prefix('a', [ index('./x.tsx') ])") = Some [p; i]
    /\ exists c, childrenStartIndex p = Some c /\ startIndex p < c < endIndex p.
Proof.
  evaluate (parseRouteTokens (text_of "prefix('a', [ index('./x.tsx') ])")).
  eexists _, _. split; [reflexivity|].
  eapply (C10_children_start_in_span
            (text_of "prefix('a', [ index('./x.tsx') ])")).
  - vm_compute. reflexivity.
  - left.
  - reflexivity.
Defined.

(** * Further properties of the code *)

(** ** The token scanner *)

(** X1: [parseRouteTokens] returns its tokens in the strict order of their
    start offsets: no two tokens start at the same offset. *)
Theorem X1_tokens_in_strict_order text :
  exists tokens,
    parseRouteTokens text = Some tokens
    /\ forall i j ti tj,
         tokens !! i = Some ti -> tokens !! j = Some tj -> (i < j)%nat ->
         startIndex ti < startIndex tj.
Proof.
  rewrite parseRouteTokens_spec. eexists. split; [done|].
  apply (parseRouteTokens_sorted text). apply parseRouteTokens_spec.
Qed.

(** X2: the span of a token.  The text at [startIndex] is the name of the
    construct; only white space separates the name from an opening
    parenthesis; [endIndex] is the offset [findMatchingParen] gives for that
    parenthesis, it lies in the text and holds a closing parenthesis. *)
Theorem X2_token_span text tokens t :
  parseRouteTokens text = Some tokens -> t ∈ tokens ->
  0 <= startIndex t
  /\ substring text (startIndex t)
       (startIndex t + len (type_name (type t))) = type_name (type t)
  /\ (exists openParenIndex,
        startIndex t + len (type_name (type t)) <= openParenIndex < endIndex t
        /\ is_char text openParenIndex LPAREN = true
        /\ (forall k, startIndex t + len (type_name (type t)) <= k
                      < openParenIndex ->
              test_space (char_at text k) = true)
        /\ findMatchingParen text openParenIndex = Some (endIndex t))
  /\ endIndex t < len text
  /\ is_char text (endIndex t) RPAREN = true.
Proof. apply token_span. Qed.

Lemma X2_witness_spaced_route :
  exists t,
    parseRouteTokens (text_of "[ route  ('a', './a.tsx') ]") = Some [t]
    /\ startIndex t = 2 /\ endIndex t = 24
    /\ exists openParenIndex,
         startIndex t + len (type_name (type t)) <= openParenIndex < endIndex t
         /\ is_char (text_of "[ route  ('a', './a.tsx') ]") openParenIndex LPAREN
            = true.
Proof.
  evaluate (parseRouteTokens (text_of "[ route  ('a', './a.tsx') ]")).
  eexists. split; [reflexivity|]. split; [reflexivity|]. split; [reflexivity|].
  edestruct (X2_token_span (text_of "[ route  ('a', './a.tsx') ]"))
    as (_ & _ & (openParenIndex & Hspan & Hopen & _) & _);
    [vm_compute; reflexivity|left|].
  exists openParenIndex. split; [exact Hspan|exact Hopen].
Defined.

(** X3: an index and a layout have no segment, and an index has no
    children: a node has children only when its token has a children
    array, which an index never has. *)
Theorem X3_index_is_a_leaf text tokens roots nodes k n :
  parseRouteTokens text = Some tokens ->
  buildTree tokens = Some (roots, nodes) -> nodes !! k = Some n ->
  (type (token n) = Index \/ type (token n) = Layout -> path (token n) = [])
  /\ (type (token n) = Index -> children n = [])
  /\ (children n <> [] -> hasChildren (token n) = true).
Proof.
  intros Hparse Htree Hn.
  pose proof (buildTree_tree_inv _ _ _ Htree) as Hinv.
  pose proof (node_token tokens nodes (inv_tokens _ _ _ _ Hinv) k n Hn) as Ht.
  apply list_elem_of_lookup_2 in Ht.
  destruct (token_fields text tokens (token n) Hparse Ht) as [Hpath Hindex].
  split; [done|]. split; [|by eapply children_need_array].
  intros Hty. destruct (Hindex Hty) as [Hhas _].
  destruct (children n) as [|c cs] eqn:Hcs; [done|].
  rewrite (children_need_array tokens roots nodes k n Hinv Hn) in Hhas; [done|].
  by rewrite Hcs.
Qed.

Lemma X3_witness_index_in_layout :
  exists tokens l i,
    parseRouteTokens (text_of "layout('./l.tsx', [ index('./i.tsx') ])")
    = Some tokens
    /\ buildTree tokens = Some ([0%nat], [l; i])
    /\ children l = [1%nat] /\ type (token i) = Index
    /\ path (token i) = [] /\ children i = [].
Proof.
  evaluate (parseRouteTokens (text_of "layout('./l.tsx', [ index('./i.tsx') ])")).
  eexists _, _, _. split; [reflexivity|]. split; [vm_compute; reflexivity|].
  split; [reflexivity|]. split; [reflexivity|].
  edestruct (X3_index_is_a_leaf
               (text_of "layout('./l.tsx', [ index('./i.tsx') ])"))
    as (Hpath & Hleaf & _);
    [vm_compute; reflexivity|vm_compute; reflexivity|
     exact (eq_refl : _ !! 1%nat = Some _)|].
  split; [apply Hpath; by left|by apply Hleaf].
Defined.

(** ** The tree builder *)

(** X4: in the tree [buildTree] returns, a node lists exactly the nodes
    that name it as their parent; children and roots are listed in the order
    of the tokens, without repetition; a parent comes before its children;
    and the roots are the nodes without a parent. *)
Theorem X4_children_and_parents_agree tokens :
  exists roots nodes,
    buildTree tokens = Some (roots, nodes)
    /\ (forall k n c nc, nodes !! k = Some n -> nodes !! c = Some nc ->
          c ∈ children n <-> parent nc = Some k)
    /\ (forall k n, nodes !! k = Some n -> StronglySorted lt (children n))
    /\ StronglySorted lt roots
    /\ (forall k n j, nodes !! k = Some n -> parent n = Some j -> (j < k)%nat)
    /\ (forall r, r ∈ roots <-> exists n, nodes !! r = Some n /\ parent n = None).
Proof.
  destruct (buildTree_inv tokens) as (roots & nodes & Htree & Hinv).
  pose proof (buildTree_links _ _ _ Htree) as Hlinks.
  exists roots, nodes. split; [done|].
  split; [|split; [|split; [|split]]].
  - intros k n c nc Hn Hnc. split.
    + intros Hc. destruct (inv_children _ _ _ _ Hinv k n c Hn Hc)
        as [_ (nc' & Hnc' & Hp)]. congruence.
    + intros Hp.
      destruct (inv_listed _ _ Hlinks c nc k Hnc Hp) as (n' & Hn' & Hin).
      congruence.
  - apply (inv_ordered _ _ Hlinks).
  - apply (inv_roots_ordered _ _ Hlinks).
  - apply (parent_lt tokens roots nodes Hinv).
  - intros r. split.
    + intros Hr. by apply (inv_roots _ _ _ _ Hinv) in Hr as [_ Hr].
    + intros (n & Hn & Hp). apply (inv_roots _ _ _ _ Hinv). split; [|eauto].
      rewrite <- (tree_inv_length _ _ _ _ Hinv). by eapply lookup_lt_Some.
Qed.

(** ** The route records *)

(** X5: [parseRoutesFile] returns one record for every token that is no
    prefix, and none for a prefix: the records are those of the nodes, each
    once, and there are as many as tokens that are no prefix. *)
Theorem X5_one_record_per_route text :
  exists routes tokens roots nodes,
    parseRoutesFile text = Some routes
    /\ parseRouteTokens text = Some tokens
    /\ buildTree tokens = Some (roots, nodes)
    /\ routes ≡ₚ omap (record_at text nodes) (seq 0 (length tokens))
    /\ length routes = length (filter (fun t => type t <> Prefix) tokens).
Proof.
  destruct (parseRoutesFile_total text) as [routes Hparse].
  destruct (parseRoutesFile_records text routes Hparse)
    as (tokens & roots & nodes & Htok & Htree & Hperm).
  exists routes, tokens, roots, nodes. repeat split; try done.
  by apply (parseRoutesFile_count text).
Qed.

(** X6: the range of a record spans the name of its construct: it runs
    from the position of the offset where the name starts to the position
    of the offset where the name ends, both on the record's line. *)
Theorem X6_range_spans_the_keyword text routes r :
  parseRoutesFile text = Some routes -> r ∈ routes ->
  exists s,
    0 <= s /\ s + len (type_name (r_type r)) < len text
    /\ substring text s (s + len (type_name (r_type r))) = type_name (r_type r)
    /\ line r = getLineFromIndex text s
    /\ range r
       = (getLineFromIndex text s, getColumnFromIndex text s,
          getLineFromIndex text (s + len (type_name (r_type r))),
          getColumnFromIndex text (s + len (type_name (r_type r)))).
Proof.
  intros Hparse Hr. pose proof Hparse as Hem.
  apply parseRoutesFile_emitted in Hem
    as (tokens & roots & nodes & Htok & Htree & Hem).
  rewrite Forall_forall in Hem.
  destruct (Hem r Hr) as (i & n & full & Hn & Hty & Hfull & ->).
  pose proof (buildTree_tree_inv _ _ _ Htree) as Hinv.
  pose proof (node_token tokens nodes (inv_tokens _ _ _ _ Hinv) i n Hn) as Hti.
  apply list_elem_of_lookup_2 in Hti.
  destruct (token_keyword_line text tokens (token n) Htok Hti)
    as (Hs & He & Hsub & Hl & Hc).
  exists (startIndex (token n)). cbn [record_of r_type line range].
  rewrite Hl, Hc. done.
Qed.

Lemma X6_witness_second_line :
  exists r,
    parseRoutesFile two_line_routes = Some [r]
    /\ range r = (1, 2, 1, 7)
    /\ exists s,
         substring two_line_routes s (s + len (type_name (r_type r)))
         = type_name (r_type r)
         /\ range r
            = (getLineFromIndex two_line_routes s,
               getColumnFromIndex two_line_routes s,
               getLineFromIndex two_line_routes
                 (s + len (type_name (r_type r))),
               getColumnFromIndex two_line_routes
                 (s + len (type_name (r_type r)))).
Proof.
  evaluate (parseRoutesFile two_line_routes).
  eexists. split; [reflexivity|]. split; [reflexivity|].
  edestruct (X6_range_spans_the_keyword two_line_routes)
    as (s & _ & _ & Hsub & _ & Hrange); [vm_compute; reflexivity|left|].
  exists s. split; [exact Hsub|exact Hrange].
Defined.

(** ** Lines and columns *)

(** X7: how the position moves along the text.  Offset 0 is on line 0, at
    column 0, or at column -1 when the text begins with a newline.  After a
    newline the next offset is at column 0 of the next line; after any other
    character it is one column further on the same line. *)
Theorem X7_position_walk text :
  getLineFromIndex text 0 = 0
  /\ getColumnFromIndex text 0 = (if is_char text 0 NEWLINE then -1 else 0)
  /\ forall i, 0 <= i < len text ->
       if is_char text i NEWLINE then
         getLineFromIndex text (i + 1) = getLineFromIndex text i + 1
         /\ getColumnFromIndex text (i + 1) = 0
       else
         getLineFromIndex text (i + 1) = getLineFromIndex text i
         /\ getColumnFromIndex text (i + 1) = getColumnFromIndex text i + 1.
Proof.
  split; [|split].
  - unfold getLineFromIndex, substring. cbv zeta.
    assert (Z.min (Z.max 0 0) (len text) = 0) as -> by (unfold len; lia).
    done.
  - apply getColumnFromIndex_zero.
  - intros i Hi. rewrite getLineFromIndex_step, getColumnFromIndex_step by done.
    destruct (is_char text i NEWLINE); split; (done || lia).
Qed.

(** X8: a later offset of the text has a later position: a later line, or
    a later column of the same line.  So two offsets never share a
    position. *)
Theorem X8_positions_increase text i j :
  0 <= i -> i < j -> j <= len text ->
  getLineFromIndex text i < getLineFromIndex text j
  \/ (getLineFromIndex text i = getLineFromIndex text j
      /\ getColumnFromIndex text i < getColumnFromIndex text j).
Proof.
  intros Hi Hij Hj.
  pose proof (position_increases text i (Z.to_nat (j - i - 1))) as H.
  assert (i + Z.of_nat (S (Z.to_nat (j - i - 1))) = j) as Heq by lia.
  rewrite Heq in H. apply H; lia.
Qed.

Lemma X8_witness_across_a_newline :
  getLineFromIndex two_line_routes 1 < getLineFromIndex two_line_routes 4
  \/ (getLineFromIndex two_line_routes 1 = getLineFromIndex two_line_routes 4
      /\ getColumnFromIndex two_line_routes 1
         < getColumnFromIndex two_line_routes 4).
Proof.
  apply (X8_positions_increase two_line_routes 1 4); [lia|lia|].
  vm_compute. discriminate.
Defined.

(** ** Full paths *)

(** X9: the full path of a node that has a parent.  A layout, and a node
    with an empty segment, has the full path of its parent; any other node
    has the normal form of the parent's full path, a slash and its own
    segment. *)
Theorem X9_full_path_extends_parent tokens roots nodes i n j :
  buildTree tokens = Some (roots, nodes) ->
  nodes !! i = Some n -> parent n = Some j ->
  exists above,
    calculateFullPath nodes j = Some above
    /\ calculateFullPath nodes i
       = Some (if negb (is_layout (type (token n))) && truthy (path (token n))
               then SLASH :: strip_leading_slashes
                               (collapse_slashes
                                  (above ++ SLASH :: path (token n)))
               else above).
Proof.
  intros Htree. apply (calculateFullPath_child tokens roots nodes).
  by apply buildTree_tree_inv.
Qed.

Lemma X9_witness_route_in_prefix :
  exists tokens p r,
    parseRouteTokens (text_of "prefix('a/', [ route('/b', './b.tsx') ])")
    = Some tokens
    /\ buildTree tokens = Some ([0%nat], [p; r])
    /\ calculateFullPath [p; r] 0 = Some (text_of "/a/")
    /\ calculateFullPath [p; r] 1 = Some (text_of "/a/b")
    /\ exists above,
         calculateFullPath [p; r] 0 = Some above
         /\ calculateFullPath [p; r] 1
            = Some (SLASH :: strip_leading_slashes
                               (collapse_slashes
                                  (above ++ SLASH :: path (token r)))).
Proof.
  evaluate (parseRouteTokens
              (text_of "prefix('a/', [ route('/b', './b.tsx') ])")).
  eexists _, _, _. split; [reflexivity|]. split; [vm_compute; reflexivity|].
  split; [vm_compute; reflexivity|]. split; [vm_compute; reflexivity|].
  match goal with
  | |- context [calculateFullPath ?ns 1%nat] =>
      edestruct X9_full_path_extends_parent
        with (tokens := token <$> ns) (roots := [0%nat]) (nodes := ns)
             (i := 1%nat) (j := 0%nat)
        as (above & Habove & Hfull)
  end; [vm_compute; reflexivity|reflexivity|reflexivity|].
  exists above. split; [exact Habove|exact Hfull].
Defined.

(** X10: when no segment on the way from the root to a node holds a
    slash, the full path of the node is a slash followed by the segments
    that are not empty, joined by slashes. *)
Theorem X10_plain_segments_are_joined tokens roots nodes i chain :
  buildTree tokens = Some (roots, nodes) -> root_path nodes i chain ->
  (forall n, n ∈ chain -> SLASH ∉ path (token n)) ->
  calculateFullPath nodes i = Some (SLASH :: join (nonempty_segments chain)).
Proof.
  intros Htree. apply (calculateFullPath_plain tokens roots nodes).
  by apply buildTree_tree_inv.
Qed.

Lemma X10_witness_three_levels :
  exists tokens p l r,
    parseRouteTokens
      (text_of "prefix('a', [ layout('./l.tsx', [ route('b', './b.tsx') ]) ])")
    = Some tokens
    /\ buildTree tokens = Some ([0%nat], [p; l; r])
    /\ nonempty_segments [p; l; r] = [text_of "a"; text_of "b"]
    /\ calculateFullPath [p; l; r] 2
       = Some (SLASH :: join (nonempty_segments [p; l; r])).
Proof.
  evaluate (parseRouteTokens
    (text_of "prefix('a', [ layout('./l.tsx', [ route('b', './b.tsx') ]) ])")).
  eexists _, _, _, _. split; [reflexivity|]. split; [vm_compute; reflexivity|].
  split; [vm_compute; reflexivity|].
  match goal with
  | |- context [calculateFullPath ?ns 2%nat] =>
      eapply (X10_plain_segments_are_joined (token <$> ns) [0%nat] ns 2%nat)
  end.
  - vm_compute. reflexivity.
  - apply (root_path_step _ 2%nat _ 1%nat [_; _]); [reflexivity..|].
    apply (root_path_step _ 1%nat _ 0%nat [_]); [reflexivity..|].
    by apply root_path_root.
  - intros n Hn.
    repeat (apply elem_of_cons in Hn as [->|Hn];
              [apply (bool_decide_unpack _); vm_compute; exact I|]).
    by apply elem_of_nil in Hn.
Defined.

(** ** String arguments *)

(** X11: [extractStringArg] reads back a string written between two quotes
    with a backslash before every quote and every backslash of its own: it
    skips the separators before the opening quote, returns the string, and
    the offset just after the closing quote. *)
Theorem X11_escaped_string_is_read_back text p seps quote value rest :
  0 <= p -> quote = DQUOTE \/ quote = SQUOTE ->
  Forall (fun x => test_separator (Some x) = true) seps ->
  suffix text p = seps ++ quote :: escape quote value ++ quote :: rest ->
  extractStringArg text p
  = Some (Some (value, p + len seps + len (escape quote value) + 2)).
Proof.
  intros Hp Hq Hseps Hs. unfold extractStringArg.
  pose proof (length_suffix text p Hp) as Hlen.
  rewrite Hs, length_app in Hlen. cbn [length] in Hlen.
  rewrite length_app in Hlen. cbn [length] in Hlen.
  rewrite (skip_separators_run text quote (escape quote value ++ quote :: rest) seps);
    [|done|done|done|by destruct Hq as [->| ->]|unfold budget; lia].
  step_bind.
  assert (suffix text (p + len seps) = quote :: escape quote value ++ quote :: rest)
    as Hs'.
  { unfold suffix in *. unfold len.
    replace (Z.to_nat (p + Z.of_nat (length seps)))
      with (Z.to_nat p + length seps)%nat by lia.
    rewrite <- drop_drop, Hs. by rewrite drop_app_length. }
  apply suffix_head in Hs' as [Hat Hs']; [|unfold len; lia].
  pose proof (char_at_Some _ _ _ Hat) as Hb.
  destruct (Z.leb_spec (len text) (p + len seps)) as [Hout|_]; [lia|].
  rewrite Hat.
  assert (negb (quote =? DQUOTE)%N && negb (quote =? SQUOTE)%N = false) as ->
    by (by destruct Hq as [->| ->]).
  rewrite (read_quoted_escape text quote (quote :: rest) value);
    [|done|eauto|unfold len; lia|done|unfold budget, len in *; lia].
  step_bind.
  assert (suffix text (p + len seps + 1 + len (escape quote value))
          = quote :: rest) as Hs''.
  { unfold suffix in *. unfold len in *.
    replace (Z.to_nat (p + Z.of_nat (length seps) + 1
                       + Z.of_nat (length (escape quote value))))
      with (Z.to_nat (p + Z.of_nat (length seps) + 1)
            + length (escape quote value))%nat by lia.
    rewrite <- drop_drop, Hs'. by rewrite drop_app_length. }
  apply suffix_head in Hs'' as [Hat' _]; [|unfold len; lia].
  pose proof (char_at_Some _ _ _ Hat') as Hb'.
  destruct (Z.leb_spec (len text) (p + len seps + 1 + len (escape quote value)))
    as [Hout|_]; [lia|].
  do 3 f_equal. lia.
Qed.

Lemma X11_witness_escaped_quote :
  extractStringArg (text_of "route( 'it\'s', './a.tsx')") 6
  = Some (Some (text_of "it's", 14)).
Proof.
  apply (X11_escaped_string_is_read_back
           (text_of "route( 'it\'s', './a.tsx')") 6 (text_of " ") SQUOTE
           (text_of "it's") (text_of ", './a.tsx')")).
  - lia.
  - by right.
  - repeat constructor.
  - reflexivity.
Defined.

(** X12: [extractStringArg] returns [null] in three cases and in no other:
    when only separators are left of the text, when the first character
    that is no separator is no quote, and when the string that opens is
    [unclosed], that is when the text ends before a quote of the opening
    kind that has no backslash before it, whatever the string holds. *)
Theorem X12_no_string_argument text p :
  0 <= p ->
  (extractStringArg text p = Some None
   <-> exists seps,
         Forall (fun x => test_separator (Some x) = true) seps
         /\ (suffix text p = seps
             \/ (exists c rest,
                   suffix text p = seps ++ c :: rest
                   /\ test_separator (Some c) = false
                   /\ c <> DQUOTE /\ c <> SQUOTE)
             \/ (exists quote body,
                   (quote = DQUOTE \/ quote = SQUOTE)
                   /\ suffix text p = seps ++ quote :: body
                   /\ unclosed quote body = true))).
Proof.
  intros Hp. split.
  - intros Hnull.
    destruct (split_separators (suffix text p))
      as (seps & rest & Hs & Hseps & Hrest).
    exists seps. split; [done|].
    destruct (extractStringArg_cases text p seps Hp Hseps)
      as (_ & _ & Hquote).
    destruct Hrest as [->|(c & rest' & -> & Hc)];
      [left; by rewrite app_nil_r in Hs|].
    right.
    destruct (decide (c = DQUOTE \/ c = SQUOTE)) as [Hq|Hq].
    + right. exists c, rest'. split; [done|]. split; [done|].
      specialize (Hquote c rest' Hq Hs).
      destruct (unclosed c rest'); [done|].
      destruct Hquote as (value & endIndex & Hvalue). congruence.
    + left. exists c, rest'. repeat split; [done|done|tauto..].
  - intros (seps & Hseps & Hcases).
    destruct (extractStringArg_cases text p seps Hp Hseps)
      as (Hend & Hother & Hquote).
    destruct Hcases as [Hs|[(c & rest & Hs & Hc & Hd & Hq)
                            |(quote & body & Hq & Hs & Hopen)]].
    + by apply Hend.
    + by apply (Hother c rest).
    + specialize (Hquote quote body Hq Hs). by rewrite Hopen in Hquote.
Qed.

Lemma X12_witness_unclosed_string :
  extractStringArg (text_of "route( 'a, './a.tsx'") 6
  = Some (Some (text_of "a, ", 12))
  /\ extractStringArg (text_of "route( 'a, './a.tsx'") 12 = Some None
  /\ extractStringArg (text_of "route( 'a, './a.tsx'") 19 = Some None
  /\ extractStringArg (text_of "route('a\nb") 6 = Some None
  /\ extractStringArg (text_of "route('a\'") 6 = Some None
  /\ extractStringArg (text_of "route( , ") 6 = Some None.
Proof.
  split; [reflexivity|]. split; [|split; [|split; [|split]]].
  - apply (proj2 (X12_no_string_argument _ 12 ltac:(lia))). exists [].
    split; [constructor|]. right. left.
    exists DOT, (text_of "/a.tsx'"). by repeat split.
  - apply (proj2 (X12_no_string_argument _ 19 ltac:(lia))). exists [].
    split; [constructor|]. right. right.
    exists SQUOTE, []. split; [by right|]. by split.
  - apply (proj2 (X12_no_string_argument _ 6 ltac:(lia))). exists [].
    split; [constructor|]. right. right.
    exists SQUOTE, (text_of "a\nb"). split; [by right|]. by split.
  - apply (proj2 (X12_no_string_argument _ 6 ltac:(lia))). exists [].
    split; [constructor|]. right. right.
    exists SQUOTE, (text_of "a\'"). split; [by right|]. by split.
  - apply (proj2 (X12_no_string_argument _ 6 ltac:(lia))).
    exists (text_of " , "). split; [by repeat constructor|]. by left.
Defined.

(** ** A text without a call *)

(** X13: a text without an opening parenthesis has no token and no
    record. *)
Theorem X13_no_parenthesis_no_route text :
  LPAREN ∉ text ->
  parseRouteTokens text = Some [] /\ parseRoutesFile text = Some [].
Proof.
  intros Hno. split; [by apply parseRouteTokens_none|].
  by apply parseRoutesFile_none.
Qed.

Lemma X13_witness_comment_only :
  parseRouteTokens (text_of "// route index layout prefix") = Some []
  /\ parseRoutesFile (text_of "// route index layout prefix") = Some [].
Proof.
  apply X13_no_parenthesis_no_route.
  apply (bool_decide_unpack _). vm_compute. exact I.
Defined.

(** ** The project root *)

(** X14: [findProjectRoot] returns.  Its result is the directory of the
    file, or a directory above it that holds a project marker, is no shorter
    than the path of the workspace folder, is not its own parent, and has no
    directory with a marker between the file and itself. *)
Theorem X14_nearest_marked_directory {Uri} (host : Host Uri) filePath :
  (forall d,
     dirname host d = d \/ (length (dirname host d) < length d)%nat
     \/ dirname host (dirname host d) = dirname host d) ->
  exists root,
    findProjectRoot host filePath = Some root
    /\ (root = dirname host filePath
        \/ (has_marker host root = true
            /\ (forall workspaceRoot, workspaceFolder host = Some workspaceRoot ->
                  len workspaceRoot <= len root)
            /\ dirname host root <> root
            /\ exists k, root = directory_above host filePath k
                 /\ forall j, (j < k)%nat ->
                      has_marker host (directory_above host filePath j) = false)).
Proof.
  intros Hdirname. unfold findProjectRoot. cbv zeta.
  match goal with
  | |- context [root_loop _ host filePath ?w _] => set (workspaceRoot := w)
  end.
  destruct (root_loop_spec host filePath workspaceRoot Hdirname
              (S (S (S (length (dirname host filePath))))) 0%nat)
    as (root & Hrun & Hroot).
  { pose proof (turns_bound host (dirname host filePath)) as Hb.
    change (directory_above host filePath 0) with (dirname host filePath). lia. }
  { intros j Hj. lia. }
  exists root. split; [exact Hrun|].
  destruct Hroot as [->|(Hmark & Hlen & Hfix & Hk)]; [by left|right].
  split; [done|]. split; [|done].
  intros w Hw. unfold workspaceRoot in Hlen. rewrite Hw in Hlen.
  destruct w as [|c w]; [unfold len; cbn; lia|done].
Qed.

Lemma X14_witness_two_levels_up :
  findProjectRoot example_host (text_of "/w/app/routes/admin/users.tsx")
  = Some (text_of "/w/app")
  /\ exists root,
       findProjectRoot example_host (text_of "/w/app/routes/admin/users.tsx")
       = Some root
       /\ (root = dirname example_host (text_of "/w/app/routes/admin/users.tsx")
           \/ (has_marker example_host root = true
               /\ (forall workspaceRoot,
                     workspaceFolder example_host = Some workspaceRoot ->
                     len workspaceRoot <= len root)
               /\ dirname example_host root <> root
               /\ exists k,
                    root = directory_above example_host
                             (text_of "/w/app/routes/admin/users.tsx") k
                    /\ forall j, (j < k)%nat ->
                         has_marker example_host
                           (directory_above example_host
                              (text_of "/w/app/routes/admin/users.tsx") j)
                         = false)).
Proof.
  split; [vm_compute; reflexivity|].
  apply (X14_nearest_marked_directory example_host).
  exact example_dirname_shortens.
Defined.

(** ** Going to a file *)

(** X15: the pattern the provider searches for is what is left of the path
    after its leading dots and slashes: the path is a run of dots and slashes
    followed by the pattern, the pattern begins with neither, and cleaning
    it again changes nothing. *)
Theorem X15_cleaned_pattern rawPath :
  exists lead,
    rawPath = lead ++ strip_dots_slashes rawPath
    /\ Forall (fun c => c = DOT \/ c = SLASH) lead
    /\ (forall c, head (strip_dots_slashes rawPath) = Some c ->
          c <> DOT /\ c <> SLASH)
    /\ strip_dots_slashes (strip_dots_slashes rawPath)
       = strip_dots_slashes rawPath.
Proof.
  destruct (strip_dots_slashes_spec rawPath) as (lead & Heq & Hlead & Hhead).
  exists lead. repeat split; try done; try by apply Hhead.
  by apply strip_dots_slashes_id.
Qed.

(** X16: [searchFiles] without its loop.  It returns nothing when a read
    of the token says that the request is cancelled; else the files of the
    exact search when there are some, or when the pattern ends in one of the
    extensions; else the files found with each extension added, in the order
    of the extensions, each search with half the limit. *)
Theorem X16_searchFiles_closed_form {Uri} (host : Host Uri) searchPattern
    documentFsPath config token :
  searchFiles host searchPattern documentFsPath config token
  = projectRoot ← findProjectRoot host documentFsPath;
    let exclude := buildExcludePattern (excludeFolders config) in
    let exact :=
      findFiles host projectRoot (text_of "**/" ++ searchPattern) exclude
        (maxSearchResults config) in
    Some (if token 0%nat then []
          else if negb (bool_decide (exact = []))
                  || looksLikePath searchPattern (fileExtensions config)
          then exact
          else if existsb token (seq 1 (length (fileExtensions config)))
          then []
          else mjoin ((fun ext =>
                         findFiles host projectRoot
                           (text_of "**/" ++ searchPattern ++ ext) exclude
                           (maxSearchResults config / 2))
                        <$> fileExtensions config)).
Proof. apply searchFiles_spec. Qed.

(** X17: a string that ends in one of the extensions and has, before the
    extension, a character that is neither a dot nor a slash is searched for
    once, as it is: no extension is added to it.  The provider returns [null]
    when the request is cancelled or nothing is found, and else one link for
    every file found, from the range of the string. *)
Theorem X17_path_is_searched_as_written {Uri} (host : Host Uri) settings
    document position token range stem ext :
  extractPathAtPosition document position = Some (range, stem ++ ext) ->
  ext ∈ fileExtensions (getConfig settings) -> ext <> [] ->
  (exists c, c ∈ stem /\ c <> DOT /\ c <> SLASH) ->
  provideDefinition host settings document position token
  = if token 0%nat then Some None
    else
      projectRoot ← findProjectRoot host (fsPath document);
      let files :=
        if token 1%nat then []
        else findFiles host projectRoot
               (text_of "**/" ++ strip_dots_slashes stem ++ ext)
               (buildExcludePattern (excludeFolders (getConfig settings)))
               (maxSearchResults (getConfig settings)) in
      Some (if bool_decide (files = []) then None
            else Some ((fun file =>
                          {| originSelectionRange := range;
                             targetUri := file;
                             targetRange := (0, 0, 0, 0);
                             targetSelectionRange := (0, 0, 0, 0) |})
                         <$> files)).
Proof.
  intros Hextract Hext Hne Hstem. unfold provideDefinition. rewrite Hextract.
  cbv zeta.
  assert (looksLikePath (stem ++ ext) (fileExtensions (getConfig settings)) = true)
    as -> by (apply looksLikePath_elem; eauto).
  cbn [negb]. destruct (token 0%nat); [done|].
  destruct (strip_dots_slashes_app stem ext Hstem) as [-> Hnonempty].
  assert (negb (truthy (strip_dots_slashes stem ++ ext))
          || (len (strip_dots_slashes stem ++ ext) <? 2) = false) as ->.
  { destruct (strip_dots_slashes stem) as [|c s]; [done|].
    destruct ext as [|e ext]; [done|]. cbn [app truthy negb orb].
    apply Z.ltb_ge. unfold len. rewrite length_cons, length_app, length_cons. lia. }
  rewrite searchFiles_spec.
  destruct (findProjectRoot host (fsPath document)) as [root|]; [|done].
  step_bind. cbv zeta.
  assert (looksLikePath (strip_dots_slashes stem ++ ext)
            (fileExtensions (getConfig settings)) = true)
    as -> by (apply looksLikePath_elem; eauto).
  rewrite orb_true_r. destruct (token 1%nat); [done|].
  match goal with |- context [length ?l] => destruct l as [|file files] end; done.
Qed.

Lemma X17_witness_home_route :
  provideDefinition example_host no_settings example_document (0, 30)
    (fun _ => false)
  = Some (Some [ {| originSelectionRange := (0, 23, 0, 42);
                    targetUri := text_of "/w/app/routes/home.tsx";
                    targetRange := (0, 0, 0, 0);
                    targetSelectionRange := (0, 0, 0, 0) |} ]).
Proof.
  rewrite (X17_path_is_searched_as_written example_host no_settings
             example_document (0, 30) (fun _ => false) (0, 23, 0, 42)
             (text_of "./routes/home") (text_of ".tsx")).
  - vm_compute. reflexivity.
  - reflexivity.
  - by left.
  - discriminate.
  - exists 114%N. split; [|done].
    apply (bool_decide_unpack _). vm_compute. exact I.
Defined.

(** X18: a string without a dot is no path when every extension holds a
    dot, as the default ones do: the provider returns [null] for it and
    searches for nothing. *)
Theorem X18_segment_is_no_path {Uri} (host : Host Uri) settings document
    position token range rawPath :
  extractPathAtPosition document position = Some (range, rawPath) ->
  (forall ext, ext ∈ fileExtensions (getConfig settings) -> DOT ∈ ext) ->
  DOT ∉ rawPath ->
  provideDefinition host settings document position token = Some None.
Proof.
  intros Hextract Hexts Hno. unfold provideDefinition. rewrite Hextract.
  cbv zeta. by rewrite looksLikePath_no_dot.
Qed.

Lemma X18_witness_dashboard :
  provideDefinition example_host no_settings
    {| uri_of := text_of "/w/app/routes.ts";
       fsPath := text_of "/w/app/routes.ts";
       fileName := text_of "/w/app/routes.ts";
       getText := text_of "[ route('dashboard', './d.tsx') ]";
       getTextIn := fun _ => text_of "'dashboard'";
       getWordRangeAtPosition := fun _ => Some (0, 8, 0, 19) |}
    (0, 12) (fun _ => false)
  = Some None.
Proof.
  eapply (X18_segment_is_no_path example_host no_settings).
  - reflexivity.
  - intros ext Hext. cbn in Hext.
    repeat (apply elem_of_cons in Hext as [->|Hext];
              [apply (bool_decide_unpack _); vm_compute; exact I|]).
    by apply elem_of_nil in Hext.
  - apply (bool_decide_unpack _). vm_compute. exact I.
Defined.

(** X19: the string under the cursor.  When the range the editor finds
    holds a quote, characters that are no quotes and a quote, the path
    [extractPathAtPosition] returns is these characters. *)
Theorem X19_quotes_are_removed {Uri} (document : TextDocument Uri) position
    range quote body :
  getWordRangeAtPosition document position = Some range ->
  getTextIn document range = quote :: body ++ [quote] ->
  quote = SQUOTE \/ quote = DQUOTE ->
  (forall c, c ∈ body -> c <> SQUOTE /\ c <> DQUOTE) ->
  extractPathAtPosition document position = Some (range, body).
Proof.
  intros Hrange Htext Hq Hbody. unfold extractPathAtPosition.
  rewrite Hrange. cbv zeta. rewrite Htext. f_equal. f_equal.
  by apply remove_quotes_literal.
Qed.

Lemma X19_witness_home_path :
  extractPathAtPosition example_document (0, 30)
  = Some ((0, 23, 0, 42), text_of "./routes/home.tsx").
Proof.
  apply (X19_quotes_are_removed example_document (0, 30) (0, 23, 0, 42) SQUOTE
           (text_of "./routes/home.tsx")).
  - reflexivity.
  - reflexivity.
  - by left.
  - intros c Hc.
    assert (bool_decide (c <> SQUOTE /\ c <> DQUOTE) = true); [|by case_bool_decide].
    revert c Hc. apply Forall_forall. apply (bool_decide_unpack _).
    vm_compute. exact I.
Defined.

(** ** The lenses *)

(** X20: when lenses are enabled and the name of the file, in lower case,
    ends in [routes.ts], [routes.tsx], [routes.js] or [routes.jsx],
    [provideCodeLenses] returns one lens for every token that is no prefix;
    the title of a lens begins with a slash and has no two slashes in a
    row, and its tooltip is the title after [Full URL path: ]. *)
Theorem X20_one_lens_per_route {Uri} (host : Host Uri) settings
    (document : TextDocument Uri) :
  enableCodeLens (getConfig settings) = true ->
  (exists ext, ext ∈ [text_of "ts"; text_of "tsx"; text_of "js"; text_of "jsx"]
     /\ endsWith (toLowerCase host (fileName document))
          (text_of "routes." ++ ext) = true) ->
  exists lenses tokens,
    provideCodeLenses host settings document = Some (Some lenses)
    /\ parseRouteTokens (getText document) = Some tokens
    /\ length lenses = length (filter (fun t => type t <> Prefix) tokens)
    /\ forall lens, lens ∈ lenses ->
         head (title lens) = Some SLASH
         /\ double_slash (title lens) = false
         /\ tooltip lens = text_of "Full URL path: " ++ title lens
         /\ command lens = [].
Proof.
  intros Henabled (ext & Hext & Hname). unfold provideCodeLenses. cbv zeta.
  rewrite Henabled. cbn [negb].
  assert (negb (endsWith (toLowerCase host (fileName document)) (text_of "routes.ts"))
          && negb (endsWith (toLowerCase host (fileName document)) (text_of "routes.tsx"))
          && negb (endsWith (toLowerCase host (fileName document)) (text_of "routes.js"))
          && negb (endsWith (toLowerCase host (fileName document)) (text_of "routes.jsx"))
          = false) as ->.
  { repeat (apply elem_of_cons in Hext as [->|Hext];
              [change (text_of "routes." ++ text_of "ts") with (text_of "routes.ts") in Hname;
               change (text_of "routes." ++ text_of "tsx") with (text_of "routes.tsx") in Hname;
               change (text_of "routes." ++ text_of "js") with (text_of "routes.js") in Hname;
               change (text_of "routes." ++ text_of "jsx") with (text_of "routes.jsx") in Hname;
               rewrite Hname; cbn [negb andb]; by rewrite ?andb_false_r|]).
    by apply elem_of_nil in Hext. }
  destruct (parseRoutesFile_total (getText document)) as [routes Hroutes].
  rewrite Hroutes. step_bind.
  destruct (parseRoutesFile_emitted _ _ Hroutes)
    as (tokens & roots & nodes & Htok & Htree & Hem).
  eexists. exists tokens. split; [done|]. split; [done|]. split.
  - rewrite length_fmap.
    by apply (parseRoutesFile_count (getText document)).
  - intros lens (route & -> & Hroute)%list_elem_of_fmap.
    cbn [title tooltip command]. rewrite Forall_forall in Hem.
    destruct (record_fullPath _ _ _ (Hem route Hroute)) as [Hhead Hsingle].
    done.
Qed.

Lemma X20_witness_home_lens :
  provideCodeLenses example_host no_settings example_document
  = Some (Some [ {| lens_range := (0, 17, 0, 22);
                    title := text_of "/";
                    command := [];
                    tooltip := text_of "Full URL path: /" |} ])
  /\ exists lenses tokens,
       provideCodeLenses example_host no_settings example_document
       = Some (Some lenses)
       /\ parseRouteTokens (getText example_document) = Some tokens
       /\ length lenses = length (filter (fun t => type t <> Prefix) tokens)
       /\ forall lens, lens ∈ lenses ->
            head (title lens) = Some SLASH
            /\ double_slash (title lens) = false
            /\ tooltip lens = text_of "Full URL path: " ++ title lens
            /\ command lens = [].
Proof.
  split; [vm_compute; reflexivity|].
  apply (X20_one_lens_per_route example_host no_settings example_document).
  - reflexivity.
  - exists (text_of "ts"). split; [by left|]. vm_compute. reflexivity.
Defined.

(** ** Bounds *)

(** X21: what [findMatchingParen] returns for an offset from -1 on is -1,
    or an offset of the text after [openIndex] that holds a closing
    parenthesis. *)
Theorem X21_matching_paren_bounds text openIndex :
  -1 <= openIndex ->
  exists r,
    findMatchingParen text openIndex = Some r
    /\ (r = -1 \/ (openIndex < r < len text /\ is_char text r RPAREN = true)).
Proof.
  intros Hopen.
  destruct (findMatchingParen_total text openIndex Hopen) as [r Hr].
  exists r. split; [done|].
  destruct (Z.eq_dec r (-1)) as [->|Hne]; [by left|right].
  by apply findMatchingParen_found.
Qed.

Lemma X21_witness_nested_call :
  findMatchingParen (text_of "route('(', f(1), [])") 5 = Some 19
  /\ exists r,
       findMatchingParen (text_of "route('(', f(1), [])") 5 = Some r
       /\ (r = -1
           \/ (5 < r < len (text_of "route('(', f(1), [])")
               /\ is_char (text_of "route('(', f(1), [])") r RPAREN = true)).
Proof.
  split; [reflexivity|].
  apply (X21_matching_paren_bounds (text_of "route('(', f(1), [])") 5). lia.
Defined.

(** X22: [extractStringArg] returns, whatever the text and the offset;
    when it returns a string, the end offset it returns is at least two
    after the offset it started from, and at most the length of the
    text. *)
Theorem X22_string_argument_bounds text startFrom :
  exists r,
    extractStringArg text startFrom = Some r
    /\ forall value endIndex, r = Some (value, endIndex) ->
         startFrom + 2 <= endIndex <= len text.
Proof. apply extractStringArg_total. Qed.

(** X23: when [findFiles] returns no more files than the limit it is
    given, [searchFiles] returns at most [maxSearchResults] files from the
    exact search, and at most half of [maxSearchResults], rounded down, for
    every extension otherwise. *)
Theorem X23_number_of_files {Uri} (host : Host Uri) searchPattern
    documentFsPath config token files :
  (forall base pattern exclude maxResults,
     (length (findFiles host base pattern exclude maxResults)
      <= Z.to_nat maxResults)%nat) ->
  searchFiles host searchPattern documentFsPath config token = Some files ->
  (length files
   <= Nat.max (Z.to_nat (maxSearchResults config))
        (length (fileExtensions config)
         * Z.to_nat (maxSearchResults config / 2)))%nat.
Proof.
  intros Hlimit. rewrite searchFiles_spec.
  destruct (findProjectRoot host documentFsPath) as [root|]; [|done].
  step_bind. cbv zeta. intros [= <-].
  destruct (token 0%nat); [cbn [length]; lia|].
  match goal with
  | |- context [if ?b then _ else _] => destruct b
  end.
  { etransitivity; [apply Hlimit|]. lia. }
  destruct (existsb token _); [cbn [length]; lia|].
  etransitivity; [apply length_mjoin_le|].
  - apply Forall_fmap, Forall_forall. intros ext _. apply Hlimit.
  - rewrite length_fmap. lia.
Qed.

Lemma X23_witness_one_file :
  searchFiles example_host (text_of "routes/home.tsx")
    (text_of "/w/app/Routes.ts") (getConfig no_settings) (fun _ => false)
  = Some [text_of "/w/app/routes/home.tsx"]
  /\ (length [text_of "/w/app/routes/home.tsx"]
      <= Nat.max (Z.to_nat (maxSearchResults (getConfig no_settings)))
           (length (fileExtensions (getConfig no_settings))
            * Z.to_nat (maxSearchResults (getConfig no_settings) / 2)))%nat.
Proof.
  split; [vm_compute; reflexivity|].
  apply (X23_number_of_files example_host (text_of "routes/home.tsx")
           (text_of "/w/app/Routes.ts") (getConfig no_settings)
           (fun _ => false)).
  - intros base pattern exclude maxResults. cbn [findFiles example_host].
    rewrite length_take. lia.
  - vm_compute. reflexivity.
Defined.
